(** * imgproxy: the HTTP request handler of [server.go]

    A shallow embedding of [server.go] (package [main]): the response
    encoder, the auth gate, the recovery boundary and the staged pipeline of
    [ServeHTTP], over an explicit model of the [http.ResponseWriter], of the
    process-wide globals the handler touches and of the collaborators that
    live in other files of the package.

    Conventions.
    - Go [string] and [[]byte] are both sequences of bytes and are converted
      into each other freely by the source; both are [string] here.
    - Go [int] values are [Z].
    - [panic]/[recover] is an error monad over an explicit world; [defer] is
      a combinator that runs its clean-up on both exits.
    - Status codes handed to [WriteHeader] are taken to lie in the range the
      [net/http] server accepts (100..999). *)

From Stdlib Require Import ZArith Lia Bool List Ascii String DecimalString.
From stdpp Require Import base option list strings gmap.

Local Open Scope Z_scope.

(** ** Go library functions used by the handler *)

Module Go.

(** The double quote byte (code 34) of the Go string literals. *)
Definition dquote : string := String (ascii_of_nat 34) EmptyString.

Definition len (s : string) : Z := Z.of_nat (String.length s).

(** [strconv.Itoa]. *)
Definition Itoa (n : Z) : string := NilEmpty.string_of_int (Z.to_int n).

(** [strings.HasPrefix]. *)
Fixpoint HasPrefix (s prefix : string) {struct prefix} : bool :=
  match prefix with
  | EmptyString => true
  | String p prefix' =>
      match s with
      | EmptyString => false
      | String c s' => Ascii.eqb c p && HasPrefix s' prefix'
      end
  end.

(** [strings.Contains]: some suffix of [s] starts with [substr]. *)
Fixpoint Contains (s substr : string) : bool :=
  HasPrefix s substr ||
  match s with
  | EmptyString => false
  | String _ s' => Contains s' substr
  end.

(** [strings.HasSuffix] and [strings.TrimSuffix]. *)
Definition HasSuffix (s suffix : string) : bool :=
  (String.length suffix <=? String.length s)%nat &&
  String.eqb
    (String.substring (String.length s - String.length suffix)
                      (String.length suffix) s)
    suffix.

Definition TrimSuffix (s suffix : string) : string :=
  if HasSuffix s suffix
  then String.substring 0 (String.length s - String.length suffix) s
  else s.

(** The backwards scans of [path/filepath]: [lastCut p s] finds the last
    byte of [s] that satisfies [p] and returns what stands before it, the
    byte, and what stands after it. *)
Fixpoint lastCut (p : ascii -> bool) (s : string)
  : option (string * ascii * string) :=
  match s with
  | EmptyString => None
  | String c rest =>
      match lastCut p rest with
      | Some (a, x, b) => Some (String c a, x, b)
      | None => if p c then Some (EmptyString, c, rest) else None
      end
  end.

(** Whether some byte of [s] satisfies [p]. *)
Fixpoint hasByte (p : ascii -> bool) (s : string) : bool :=
  match s with
  | EmptyString => false
  | String c rest => p c || hasByte p rest
  end.

(** [os.IsPathSeparator] on Unix. *)
Definition IsPathSeparator (c : ascii) : bool := Ascii.eqb c "/"%char.
Definition isDot (c : ascii) : bool := Ascii.eqb c "."%char.

(** [filepath.Split]: cut after the final separator. *)
Definition Split (path : string) : string * string :=
  match lastCut IsPathSeparator path with
  | Some (dir, x, file) => (dir +:+ String x EmptyString, file)
  | None => (EmptyString, path)
  end.

(** [filepath.Ext]: the suffix that starts at the final dot of the final
    element of [path]; empty when there is no dot. *)
Definition Ext (path : string) : string :=
  match lastCut (fun c => IsPathSeparator c || isDot c) path with
  | Some (_, x, rest) => if isDot x then String x rest else EmptyString
  | None => EmptyString
  end.

(** [fmt.Sprintf format arg] for one string operand, for the formats of
    this file: literal text and the [%s] verb ([%%] is a literal percent
    sign). [arg] is [None] once the operand has been consumed; an operand
    that no verb consumed is reported by [fmt] at the end of the output. *)
Fixpoint Sprintf (format : string) (arg : option string) : string :=
  match format with
  | EmptyString =>
      match arg with
      | Some a => "%!(EXTRA string=" +:+ a +:+ ")"
      | None => EmptyString
      end
  | String c rest =>
      if Ascii.eqb c "%"%char then
        match rest with
        | String v rest' =>
            if Ascii.eqb v "s"%char then
              match arg with
              | Some a => a +:+ Sprintf rest' None
              | None => "%!s(MISSING)" +:+ Sprintf rest' None
              end
            else if Ascii.eqb v "%"%char then String v (Sprintf rest' arg)
            else String c (String v (Sprintf rest' arg))
        | EmptyString => "%!(NOVERB)" +:+ Sprintf rest arg
        end
      else String c (Sprintf rest arg)
  end.

(** [crypto/subtle]. A byte is its value in [0, 256). *)
Definition byte_val (c : ascii) : Z := Z.of_N (N_of_ascii c).

(** [int((uint32(x^y) - 1) >> 31)], the subtraction wrapping at 32 bits. *)
Definition ConstantTimeByteEq (x y : Z) : Z :=
  Z.shiftr ((Z.lxor x y - 1) mod 2 ^ 32) 31.

(** The loop [v |= x[i] ^ y[i]] over two slices of the same length. *)
Fixpoint xor_fold (v : Z) (x y : string) : Z :=
  match x, y with
  | String a x', String b y' =>
      xor_fold (Z.lor v (Z.lxor (byte_val a) (byte_val b))) x' y'
  | _, _ => v
  end.

Definition ConstantTimeCompare (x y : string) : Z :=
  if negb (String.length x =? String.length y)%nat then 0
  else ConstantTimeByteEq (xor_fold 0 x y) 0.

End Go.

(** ** [net/url] and [net/http] *)

(** The fields of [url.URL] the handler reads. [EscapedPath] holds what the
    method of that name returns for the URL. *)
Record URL := {
  Scheme : string;
  Opaque : string;
  Path : string;
  EscapedPath : string;
  ForceQuery : bool;
  RawQuery : string;
}.

(** The method [RequestURI] of [url.URL]. *)
Definition RequestURI (u : URL) : string :=
  let result :=
    if String.eqb (Opaque u) EmptyString then
      if String.eqb (EscapedPath u) EmptyString then "/" else EscapedPath u
    else
      if Go.HasPrefix (Opaque u) "//" then Scheme u +:+ ":" +:+ Opaque u
      else Opaque u in
  if ForceQuery u || negb (String.eqb (RawQuery u) EmptyString)
  then result +:+ "?" +:+ RawQuery u
  else result.

(** [http.Header]: a map from (canonical) field names to their values. The
    names used by the handler are pairwise distinct after canonicalisation,
    so they are used as keys as written. *)
Abbreviation Header := (gmap string (list string)).

Definition Header_Get (h : Header) (key : string) : string :=
  match h !! key with
  | Some (v :: _) => v
  | _ => EmptyString
  end.

Definition Header_Set (h : Header) (key value : string) : Header :=
  <[key := [value]]> h.

Record Request := {
  Method : string;
  ReqURL : URL;
  ReqHeader : Header;
}.

Definition MethodGet : string := "GET".
Definition MethodOptions : string := "OPTIONS".

(** [http.ResponseWriter]: the header map under construction, the status
    line once written together with the header fields that went out with
    it, and the body bytes written so far. *)
Record ResponseWriter := {
  rwHeader : Header;
  rwStatus : option Z;
  rwSent : Header;
  rwBody : string;
}.

Definition newResponseWriter : ResponseWriter :=
  {| rwHeader := ∅; rwStatus := None; rwSent := ∅; rwBody := EmptyString |}.

Definition rw_SetHeader (key value : string) (rw : ResponseWriter)
  : ResponseWriter :=
  {| rwHeader := Header_Set (rwHeader rw) key value;
     rwStatus := rwStatus rw; rwSent := rwSent rw; rwBody := rwBody rw |}.

(** [WriteHeader]: the first call fixes the status and the header fields
    sent; later calls are ignored. *)
Definition rw_WriteHeader (code : Z) (rw : ResponseWriter) : ResponseWriter :=
  match rwStatus rw with
  | Some _ => rw
  | None =>
      {| rwHeader := rwHeader rw; rwStatus := Some code;
         rwSent := rwHeader rw; rwBody := rwBody rw |}
  end.

(** [Write]: writes the header with status 200 first if none was written. *)
Definition rw_Write (data : string) (rw : ResponseWriter) : ResponseWriter :=
  let rw' := rw_WriteHeader 200 rw in
  {| rwHeader := rwHeader rw'; rwStatus := rwStatus rw';
     rwSent := rwSent rw'; rwBody := rwBody rw' +:+ data |}.

(** ** Package-level declarations *)

(** Modelled from the spec: the declaration of [imageType] is not part of
    [server.go]. The five formats the two tables of the file name, and
    [imageTypeUnknown] for every other value of the enumeration. *)
Inductive imageType :=
| imageTypeUnknown
| imageTypeJPEG
| imageTypePNG
| imageTypeWEBP
| imageTypeGIF
| imageTypeICO.

(** Modelled from the spec: the typed error of the package, "a value
    carrying a machine status code, an internal diagnostic message (never
    sent to the client), and a public-safe message". *)
Record imgproxyError := {
  StatusCode : Z;
  Message : string;
  PublicMessage : string;
}.

Definition newError (status : Z) (msg pub : string) : imgproxyError :=
  {| StatusCode := status; Message := msg; PublicMessage := pub |}.

(** A value of the interface type [error]: a typed error of the package or
    an error of any other dynamic type, kept by its text. *)
Inductive error :=
| ErrImgproxy (e : imgproxyError)
| ErrOther (text : string).

(** A value handed to [panic]: an [error], or a value that is no [error]. *)
Inductive panicValue :=
| PanicError (err : error)
| PanicOther (v : string).

(** Modelled from the spec: the processing options, "an immutable value
    parsed once per request describing target format, dimensions, and other
    transformation parameters". Only the format is read by [server.go]. *)
Record processingOptions := {
  Format : imageType;
  Params : string;
}.

(** Modelled from the spec: the configuration surface, "bind address,
    accepted-connection cap, processing-concurrency cap, read/write timeout
    seconds, response TTL seconds, shared secret (optional), CORS
    allow-origin (optional), gzip compression on/off, ETag support on/off",
    with the field names [server.go] uses. *)
Record config := {
  Bind : string;
  ReadTimeout : Z;
  WriteTimeout : Z;
  MaxClients : Z;
  Concurrency : Z;
  TTL : Z;
  Secret : string;
  AllowOrigin : string;
  GZipCompression : Z;
  ETagEnabled : bool;
}.

Definition healthPath : string := "/health".
Definition contextDispositionFilenameFallback : string := "image".

Definition mimes (t : imageType) : string :=
  match t with
  | imageTypeJPEG => "image/jpeg"
  | imageTypePNG => "image/png"
  | imageTypeWEBP => "image/webp"
  | imageTypeGIF => "image/gif"
  | imageTypeICO => "image/x-icon"
  | imageTypeUnknown => EmptyString
  end.

(** The format table; a key that is not in a Go map reads as the zero value. *)
Definition contentDispositionsFmt (t : imageType) : string :=
  match t with
  | imageTypeJPEG => "inline; filename=" +:+ Go.dquote +:+ "%s.jpg" +:+ Go.dquote
  | imageTypePNG => "inline; filename=" +:+ Go.dquote +:+ "%s.png" +:+ Go.dquote
  | imageTypeWEBP => "inline; filename=" +:+ Go.dquote +:+ "%s.webp" +:+ Go.dquote
  | imageTypeGIF => "inline; filename=" +:+ Go.dquote +:+ "%s.gif" +:+ Go.dquote
  | imageTypeICO => "inline; filename=" +:+ Go.dquote +:+ "%s.ico" +:+ Go.dquote
  | imageTypeUnknown => EmptyString
  end.

Definition imgproxyIsRunningMsg : string := "imgproxy is running".

Definition errInvalidMethod : imgproxyError :=
  newError 422 "Invalid request method" "Method doesn't allowed".
Definition errInvalidSecret : imgproxyError :=
  newError 403 "Invalid secret" "Forbidden".

(** ** The request context *)

(** Modelled from the spec: the request context, "a mutable, per-request bag
    of derived state threaded through the pipeline: parsed transformation
    options, source image URL, fetched image bytes, computed timer/deadline".
    A derived context keeps what its parent holds. *)
Record context := {
  ctxDeadline : option Z;
  ctxTimerSince : option Z;
  ctxOptions : processingOptions;
  ctxImageURL : string;
  ctxImageData : string;
}.

Definition context_Background : context :=
  {| ctxDeadline := None; ctxTimerSince := None;
     ctxOptions := {| Format := imageTypeUnknown; Params := EmptyString |};
     ctxImageURL := EmptyString; ctxImageData := EmptyString |}.

Definition getProcessingOptions (ctx : context) : processingOptions := ctxOptions ctx.
Definition getImageURL (ctx : context) : string := ctxImageURL ctx.
Definition getImageData (ctx : context) : string := ctxImageData ctx.

Definition withTimer (ctx : context) (since deadline : Z) : context :=
  {| ctxDeadline := Some deadline; ctxTimerSince := Some since;
     ctxOptions := ctxOptions ctx; ctxImageURL := ctxImageURL ctx;
     ctxImageData := ctxImageData ctx |}.

Definition withParsed (ctx : context) (po : processingOptions) (url : string)
  : context :=
  {| ctxDeadline := ctxDeadline ctx; ctxTimerSince := ctxTimerSince ctx;
     ctxOptions := po; ctxImageURL := url; ctxImageData := ctxImageData ctx |}.

Definition withImageData (ctx : context) (data : string) : context :=
  {| ctxDeadline := ctxDeadline ctx; ctxTimerSince := ctxTimerSince ctx;
     ctxOptions := ctxOptions ctx; ctxImageURL := ctxImageURL ctx;
     ctxImageData := data |}.

(** ** Collaborators *)

(** What a call computes: a value or a panic. *)
Inductive ext (A : Type) :=
| Ret (a : A)
| Raise (p : panicValue).
Arguments Ret {A} a.
Arguments Raise {A} p.

(** What a call into another file of the package comes back with: its
    result, an [error] return value, or a panic. *)
Inductive outcome (A : Type) :=
| Done (a : A)
| Failed (err : error)
| Panicked (p : panicValue).
Arguments Done {A} a.
Arguments Failed {A} err.
Arguments Panicked {A} p.

(** A call that takes time: the nanoseconds it took and what it produced. *)
Record call (A : Type) := {
  took : Z;
  result : outcome A;
}.
Arguments took {A} c.
Arguments result {A} c.

(** Modelled from the spec: the functions of package [main] that
    [server.go] calls and that live in other files, by the contracts of the
    collaborator interfaces: the path parser "(raw request) -> (Processing
    Options, source URL) | ParseError", the downloader "(source URL,
    deadline context) -> (image bytes, release function) | DownloadError",
    the processor "(image bytes, Processing Options, deadline context) ->
    (output bytes) | ProcessingError", the strong validator "over the
    response-determining inputs (source bytes + processing options)", the
    request-ID generator, and the [Timeout] error of the taxonomy. The two
    switches of the observability sinks and the library functions
    [url.Parse], [Time.Format] and the gzip writer stand with them. *)
Record package := {
  Nanoid : string;
  newRelicEnabled : bool;
  prometheusEnabled : bool;
  parsePath_impl : Request -> call (processingOptions * string);
  downloadImage_impl : context -> call string;
  processImage_impl : context -> call string;
  eTag_impl : string -> processingOptions -> string;
  calcETag_took : context -> Z;
  gzipData_impl : Z -> string -> ext string;
  errTimeout : imgproxyError;
  unexpectedMessage : error -> Z -> string;
  url_Parse : string -> option URL;
  http_TimeFormat : Z -> string;
}.

(** ** The world of one request *)

(** What the handler does besides writing the response, in the order it
    does it: the log lines, the calls to the observability sinks, the
    admission token, the timer and the pipeline stages. *)
Inductive event :=
| EvLogRequest
| EvLogResponse (color status : Z)
| EvReportError (err : error)
| EvNewRelicStart
| EvNewRelicCancel
| EvNewRelicError (err : error)
| EvPrometheusRequest
| EvPrometheusStartDuration
| EvPrometheusObserveDuration
| EvPrometheusError (tag : string)
| EvLock
| EvUnlock
| EvStartTimer
| EvTimeoutCancel
| EvParsePath
| EvDownloadImage
| EvDownloadCancel
| EvCheckTimeout
| EvCalcETag
| EvProcessImage
| EvRespondWithImage
| EvPoolGet
| EvPoolPut
| EvGzipData.

(** The response writer of the request, the two process-wide globals
    ([authHeaderMust] and the idle buffers of [responseBufPool], each with
    the bytes it still holds), the buffer the request has taken from the
    pool, the clock in nanoseconds, and the events so far, newest first,
    each with the time at which it began. *)
Record world := {
  rw : ResponseWriter;
  authHeaderMust : string;
  responseBufPool : list string;
  borrowed : option string;
  now : Z;
  trace : list (Z * event);
}.

Definition set_rw (f : ResponseWriter -> ResponseWriter) (w : world) : world :=
  {| rw := f (rw w); authHeaderMust := authHeaderMust w;
     responseBufPool := responseBufPool w; borrowed := borrowed w;
     now := now w; trace := trace w |}.

Definition set_authHeaderMust (v : string) (w : world) : world :=
  {| rw := rw w; authHeaderMust := v;
     responseBufPool := responseBufPool w; borrowed := borrowed w;
     now := now w; trace := trace w |}.

Definition set_buffers (pool : list string) (b : option string) (w : world)
  : world :=
  {| rw := rw w; authHeaderMust := authHeaderMust w;
     responseBufPool := pool; borrowed := b;
     now := now w; trace := trace w |}.

Definition advance (d : Z) (w : world) : world :=
  {| rw := rw w; authHeaderMust := authHeaderMust w;
     responseBufPool := responseBufPool w; borrowed := borrowed w;
     now := now w + d; trace := trace w |}.

Definition record_event (e : event) (w : world) : world :=
  {| rw := rw w; authHeaderMust := authHeaderMust w;
     responseBufPool := responseBufPool w; borrowed := borrowed w;
     now := now w; trace := (now w, e) :: trace w |}.

(** The events of a world in the order they happened. *)
Definition history (w : world) : list event := rev (map snd (trace w)).

(** ** The monad of the handler: state and panics *)

Definition M (A : Type) : Type := world -> ext A * world.

#[global] Instance M_ret : MRet M := fun A a w => (Ret a, w).

#[global] Instance M_bind : MBind M := fun A B f m w =>
  match m w with
  | (Ret a, w') => f a w'
  | (Raise p, w') => (Raise p, w')
  end.

Definition panic {A : Type} (p : panicValue) : M A := fun w => (Raise p, w).

(** [panic(err)] for a value of type [error]. *)
Definition panic_error {A : Type} (err : error) : M A := panic (PanicError err).

Definition modify (f : world -> world) : M unit := fun w => (Ret tt, f w).
Definition emit (e : event) : M unit := modify (record_event e).
Definition gets {A : Type} (f : world -> A) : M A := fun w => (Ret (f w), w).
Definition time_Now : M Z := gets now.

(** [defer cleanup] followed by the rest of the function: the clean-up runs
    when the rest is left, by return or by panic. None of the deferred calls
    of the file panics. *)
Definition defer {A : Type} (cleanup : world -> world) (rest : M A) : M A :=
  fun w => let (r, w') := rest w in (r, cleanup w').

Definition deferWhen {A : Type} (b : bool) (cleanup : world -> world)
  (rest : M A) : M A :=
  if b then defer cleanup rest else rest.

(** The methods of the response writer. *)
Definition Header_set (key value : string) : M unit :=
  modify (set_rw (rw_SetHeader key value)).
Definition WriteHeader (code : Z) : M unit :=
  modify (set_rw (rw_WriteHeader code)).
Definition Write (data : string) : M unit :=
  modify (set_rw (rw_Write data)).

(** [time.Second] in nanoseconds, and the wrap-around of [time.Duration]
    (a signed 64-bit integer) under multiplication. *)
Definition time_Second : Z := 1000000000.
Definition wrap64 (z : Z) : Z := (z + 2 ^ 63) mod 2 ^ 64 - 2 ^ 63.
Definition seconds (n : Z) : Z := wrap64 (n * time_Second).

(** ** The functions of [server.go] *)

Section Server.

Variable conf : config.
Variable env : package.

(** [logResponse]: the colour of the band of the status, and the line. *)
Definition logColor (status : Z) : Z :=
  if 500 <=? status then 31
  else if 400 <=? status then 33
  else 32.

Definition logResponse (status : Z) : M unit :=
  emit (EvLogResponse (logColor status) status).

Definition writeCORS : M unit :=
  if 0 <? Go.len (AllowOrigin conf) then
    Header_set "Access-Control-Allow-Origin" (AllowOrigin conf);;
    Header_set "Access-Control-Allow-Methods" "GET, OPTIONs"
  else mret tt.

Definition contentDisposition (imageURL : string) (imgtype : imageType)
  : string :=
  match url_Parse env imageURL with
  | None =>
      Go.Sprintf (contentDispositionsFmt imgtype)
                 (Some contextDispositionFilenameFallback)
  | Some url =>
      let (_, filename) := Go.Split (Path url) in
      if Go.len filename =? 0 then
        Go.Sprintf (contentDispositionsFmt imgtype)
                   (Some contextDispositionFilenameFallback)
      else
        Go.Sprintf (contentDispositionsFmt imgtype)
                   (Some (Go.TrimSuffix filename (Go.Ext filename)))
  end.

(** [responseBufPool.Get]: an idle buffer with the bytes it holds, or a
    new empty one. *)
Definition pool_Get : M unit :=
  emit EvPoolGet;;
  modify (fun w =>
    match responseBufPool w with
    | buf :: idle => set_buffers idle (Some buf) w
    | [] => set_buffers [] (Some EmptyString) w
    end).

(** [responseBufPool.Put(buf)]. *)
Definition pool_Put (w : world) : world :=
  match borrowed w with
  | Some buf => set_buffers (buf :: responseBufPool w) None (record_event EvPoolPut w)
  | None => record_event EvPoolPut w
  end.

Definition set_borrowed (buf : string) (w : world) : world :=
  set_buffers (responseBufPool w) (Some buf) w.

Definition buf_contents (w : world) : string :=
  match borrowed w with
  | Some buf => buf
  | None => EmptyString
  end.

Definition buf_Reset : M unit := modify (set_borrowed EmptyString).

Definition buf_Len : M Z := gets (fun w => Go.len (buf_contents w)).

(** [buf.WriteTo(rw)]: the bytes of the buffer go to the writer and the
    buffer is left empty. *)
Definition buf_WriteTo : M unit :=
  modify (fun w => set_rw (rw_Write (buf_contents w)) w);;
  modify (set_borrowed EmptyString).

(** [gzipData(data, buf)]: the compressed bytes are appended to [buf]. *)
Definition gzipData (data : string) : M unit :=
  emit EvGzipData;;
  match gzipData_impl env (GZipCompression conf) data with
  | Ret z => modify (fun w => set_borrowed (buf_contents w +:+ z) w)
  | Raise p => panic p
  end.

Definition respondWithImage (ctx : context) (reqID : string) (r : Request)
  (data : string) : M unit :=
  let po := getProcessingOptions ctx in
  emit EvRespondWithImage;;
  t ← time_Now;
  Header_set "Expires" (http_TimeFormat env (t + seconds (TTL conf)));;
  Header_set "Cache-Control" ("max-age=" +:+ Go.Itoa (TTL conf) +:+ ", public");;
  Header_set "Content-Type" (mimes (Format po));;
  Header_set "Content-Disposition"
             (contentDisposition (getImageURL ctx) (Format po));;
  if (0 <? GZipCompression conf) &&
     Go.Contains (Header_Get (ReqHeader r) "Accept-Encoding") "gzip"
  then
    pool_Get;;
    defer pool_Put (
      buf_Reset;;
      gzipData data;;
      Header_set "Content-Encoding" "gzip";;
      n ← buf_Len;
      Header_set "Content-Length" (Go.Itoa n);;
      WriteHeader 200;;
      buf_WriteTo;;
      logResponse 200)
  else
    Header_set "Content-Length" (Go.Itoa (Go.len data));;
    WriteHeader 200;;
    Write data;;
    logResponse 200.

Definition respondWithError (reqID : string) (err : imgproxyError) : M unit :=
  logResponse (StatusCode err);;
  WriteHeader (StatusCode err);;
  Write (PublicMessage err).

Definition respondWithOptions (reqID : string) : M unit :=
  logResponse 200;;
  WriteHeader 200.

Definition respondWithNotModified (reqID : string) : M unit :=
  logResponse 200;;
  WriteHeader 304.

Definition prepareAuthHeaderMust : M string :=
  modify (fun w =>
    if Go.len (authHeaderMust w) =? 0
    then set_authHeaderMust (Go.Sprintf "Bearer %s" (Some (Secret conf))) w
    else w);;
  gets authHeaderMust.

Definition checkSecret (r : Request) : M bool :=
  if Go.len (Secret conf) =? 0 then mret true
  else
    must ← prepareAuthHeaderMust;
    mret (Go.ConstantTimeCompare
            (Header_Get (ReqHeader r) "Authorization") must =? 1).

Definition lock : M unit := emit EvLock.
Definition unlock : world -> world := record_event EvUnlock.

(** *** Functions of other files of the package *)

(** Modelled from the spec: [startTimer] is not part of [server.go];
    "derive a context that auto-cancels after the configured write-timeout
    from this point". *)
Definition startTimer (ctx : context) (d : Z) : M context :=
  emit EvStartTimer;;
  t ← time_Now;
  mret (withTimer ctx t (t + d)).

Definition timeoutCancel : world -> world := record_event EvTimeoutCancel.

(** Modelled from the spec: [checkTimeout] is not part of [server.go];
    "if the deadline has already elapsed, fail with a Timeout error". *)
Definition checkTimeout (ctx : context) : M unit :=
  emit EvCheckTimeout;;
  t ← time_Now;
  match ctxDeadline ctx with
  | Some deadline =>
      if deadline <=? t then panic_error (ErrImgproxy (errTimeout env))
      else mret tt
  | None => mret tt
  end.

(** Modelled from the spec: [newUnexpectedError] is not part of
    [server.go]; an unknown error is "wrapped into a generic 500-class
    error with a fixed public message (Internal error)", its diagnostic
    text drawn up to the depth given. *)
Definition newUnexpectedError (err : error) (skip : Z) : imgproxyError :=
  newError 500 (unexpectedMessage env err skip) "Internal error".

(** A call into a collaborator: it begins, takes its time, and comes back
    with a result or an [error], or panics. *)
Definition collaborate {A : Type} (e : event) (c : call A) : M (A + error) :=
  emit e;;
  modify (advance (took c));;
  match result c with
  | Done a => mret (inl a)
  | Failed err => mret (inr err)
  | Panicked p => panic p
  end.

Definition parsePath (ctx : context) (r : Request)
  : M (context * option error) :=
  x ← collaborate EvParsePath (parsePath_impl env r);
  match x with
  | inl (po, url) => mret (withParsed ctx po url, None)
  | inr err => mret (ctx, Some err)
  end.

Definition downloadImage (ctx : context) : M (context * option error) :=
  x ← collaborate EvDownloadImage (downloadImage_impl env ctx);
  match x with
  | inl data => mret (withImageData ctx data, None)
  | inr err => mret (ctx, Some err)
  end.

Definition downloadcancel : world -> world := record_event EvDownloadCancel.

Definition processImage (ctx : context) : M (string * option error) :=
  x ← collaborate EvProcessImage (processImage_impl env ctx);
  match x with
  | inl data => mret (data, None)
  | inr err => mret (EmptyString, Some err)
  end.

(** Modelled from the spec: [calcETag] is not part of [server.go];
    "compute a strong validator over the response-determining inputs
    (source bytes + processing options)". *)
Definition calcETag (ctx : context) : M string :=
  emit EvCalcETag;;
  modify (advance (calcETag_took env ctx));;
  mret (eTag_impl env (getImageData ctx) (getProcessingOptions ctx)).

Definition reportError (err : error) (r : Request) : M unit :=
  emit (EvReportError err).

Definition startNewRelicTransaction (ctx : context) (r : Request) : M context :=
  emit EvNewRelicStart;;
  mret ctx.
Definition newRelicCancel : world -> world := record_event EvNewRelicCancel.
Definition sendErrorToNewRelic (ctx : context) (err : error) : M unit :=
  emit (EvNewRelicError err).
Definition incrementPrometheusErrorsTotal (tag : string) : M unit :=
  emit (EvPrometheusError tag).

(** The report of a failed stage to the observability sinks. *)
Definition reportStageError (ctx : context) (tag : string) (err : error)
  : M unit :=
  (if newRelicEnabled env then sendErrorToNewRelic ctx err else mret tt);;
  (if prometheusEnabled env then incrementPrometheusErrorsTotal tag
   else mret tt).

(** *** [ServeHTTP] *)

(** The deferred function of [ServeHTTP] on the way out: what [recover]
    returns decides. *)
Definition settle (reqID : string) (r : Request) (x : ext unit * world)
  : ext unit * world :=
  match x with
  | (Ret u, w') => (Ret u, w')
  | (Raise rerr, w') =>
      match rerr with
      | PanicError err =>
          (reportError err r;;
           match err with
           | ErrImgproxy ierr => respondWithError reqID ierr
           | _ => respondWithError reqID (newUnexpectedError err 4)
           end) w'
      | PanicOther _ => (Raise rerr, w')
      end
  end.

Definition recovered (reqID : string) (r : Request) (body : M unit) : M unit :=
  fun w => settle reqID r (body w).

(** From the second [checkTimeout] to the response. *)
Definition process (ctx : context) (reqID : string) (r : Request) : M unit :=
  checkTimeout ctx;;
  '(imageData, err) ← processImage ctx;
  match err with
  | Some err => reportStageError ctx "processing" err;; panic_error err
  | None =>
      checkTimeout ctx;;
      respondWithImage ctx reqID r imageData
  end.

(** From the first [checkTimeout] on. *)
Definition validate (ctx : context) (reqID : string) (r : Request)
  (rest : M unit) : M unit :=
  checkTimeout ctx;;
  if ETagEnabled conf then
    eTag ← calcETag ctx;
    Header_set "ETag" eTag;;
    if String.eqb eTag (Header_Get (ReqHeader r) "If-None-Match")
    then respondWithNotModified reqID
    else rest
  else rest.

(** From the admission token on. *)
Definition admitted (ctx : context) (reqID : string) (r : Request) : M unit :=
  lock;;
  defer unlock (
    ctx ← startTimer ctx (seconds (WriteTimeout conf));
    defer timeoutCancel (
      '(ctx, err) ← parsePath ctx r;
      match err with
      | Some err => panic_error err
      | None =>
          '(ctx, err) ← downloadImage ctx;
          defer downloadcancel (
            match err with
            | Some err => reportStageError ctx "download" err;; panic_error err
            | None => validate ctx reqID r (process ctx reqID r)
            end)
      end)).

(** From the observability attach on. *)
Definition observed (reqID : string) (r : Request) : M unit :=
  let ctx := context_Background in
  ctx ← (if newRelicEnabled env then startNewRelicTransaction ctx r
         else mret ctx);
  deferWhen (newRelicEnabled env) newRelicCancel (
    (if prometheusEnabled env
     then emit EvPrometheusRequest;; emit EvPrometheusStartDuration
     else mret tt);;
    deferWhen (prometheusEnabled env)
              (record_event EvPrometheusObserveDuration)
              (admitted ctx reqID r)).

(** From the health shortcut on: what a request that passed the method
    check and the auth gate goes on to. *)
Definition served (reqID : string) (r : Request) : M unit :=
  if String.eqb (RequestURI (ReqURL r)) healthPath then
    WriteHeader 200;;
    Write imgproxyIsRunningMsg
  else observed reqID r.

(** The statements of [ServeHTTP] after its deferred function is set up. *)
Definition handle (reqID : string) (r : Request) : M unit :=
  emit EvLogRequest;;
  writeCORS;;
  if String.eqb (Method r) MethodOptions then respondWithOptions reqID
  else if negb (String.eqb (Method r) MethodGet)
  then panic_error (ErrImgproxy errInvalidMethod)
  else
    ok ← checkSecret r;
    if negb ok then panic_error (ErrImgproxy errInvalidSecret)
    else served reqID r.

Definition ServeHTTP (r : Request) : M unit :=
  let reqID := Nanoid env in
  recovered reqID r (handle reqID r).

End Server.

(** ** Observations on a run *)

(** A world at the start of a request: a fresh response writer, no buffer
    taken, nothing done yet, and [authHeaderMust] either not built yet or
    built from the configured secret. *)
Definition starts (conf : config) (w : world) : Prop :=
  rw w = newResponseWriter /\ borrowed w = None /\ trace w = [] /\
  (authHeaderMust w = EmptyString \/
   authHeaderMust w = "Bearer " +:+ Secret conf).

(** The response writer after [writeCORS]. *)
Definition corsWriter (conf : config) : ResponseWriter :=
  if 0 <? Go.len (AllowOrigin conf) then
    rw_SetHeader "Access-Control-Allow-Methods" "GET, OPTIONs"
      (rw_SetHeader "Access-Control-Allow-Origin" (AllowOrigin conf)
         newResponseWriter)
  else newResponseWriter.

(** The world in which the auth gate is reached: the request is logged and
    the CORS headers are written; and the world in which it is left. *)
Definition entered (conf : config) (w : world) : world :=
  snd ((emit EvLogRequest;; writeCORS conf) w).

Definition passed (conf : config) (r : Request) (w : world) : world :=
  snd (checkSecret conf r (entered conf w)).

Definition status_of (x : ext unit * world) : option Z := rwStatus (rw (snd x)).
Definition body_of (x : ext unit * world) : string := rwBody (rw (snd x)).
Definition sent_of (x : ext unit * world) (key : string) : option (list string) :=
  rwSent (rw (snd x)) !! key.
Definition events_of (x : ext unit * world) : list event := history (snd x).

(** The run ends with the response of a typed error. *)
Definition responds_error (e : imgproxyError) (x : ext unit * world) : Prop :=
  fst x = Ret tt /\ status_of x = Some (StatusCode e) /\
  body_of x = PublicMessage e.

(** The header fields [respondWithImage] sets before it looks at the
    encoding, over the fields [h] already there, at time [t]. *)
Definition imageHeaders (conf : config) (env : package) (ctx : context) (t : Z)
  (h : Header) : Header :=
  Header_Set
    (Header_Set
       (Header_Set
          (Header_Set h "Expires" (http_TimeFormat env (t + seconds (TTL conf))))
          "Cache-Control" ("max-age=" +:+ Go.Itoa (TTL conf) +:+ ", public"))
       "Content-Type" (mimes (Format (getProcessingOptions ctx))))
    "Content-Disposition"
    (contentDisposition env (getImageURL ctx)
                        (Format (getProcessingOptions ctx))).

(** Whether [respondWithImage] compresses the body of the response to [r]. *)
Definition gzipAccepted (conf : config) (r : Request) : bool :=
  (0 <? GZipCompression conf) &&
  Go.Contains (Header_Get (ReqHeader r) "Accept-Encoding") "gzip".

(** The response to a written header [h] with body [body], status 200. *)
Definition imageResponse (h : Header) (body : string) : ResponseWriter :=
  {| rwHeader := h; rwStatus := Some 200; rwSent := h; rwBody := body |}.

(** The deferred calls of an admitted request, in the order they run when
    [ServeHTTP] is left: [downloadcancel], [timeoutCancel], [h.unlock], and
    those of the observability sinks. *)
Definition unwind (env : package) (w : world) : world :=
  let w1 := unlock (timeoutCancel (downloadcancel w)) in
  let w2 := if prometheusEnabled env
            then record_event EvPrometheusObserveDuration w1 else w1 in
  if newRelicEnabled env then newRelicCancel w2 else w2.

Definition unwound (env : package) (x : ext unit * world) : ext unit * world :=
  (fst x, unwind env (snd x)).

(** The events of an admitted request up to the return of [downloadImage],
    newest first: [t0] is the time of arrival, [tp] the time [parsePath]
    took. *)
Definition admittedTrace (env : package) (t0 tp : Z) : list (Z * event) :=
  [(t0 + tp, EvDownloadImage); (t0, EvParsePath); (t0, EvStartTimer);
   (t0, EvLock)] ++
  (if prometheusEnabled env
   then [(t0, EvPrometheusStartDuration); (t0, EvPrometheusRequest)] else []) ++
  (if newRelicEnabled env then [(t0, EvNewRelicStart)] else []) ++
  [(t0, EvLogRequest)].

(** The validator of the request in context [ctx]. *)
Definition eTagOf (env : package) (ctx : context) : string :=
  eTag_impl env (getImageData ctx) (getProcessingOptions ctx).

(** The world after a cache validation that did not end the request: the
    deadline check, and with ETag support the validator computed and set. *)
Definition validatedWorld (conf : config) (env : package) (ctx : context)
  (w : world) : world :=
  if ETagEnabled conf then
    {| rw := rw_SetHeader "ETag" (eTagOf env ctx) (rw w);
       authHeaderMust := authHeaderMust w;
       responseBufPool := responseBufPool w; borrowed := borrowed w;
       now := now w + calcETag_took env ctx;
       trace := (now w, EvCalcETag) :: (now w, EvCheckTimeout) :: trace w |}
  else record_event EvCheckTimeout w.

(** The world in which [respondWithImage] is called: the deadline check
    before the processing, the processing, and the deadline check after. *)
Definition processedWorld (env : package) (ctx : context) (w : world) : world :=
  {| rw := rw w; authHeaderMust := authHeaderMust w;
     responseBufPool := responseBufPool w; borrowed := borrowed w;
     now := now w + took (processImage_impl env ctx);
     trace := (now w + took (processImage_impl env ctx), EvCheckTimeout)
              :: (now w, EvProcessImage) :: (now w, EvCheckTimeout)
              :: trace w |}.

(** The typed error the deferred function responds with when it recovers
    the error [err]. *)
Definition responded (env : package) (err : error) : imgproxyError :=
  match err with
  | ErrImgproxy ierr => ierr
  | ErrOther _ => newUnexpectedError env err 4
  end.

(** The response of [respondWithError] on a writer that has written
    nothing. *)
Definition errorResponse (e : imgproxyError) (rw : ResponseWriter)
  : ResponseWriter :=
  {| rwHeader := rwHeader rw; rwStatus := Some (StatusCode e);
     rwSent := rwHeader rw; rwBody := rwBody rw +:+ PublicMessage e |}.

(** The stages a deadline check stands in front of: the computation of the
    validator, the processing, and the encoding of the response. *)
Definition guarded (e : event) : bool :=
  match e with
  | EvCalcETag | EvProcessImage | EvRespondWithImage => true
  | _ => false
  end.

(** The deadline has been checked at the present instant. *)
Definition checked (w : world) : Prop := In (now w, EvCheckTimeout) (trace w).

(** Every guarded stage that has begun began before the time [deadline], at
    an instant at which the deadline was checked. *)
Definition calm (deadline : Z) (w : world) : Prop :=
  forall t e, In (t, e) (trace w) -> guarded e = true ->
    t < deadline /\ In (t, EvCheckTimeout) (trace w).

(** No deadline check has been made at or after the time [deadline]. *)
Definition punctual (deadline : Z) (w : world) : Prop :=
  forall t, In (t, EvCheckTimeout) (trace w) -> t < deadline.

Definition ontime (deadline : Z) (w : world) : Prop :=
  calm deadline w /\ punctual deadline w.

(** The response carries the header field [key] with value [v]: the field
    is set, and it went out with the status line if that is written. *)
Definition carries (key v : string) (w : world) : Prop :=
  rwHeader (rw w) !! key = Some [v] /\
  (rwStatus (rw w) = None \/ rwSent (rw w) !! key = Some [v]).

(** Nothing of the response is written yet. *)
Definition unwritten (w : world) : Prop :=
  rwStatus (rw w) = None /\ rwBody (rw w) = EmptyString.

(** The pipeline before the response: on time and nothing written. *)
Definition awaiting (deadline : Z) (w : world) : Prop :=
  ontime deadline w /\ unwritten w.

(** How a stage of the pipeline ends: on time, or by the panic of a
    deadline check that found the deadline passed, with nothing written
    and no guarded stage begun since. *)
Definition deadlineKept (env : package) (deadline : Z) (res : ext unit)
  (w : world) : Prop :=
  ontime deadline w \/
  (calm deadline w /\ unwritten w /\
   res = Raise (PanicError (ErrImgproxy (errTimeout env)))).

(** What a deadline check leaves: in time it returns, with the check made
    at the present instant; late it panics with the [Timeout] error. *)
Definition checkedOr (env : package) (deadline : Z) (res : ext unit)
  (w : world) : Prop :=
  (res = Ret tt /\ awaiting deadline w /\ now w < deadline /\ checked w) \/
  (calm deadline w /\ unwritten w /\
   res = Raise (PanicError (ErrImgproxy (errTimeout env)))).

(** Before the timer is started: nothing written, nothing late, and
    [deadline] the time the timer is going to fix. *)
Definition pending (conf : config) (deadline : Z) (w : world) : Prop :=
  awaiting deadline w /\ now w + seconds (WriteTimeout conf) = deadline.

(** Events that are neither guarded stages nor deadline checks. *)
Definition plain (te : Z * event) : Prop :=
  guarded (snd te) = false /\ snd te <> EvCheckTimeout.

(** The request passes the gates that stand before admission. *)
Definition authorized (conf : config) (r : Request) : Prop :=
  Secret conf = EmptyString \/
  Header_Get (ReqHeader r) "Authorization" = "Bearer " +:+ Secret conf.

Definition admissible (conf : config) (r : Request) : Prop :=
  Method r = MethodGet /\ authorized conf r /\
  RequestURI (ReqURL r) <> healthPath.

(** The contexts of the pipeline: after [startTimer], after [parsePath],
    after [downloadImage]. *)
Definition timedContext (conf : config) (w : world) : context :=
  withTimer context_Background (now w) (now w + seconds (WriteTimeout conf)).

Definition parsedContext (conf : config) (w : world)
  (po : processingOptions) (url : string) : context :=
  withParsed (timedContext conf w) po url.

Definition loadedContext (conf : config) (w : world)
  (po : processingOptions) (url data : string) : context :=
  withImageData (parsedContext conf w po url) data.

(** The request is admitted, its path parses to [po] and [url], and the
    download of the source succeeds with [data]. *)
Definition downloaded (conf : config) (env : package) (r : Request) (w : world)
  (po : processingOptions) (url data : string) : Prop :=
  admissible conf r /\
  result (parsePath_impl env r) = Done (po, url) /\
  result (downloadImage_impl env (parsedContext conf w po url)) = Done data.

(** The time the request has spent when [downloadImage] returns. *)
Definition downloadTime (conf : config) (env : package) (r : Request) (w : world)
  (po : processingOptions) (url : string) : Z :=
  took (parsePath_impl env r) +
  took (downloadImage_impl env (parsedContext conf w po url)).

(** The time the request has spent when the cache validation is over, and
    when [processImage] returns. *)
Definition validateTime (conf : config) (env : package) (r : Request) (w : world)
  (po : processingOptions) (url data : string) : Z :=
  downloadTime conf env r w po url +
  (if ETagEnabled conf
   then calcETag_took env (loadedContext conf w po url data) else 0).

Definition respondTime (conf : config) (env : package) (r : Request) (w : world)
  (po : processingOptions) (url data : string) : Z :=
  validateTime conf env r w po url data +
  took (processImage_impl env (loadedContext conf w po url data)).

(** The request reaches [respondWithImage] with the processed bytes [out]:
    it is admitted and downloaded, the cache validation does not end it,
    the processing succeeds, and the three deadline checks on the way find
    the deadline ahead. *)
Definition responding (conf : config) (env : package) (r : Request) (w : world)
  (po : processingOptions) (url data out : string) : Prop :=
  downloaded conf env r w po url data /\
  (ETagEnabled conf = true ->
   Header_Get (ReqHeader r) "If-None-Match" <> eTag_impl env data po) /\
  result (processImage_impl env (loadedContext conf w po url data)) = Done out /\
  downloadTime conf env r w po url < seconds (WriteTimeout conf) /\
  validateTime conf env r w po url data < seconds (WriteTimeout conf) /\
  respondTime conf env r w po url data < seconds (WriteTimeout conf).

(** The response writer when [respondWithImage] is called. *)
Definition validatedWriter (conf : config) (env : package)
  (po : processingOptions) (data : string) : ResponseWriter :=
  if ETagEnabled conf
  then rw_SetHeader "ETag" (eTag_impl env data po) (corsWriter conf)
  else corsWriter conf.

(** ** The file name of the response, in the words of the specification *)

(** The extension of a target format in the fixed format table. *)
Definition extensionOf (t : imageType) : option string :=
  match t with
  | imageTypeJPEG => Some "jpg"
  | imageTypePNG => Some "png"
  | imageTypeWEBP => Some "webp"
  | imageTypeGIF => Some "gif"
  | imageTypeICO => Some "ico"
  | imageTypeUnknown => None
  end.

(** The header value for a file name and an extension. *)
Definition disposition (name ext : string) : string :=
  "inline; filename=" +:+ Go.dquote +:+ name +:+ "." +:+ ext +:+ Go.dquote.

(** [seg] is the last segment of the path [dir +:+ seg]: it holds no
    separator, and [dir] is empty or ends with one. *)
Definition lastSegment (dir seg : string) : Prop :=
  Go.hasByte Go.IsPathSeparator seg = false /\
  (dir = EmptyString \/ exists d, dir = d +:+ "/").

(** [name] is [seg] with its extension stripped: [seg] itself when it has
    no dot, and else what stands before its last dot. *)
Definition stem (seg name : string) : Prop :=
  (Go.hasByte Go.isDot seg = false /\ name = seg) \/
  (exists e, seg = name +:+ "." +:+ e /\ Go.hasByte Go.isDot e = false).

(** ** Admission: the semaphore shared by the requests in flight *)

(** A send on, or a receive from, the channel [h.sem]. *)
Inductive sync :=
| Acquire
| Release.

Definition sync_of (e : event) : option sync :=
  match e with
  | EvLock => Some Acquire
  | EvUnlock => Some Release
  | _ => None
  end.

(** The channel operations among the events of a run, in order. *)
Definition syncs (es : list event) : list sync := omap sync_of es.

(** A buffered channel of [struct{}]: its capacity and the number of
    elements queued. *)
Record chan := {
  chan_cap : Z;
  chan_len : Z;
}.

Record httpHandler := {
  sem : chan;
}.

(** [newHTTPHandler]; [make] panics on a negative size. *)
Definition newHTTPHandler (conf : config) : option httpHandler :=
  if Concurrency conf <? 0 then None
  else Some {| sem := {| chan_cap := Concurrency conf; chan_len := 0 |} |}.

(** A request in flight: the channel operations it has done and those its
    run of [ServeHTTP] has yet to do. *)
Record thread := {
  done : list sync;
  todo : list sync;
}.

(** The server: the handler shared by all requests and the requests. *)
Record server := {
  handler : httpHandler;
  threads : list thread;
}.

Definition boot (h : httpHandler) : server := {| handler := h; threads := [] |}.

Definition with_len (n : Z) (h : httpHandler) : httpHandler :=
  {| sem := {| chan_cap := chan_cap (sem h); chan_len := n |} |}.

Definition advance_thread (t : thread) (a : sync) (rest : list sync) : thread :=
  {| done := done t ++ [a]; todo := rest |}.

(** One step of the server: a connection is accepted and its goroutine is
    to run [ServeHTTP]; a request sends on [h.sem], which needs room in the
    buffer; a request receives from [h.sem], which needs an element. *)
Inductive step (conf : config) : server -> server -> Prop :=
| step_accept (s : server) (env : package) (r : Request) (w : world) :
    trace w = [] ->
    step conf s
         {| handler := handler s;
            threads := threads s ++
              [{| done := [];
                  todo := syncs (events_of (ServeHTTP conf env r w)) |}] |}
| step_send (s : server) (i : nat) (t : thread) (rest : list sync) :
    threads s !! i = Some t ->
    todo t = Acquire :: rest ->
    chan_len (sem (handler s)) < chan_cap (sem (handler s)) ->
    step conf s
         {| handler := with_len (chan_len (sem (handler s)) + 1) (handler s);
            threads := <[i := advance_thread t Acquire rest]> (threads s) |}
| step_receive (s : server) (i : nat) (t : thread) (rest : list sync) :
    threads s !! i = Some t ->
    todo t = Release :: rest ->
    0 < chan_len (sem (handler s)) ->
    step conf s
         {| handler := with_len (chan_len (sem (handler s)) - 1) (handler s);
            threads := <[i := advance_thread t Release rest]> (threads s) |}.

(** A request holds an admission token from its send to its receive. *)
Definition tokens (ops : list sync) : Z :=
  foldr (fun a n => match a with Acquire => n + 1 | Release => n - 1 end) 0 ops.

Definition holds (t : thread) : bool := 0 <? tokens (done t).

Definition held (t : thread) : Z := if holds t then 1 else 0.

(** The number of requests that hold a token. *)
Definition holders (s : server) : Z :=
  foldr (fun t n => held t + n) 0 (threads s).

(** ** Three sentences of the specification, as they are worded *)



(** "For all requests when a secret is configured and the [Authorization]
    header does not equal [Bearer <secret>]: response status = 403". *)
Definition secretGateAsWorded (conf : config) (env : package) : Prop :=
  forall r w,
    starts conf w ->
    Secret conf <> EmptyString ->
    Header_Get (ReqHeader r) "Authorization" <> "Bearer " +:+ Secret conf ->
    responds_error errInvalidSecret (ServeHTTP conf env r w).

(** "[GET /health] always returns 200 with the fixed body": for every GET
    request whose target path is exactly the health-check path. *)
Definition healthShortcutAsWorded (conf : config) (env : package) : Prop :=
  forall r w,
    starts conf w ->
    Method r = MethodGet ->
    Path (ReqURL r) = healthPath ->
    status_of (ServeHTTP conf env r w) = Some 200 /\
    body_of (ServeHTTP conf env r w) = imgproxyIsRunningMsg.

(** ** A sample deployment *)

Module Sample.

Definition conf : config :=
{| Bind := ":8080"; ReadTimeout := 10; WriteTimeout := 10;
   MaxClients := 10; Concurrency := 2; TTL := 3600;
   Secret := "hunter2"; AllowOrigin := "*";
   GZipCompression := 5; ETagEnabled := true |}.

(** The same deployment without a secret. *)
Definition open : config :=
{| Bind := ":8080"; ReadTimeout := 10; WriteTimeout := 10;
   MaxClients := 10; Concurrency := 2; TTL := 3600;
   Secret := EmptyString; AllowOrigin := "*";
   GZipCompression := 5; ETagEnabled := true |}.

Definition po : processingOptions :=
{| Format := imageTypePNG; Params := "rs:fit:300:200" |}.

Definition sourceURL : string := "http://x/y/photo.png?a=b".

Definition parseURL (s : string) : option URL :=
if String.eqb s sourceURL then
  Some {| Scheme := "http"; Opaque := EmptyString; Path := "/y/photo.png";
          EscapedPath := "/y/photo.png"; ForceQuery := false;
          RawQuery := "a=b" |}
else None.

Definition millisecond : Z := 1000000.

(** Collaborators that answer at once with fixed results; [parseTook] is
  the time the path parser takes. *)
Definition collaborators (parseTook : Z) : package :=
{| Nanoid := "Uakgb_J5m9g-0JDMbcJqL";
   newRelicEnabled := false;
   prometheusEnabled := true;
   parsePath_impl := fun _ =>
     {| took := parseTook; result := Done (po, sourceURL) |};
   downloadImage_impl := fun _ =>
     {| took := 20 * millisecond; result := Done "source bytes" |};
   processImage_impl := fun _ =>
     {| took := 50 * millisecond; result := Done "processed bytes" |};
   eTag_impl := fun data o => Params o +:+ "/" +:+ data;
   calcETag_took := fun _ => millisecond;
   gzipData_impl := fun _ data => Ret ("gzip:" +:+ data);
   errTimeout := newError 503 "Timeout" "Timeout";
   unexpectedMessage := fun err _ =>
     match err with
     | ErrImgproxy e => Message e
     | ErrOther text => text
     end;
   url_Parse := parseURL;
   http_TimeFormat := Go.Itoa |}.

Definition env : package := collaborators millisecond.

(** A path parser that takes twelve seconds. *)
Definition slow : package := collaborators (12 * time_Second).

(** A deployment whose source host refuses the connection. *)
Definition offline : package :=
{| Nanoid := Nanoid env;
   newRelicEnabled := true;
   prometheusEnabled := true;
   parsePath_impl := parsePath_impl env;
   downloadImage_impl := fun _ =>
     {| took := 3 * millisecond;
        result := Failed (ErrOther "dial tcp: connection refused") |};
   processImage_impl := processImage_impl env;
   eTag_impl := eTag_impl env;
   calcETag_took := calcETag_took env;
   gzipData_impl := gzipData_impl env;
   errTimeout := errTimeout env;
   unexpectedMessage := unexpectedMessage env;
   url_Parse := url_Parse env;
   http_TimeFormat := http_TimeFormat env |}.

Definition url (path query : string) : URL :=
{| Scheme := EmptyString; Opaque := EmptyString; Path := path;
   EscapedPath := path; ForceQuery := false; RawQuery := query |}.

Definition imagePath : string := "/rs:fit:300:200/plain/http://x/y/photo.png".

Definition bearer : Header :=
Header_Set (Header_Set ∅ "Accept-Encoding" "gzip, deflate")
           "Authorization" "Bearer hunter2".

(** An image request with the secret, from a client that accepts gzip. *)
Definition get : Request :=
{| Method := MethodGet; ReqURL := url imagePath "a=b"; ReqHeader := bearer |}.

(** The same request from a client that holds the validator already. *)
Definition revalidate : Request :=
{| Method := MethodGet; ReqURL := url imagePath "a=b";
   ReqHeader := Header_Set bearer "If-None-Match"
                  "rs:fit:300:200/source bytes" |}.

(** Requests without the secret. *)
Definition post : Request :=
{| Method := "POST"; ReqURL := url imagePath EmptyString; ReqHeader := ∅ |}.

Definition options : Request :=
{| Method := MethodOptions; ReqURL := url imagePath EmptyString;
   ReqHeader := ∅ |}.

Definition anonymous : Request :=
{| Method := MethodGet; ReqURL := url imagePath EmptyString; ReqHeader := ∅ |}.

Definition probe : Request :=
{| Method := MethodGet; ReqURL := url healthPath EmptyString; ReqHeader := ∅ |}.

(** Health probes with the secret, and with a query string. *)
Definition health : Request :=
{| Method := MethodGet; ReqURL := url healthPath EmptyString;
   ReqHeader := bearer |}.

Definition healthQuery : Request :=
{| Method := MethodGet; ReqURL := url healthPath "x=1"; ReqHeader := bearer |}.

(** The world a request arrives in: one idle buffer in the pool, which
  still holds the bytes of an earlier response. *)
Definition arrival : world :=
{| rw := newResponseWriter; authHeaderMust := EmptyString;
   responseBufPool := ["stale bytes"]; borrowed := None;
   now := 0; trace := [] |}.

(** A server with one request in flight that holds a token. *)
Definition busy : server :=
{| handler := {| sem := {| chan_cap := 2; chan_len := 1 |} |};
   threads := [{| done := [Acquire]; todo := [Release] |}] |}.

End Sample.

(** The channel operations of a world. *)
Definition channelOps (w : world) : list sync := syncs (history w).

Module Admission.

(** A request has not sent yet, holds the token, or is done with the
  channel; a run that never sends has nothing to do. *)
Inductive phase : thread -> Prop :=
| phase_bypass : phase {| done := []; todo := [] |}
| phase_waiting : phase {| done := []; todo := [Acquire; Release] |}
| phase_holding : phase {| done := [Acquire]; todo := [Release] |}
| phase_released : phase {| done := [Acquire; Release]; todo := [] |}.

(** What every reachable state of the server satisfies. *)
Record invariant (conf : config) (s : server) : Prop := {
inv_cap : chan_cap (sem (handler s)) = Concurrency conf;
inv_len : chan_len (sem (handler s)) = holders s;
inv_room : chan_len (sem (handler s)) <= chan_cap (sem (handler s));
inv_phases : Forall phase (threads s);
}.

End Admission.

(** ** A program logic for the handler monad *)

(** [triple P m Q]: from a world in [P], [m] ends, by return or by panic, in
    a result and a world in [Q]. *)
Definition triple {A : Type} (P : world -> Prop) (m : M A)
  (Q : ext A -> world -> Prop) : Prop :=
  forall w, P w -> Q (fst (m w)) (snd (m w)).

(** [inv I m]: [m] keeps [I], however it ends. *)
Definition inv {A : Type} (I : world -> Prop) (m : M A) : Prop :=
  triple I m (fun _ => I).

(** [total m]: [m] never panics. *)
Definition total {A : Type} (m : M A) : Prop :=
  forall w, exists a, fst (m w) = Ret a.

(** [leads P m Q]: from [P], [m] ends in [Q], however it ends. *)
Definition leads {A : Type} (P : world -> Prop) (m : M A) (Q : world -> Prop)
  : Prop :=
  triple P m (fun _ => Q).

(** [careful m]: when [m] panics, nothing of the response is written. *)
Definition careful {A : Type} (m : M A) : Prop :=
  triple unwritten m
         (fun res w => match res with Raise _ => unwritten w | Ret _ => True end).

(** A computation that does not touch the channel. *)
Definition quietly {A : Type} (m : M A) : Prop :=
  forall k, inv (fun w => channelOps w = k) m.

(** ** Further observations on a run *)

(** The response does not have the header field [key]: it is not set, and
    it did not go out with the status line. *)
Definition lacks (key : string) (w : world) : Prop :=
  rwHeader (rw w) !! key = None /\ rwSent (rw w) !! key = None.

(** The two header fields of [writeCORS] on the response: both there when
    an origin is configured, and none of them else. *)
Definition corsKept (conf : config) (w : world) : Prop :=
  if 0 <? Go.len (AllowOrigin conf) then
    carries "Access-Control-Allow-Origin" (AllowOrigin conf) w /\
    carries "Access-Control-Allow-Methods" "GET, OPTIONs" w
  else
    lacks "Access-Control-Allow-Origin" w /\
    lacks "Access-Control-Allow-Methods" w.

(** The status line of the response is written. *)
Definition written (w : world) : Prop := rwStatus (rw w) <> None.

(** [lands m]: [m] ends with the status line written, however it ends. *)
Definition lands {A : Type} (m : M A) : Prop :=
  forall w, written (snd (m w)).

(** [responsive m]: from a response of which nothing is written, [m] does
    not return before the status line is written. *)
Definition responsive {A : Type} (m : M A) : Prop :=
  triple unwritten m
         (fun res w => match res with Ret _ => written w | Raise _ => True end).

(** The process-wide globals between two requests: no buffer is out of the
    pool, the pool holds at least [n] buffers, and [authHeaderMust] is not
    built yet or built from the configured secret. *)
Definition settled (conf : config) (n : nat) (w : world) : Prop :=
  borrowed w = None /\
  (n <= List.length (responseBufPool w))%nat /\
  (authHeaderMust w = EmptyString \/
   authHeaderMust w = "Bearer " +:+ Secret conf).

(** The same while a buffer is out of the pool. *)
Definition lent (conf : config) (n : nat) (w : world) : Prop :=
  (exists buf, borrowed w = Some buf) /\
  (n <= S (List.length (responseBufPool w)))%nat /\
  (authHeaderMust w = EmptyString \/
   authHeaderMust w = "Bearer " +:+ Secret conf).

(** The world the next request arrives in: a response writer of its own,
    and the globals as the last request left them. *)
Definition nextArrival (w : world) : world :=
  {| rw := newResponseWriter; authHeaderMust := authHeaderMust w;
     responseBufPool := responseBufPool w; borrowed := borrowed w;
     now := now w; trace := [] |}.

(** ** The order of events on the paths of an admitted request *)

(** The calls to the observability sinks before the admission token is
    taken, and the deferred ones after it is given back. *)
Definition attach (env : package) : list event :=
  (if newRelicEnabled env then [EvNewRelicStart] else []) ++
  (if prometheusEnabled env
   then [EvPrometheusRequest; EvPrometheusStartDuration] else []).

Definition detach (env : package) : list event :=
  (if prometheusEnabled env then [EvPrometheusObserveDuration] else []) ++
  (if newRelicEnabled env then [EvNewRelicCancel] else []).

(** The report of the error of a failed stage to the sinks. *)
Definition stageReport (env : package) (tag : string) (err : error)
  : list event :=
  (if newRelicEnabled env then [EvNewRelicError err] else []) ++
  (if prometheusEnabled env then [EvPrometheusError tag] else []).

(** What the deferred function of [ServeHTTP] does with a recovered error. *)
Definition answer (env : package) (err : error) : list event :=
  [EvReportError err;
   EvLogResponse (logColor (StatusCode (responded env err)))
                 (StatusCode (responded env err))].

(** The events up to the return of [downloadImage], and those of the cache
    validation that lets the request go on. *)
Definition fetched (env : package) : list event :=
  [EvLogRequest] ++ attach env ++
  [EvLock; EvStartTimer; EvParsePath; EvDownloadImage].

Definition validated (conf : config) : list event :=
  EvCheckTimeout :: (if ETagEnabled conf then [EvCalcETag] else []).

(** The deferred calls of an admitted request whose download has returned. *)
Definition released (env : package) : list event :=
  [EvDownloadCancel; EvTimeoutCancel; EvUnlock] ++ detach env.

(** ** The admission window *)

(** The events of the pipeline: the timer, the stages, the deadline checks
    and the response encoder with its buffer. *)
Definition pipelineEvent (e : event) : bool :=
  match e with
  | EvStartTimer | EvTimeoutCancel | EvParsePath | EvDownloadImage
  | EvDownloadCancel | EvCheckTimeout | EvCalcETag | EvProcessImage
  | EvRespondWithImage | EvPoolGet | EvPoolPut | EvGzipData => true
  | _ => false
  end.

(** An event that is neither of the pipeline nor a channel operation. *)
Definition offPipeline (e : event) : Prop :=
  pipelineEvent e = false /\ sync_of e = None.

(** Nothing of the pipeline has happened, and the channel is untouched. *)
Definition idle (w : world) : Prop :=
  Forall (fun te => offPipeline (snd te)) (trace w).

(** The token was taken at [t1], after the events [pre], and is held. *)
Definition holding (t1 : Z) (pre : list (Z * event)) (w : world) : Prop :=
  exists mid,
    trace w = mid ++ (t1, EvLock) :: pre /\
    Forall (fun te => sync_of (snd te) = None) mid.

(** The token was taken and given back, and nothing of the pipeline
    happened before or after. *)
Definition windowed (w : world) : Prop :=
  exists post t2 mid t1 pre,
    trace w = post ++ (t2, EvUnlock) :: mid ++ (t1, EvLock) :: pre /\
    Forall (fun te => offPipeline (snd te)) post /\
    Forall (fun te => sync_of (snd te) = None) mid /\
    Forall (fun te => offPipeline (snd te)) pre.

Definition framed (w : world) : Prop := idle w \/ windowed w.

(** ** Variants of the sample deployment *)

Module Variant.

(** [env] with another path parser, and with another processor. *)
Definition withParser (c : call (processingOptions * string)) (env : package)
: package :=
{| Nanoid := Nanoid env;
   newRelicEnabled := newRelicEnabled env;
   prometheusEnabled := prometheusEnabled env;
   parsePath_impl := fun _ => c;
   downloadImage_impl := downloadImage_impl env;
   processImage_impl := processImage_impl env;
   eTag_impl := eTag_impl env;
   calcETag_took := calcETag_took env;
   gzipData_impl := gzipData_impl env;
   errTimeout := errTimeout env;
   unexpectedMessage := unexpectedMessage env;
   url_Parse := url_Parse env;
   http_TimeFormat := http_TimeFormat env |}.

Definition withProcessor (c : call string) (env : package) : package :=
{| Nanoid := Nanoid env;
   newRelicEnabled := newRelicEnabled env;
   prometheusEnabled := prometheusEnabled env;
   parsePath_impl := parsePath_impl env;
   downloadImage_impl := downloadImage_impl env;
   processImage_impl := fun _ => c;
   eTag_impl := eTag_impl env;
   calcETag_took := calcETag_took env;
   gzipData_impl := gzipData_impl env;
   errTimeout := errTimeout env;
   unexpectedMessage := unexpectedMessage env;
   url_Parse := url_Parse env;
   http_TimeFormat := http_TimeFormat env |}.

Definition invalidPath : imgproxyError :=
newError 404 "Invalid path: /rs:fit" "Invalid URL".

Definition badPath : package :=
withParser {| took := Sample.millisecond;
              result := Failed (ErrImgproxy invalidPath) |} Sample.env.

Definition badImage : package :=
withProcessor {| took := 5 * Sample.millisecond;
                 result := Failed (ErrOther "unsupported image format") |}
              Sample.env.

(** The sample deployment without ETag support. *)
Definition plain : config :=
{| Bind := Bind Sample.conf; ReadTimeout := ReadTimeout Sample.conf;
   WriteTimeout := WriteTimeout Sample.conf;
   MaxClients := MaxClients Sample.conf;
   Concurrency := Concurrency Sample.conf; TTL := TTL Sample.conf;
   Secret := Secret Sample.conf; AllowOrigin := AllowOrigin Sample.conf;
   GZipCompression := GZipCompression Sample.conf; ETagEnabled := false |}.

(** [env] with another downloader. *)
Definition withDownloader (c : call string) (env : package) : package :=
{| Nanoid := Nanoid env;
   newRelicEnabled := newRelicEnabled env;
   prometheusEnabled := prometheusEnabled env;
   parsePath_impl := parsePath_impl env;
   downloadImage_impl := fun _ => c;
   processImage_impl := processImage_impl env;
   eTag_impl := eTag_impl env;
   calcETag_took := calcETag_took env;
   gzipData_impl := gzipData_impl env;
   errTimeout := errTimeout env;
   unexpectedMessage := unexpectedMessage env;
   url_Parse := url_Parse env;
   http_TimeFormat := http_TimeFormat env |}.

(** A source host that answers, with the same bytes, after eleven
  seconds. *)
Definition lateDownload : package :=
withDownloader {| took := 11 * time_Second; result := Done "source bytes" |}
               Sample.env.

End Variant.

(** The event [e] has not happened. *)
Definition never (e : event) (w : world) : Prop :=
  forall t, ~ In (t, e) (trace w).

(** No validator is on the response, and none was computed. *)
Definition unvalidated (w : world) : Prop :=
  lacks "ETag" w /\ never EvCalcETag w.

(** ** The response log line *)

(** No response log line is written, and nothing of the response. *)
Definition unanswered (w : world) : Prop :=
  unwritten w /\ forall c s, never (EvLogResponse c s) w.

(** Every response log line has the colour of its status and reports the
    status of the response, but for the status 304, which is logged as
    200. *)
Definition loggedAs (w : world) : Prop :=
  forall t c s, In (t, EvLogResponse c s) (trace w) ->
    c = logColor s /\
    (rwStatus (rw w) = Some s \/ (s = 200 /\ rwStatus (rw w) = Some 304)).

(** [reported m]: from a response that is not begun, [m] returns with the
    response logged as it is written, or panics with the response not
    begun. *)
Definition reported {A : Type} (m : M A) : Prop :=
  triple unanswered m
         (fun res w => match res with
                       | Ret _ => loggedAs w
                       | Raise _ => unanswered w
                       end).

(** [answers m]: from a response that is not begun, [m] returns, with the
    response logged as it is written. *)
Definition answers {A : Type} (m : M A) : Prop :=
  triple unanswered m (fun res w => (exists a, res = Ret a) /\ loggedAs w).

(** ** The not-modified sentence of the specification, as it is worded *)

(** "If it matches the client's [If-None-Match], respond 304 and
    terminate": with ETag support, for every request whose download
    succeeds and whose If-None-Match header is the validator of the
    downloaded bytes and the processing options. *)
Definition notModifiedAsWorded (conf : config) (env : package) : Prop :=
  forall r w po url data,
    starts conf w ->
    downloaded conf env r w po url data ->
    ETagEnabled conf = true ->
    Header_Get (ReqHeader r) "If-None-Match" = eTag_impl env data po ->
    status_of (ServeHTTP conf env r w) = Some 304.

(** * Proofs *)

(** ** The Go library functions *)

Module GoFacts.
Import Go.

Lemma log2_byte (a : Z) : 0 <= a < 256 -> Z.log2 a < 8.
Proof.
  intros [Ha Hb].
  destruct (Z.eq_dec a 0) as [->|Hne]; [reflexivity|].
  apply Z.log2_lt_pow2; lia.
Qed.

Lemma below_256 (a : Z) : 0 <= a -> Z.log2 a < 8 -> a < 256.
Proof.
  intros Ha Hlog.
  destruct (Z.eq_dec a 0) as [->|Hne]; [lia|].
  apply (proj2 (Z.log2_lt_pow2 a 8 ltac:(lia))); exact Hlog.
Qed.

Lemma lor_byte (a b : Z) :
  0 <= a < 256 -> 0 <= b < 256 -> 0 <= Z.lor a b < 256.
Proof.
  intros Ha Hb.
  assert (Hnn : 0 <= Z.lor a b) by (apply Z.lor_nonneg; lia).
  split; [exact Hnn|].
  apply below_256; [exact Hnn|].
  rewrite Z.log2_lor by lia.
  pose proof (log2_byte a Ha). pose proof (log2_byte b Hb). lia.
Qed.

Lemma lxor_byte (a b : Z) :
  0 <= a < 256 -> 0 <= b < 256 -> 0 <= Z.lxor a b < 256.
Proof.
  intros Ha Hb.
  assert (Hnn : 0 <= Z.lxor a b) by (apply Z.lxor_nonneg; lia).
  split; [exact Hnn|].
  apply below_256; [exact Hnn|].
  pose proof (Z.log2_lxor a b ltac:(lia) ltac:(lia)).
  pose proof (log2_byte a Ha). pose proof (log2_byte b Hb). lia.
Qed.

Lemma byte_val_range (c : ascii) : 0 <= byte_val c < 256.
Proof.
  unfold byte_val. pose proof (N_ascii_bounded c). lia.
Qed.

Lemma byte_val_inj (a b : ascii) : byte_val a = byte_val b -> a = b.
Proof.
  unfold byte_val. intros H. apply N2Z.inj in H.
  rewrite <- (ascii_N_embedding a), <- (ascii_N_embedding b). now rewrite H.
Qed.

Lemma ConstantTimeByteEq_zero (v : Z) :
  0 <= v < 256 -> (ConstantTimeByteEq v 0 = 1 <-> v = 0).
Proof.
  intros Hv. unfold ConstantTimeByteEq.
  rewrite Z.lxor_0_r, Z.shiftr_div_pow2 by lia.
  destruct (Z.eq_dec v 0) as [->|Hne].
  - split; [reflexivity|]. intros _. reflexivity.
  - split; [|lia]. intros H.
    rewrite Z.mod_small in H by lia.
    rewrite Z.div_small in H by lia. discriminate.
Qed.

Lemma xor_fold_range (x y : string) (v : Z) :
  0 <= v < 256 -> 0 <= xor_fold v x y < 256.
Proof.
  revert y v. induction x as [|a x IH]; intros [|b y] v Hv; simpl; try exact Hv.
  apply IH, lor_byte; [exact Hv|].
  apply lxor_byte; apply byte_val_range.
Qed.

Lemma xor_fold_zero (x y : string) (v : Z) :
  String.length x = String.length y ->
  (xor_fold v x y = 0 <-> v = 0 /\ x = y).
Proof.
  revert y v. induction x as [|a x IH]; intros [|b y] v Hlen; simpl in *;
    try discriminate.
  - intuition.
  - injection Hlen as Hlen. rewrite (IH y _ Hlen), Z.lor_eq_0_iff, Z.lxor_eq_0_iff.
    split.
    + intros [[Hv Hab] Hxy]. apply byte_val_inj in Hab. now subst.
    + intros [Hv Heq]. injection Heq as -> ->. auto.
Qed.

(** [ConstantTimeCompare] answers 1 exactly on equal byte strings. *)
Lemma ConstantTimeCompare_eq (x y : string) :
  ConstantTimeCompare x y = 1 <-> x = y.
Proof.
  unfold ConstantTimeCompare.
  destruct (Nat.eqb_spec (String.length x) (String.length y)) as [Hlen|Hlen];
    simpl.
  - rewrite ConstantTimeByteEq_zero by (apply xor_fold_range; lia).
    rewrite (xor_fold_zero x y 0 Hlen). intuition.
  - split; [discriminate|]. intros ->. now elim Hlen.
Qed.

Lemma ConstantTimeCompare_bit (x y : string) :
  (ConstantTimeCompare x y =? 1) = true <-> x = y.
Proof. rewrite Z.eqb_eq. apply ConstantTimeCompare_eq. Qed.

(** [strings.HasPrefix] and [strings.Contains] against concatenation. *)
Lemma HasPrefix_app (p s : string) : HasPrefix (p +:+ s) p = true.
Proof.
  induction p as [|c p IH]; simpl; [reflexivity|].
  now rewrite Ascii.eqb_refl, IH.
Qed.

Lemma HasPrefix_inv (s p : string) :
  HasPrefix s p = true -> exists b, s = p +:+ b.
Proof.
  revert s. induction p as [|c p IH]; intros s H; simpl in *.
  - now exists s.
  - destruct s as [|d s]; [discriminate|].
    apply andb_prop in H as [Hc Hp]. apply Ascii.eqb_eq in Hc. subst d.
    destruct (IH s Hp) as [b ->]. now exists b.
Qed.

Lemma Contains_here (s sub : string) :
  HasPrefix s sub = true -> Contains s sub = true.
Proof. intros H. destruct s; simpl; now rewrite H. Qed.

Lemma Contains_spec (s sub : string) :
  Contains s sub = true <-> exists a b, s = a +:+ sub +:+ b.
Proof.
  split.
  - induction s as [|c s IH]; simpl; intros H.
    + rewrite orb_false_r in H. apply HasPrefix_inv in H as [b ->].
      now exists EmptyString, b.
    + apply orb_prop in H as [H|H].
      * apply HasPrefix_inv in H as [b ->]. now exists EmptyString, b.
      * destruct (IH H) as (a & b & ->). now exists (String c a), b.
  - intros (a & b & ->). induction a as [|c a IH]; simpl.
    + apply Contains_here. exact (HasPrefix_app sub b).
    + rewrite IH. apply orb_true_r.
Qed.

End GoFacts.

Module PathFacts.
#[local] Arguments String.append !_ _ / : simpl nomatch.
Import Go.

Lemma length_app (a b : string) :
  String.length (a +:+ b) = (String.length a + String.length b)%nat.
Proof. induction a as [|c a IH]; simpl; [reflexivity|now rewrite IH]. Qed.

Lemma app_assoc (a b c : string) : (a +:+ b) +:+ c = a +:+ b +:+ c.
Proof. induction a as [|x a IH]; simpl; [reflexivity|now rewrite IH]. Qed.

Lemma substring_whole (s : string) : String.substring 0 (String.length s) s = s.
Proof. induction s as [|c s IH]; simpl; [reflexivity|now rewrite IH]. Qed.

Lemma substring_app_l (a b : string) :
  String.substring 0 (String.length a) (a +:+ b) = a.
Proof.
  induction a as [|c a IH]; simpl.
  - destruct b; reflexivity.
  - now rewrite IH.
Qed.

Lemma substring_app_r (a b : string) :
  String.substring (String.length a) (String.length b) (a +:+ b) = b.
Proof.
  induction a as [|c a IH]; simpl; [apply substring_whole|exact IH].
Qed.

Lemma HasSuffix_app (a b : string) : HasSuffix (a +:+ b) b = true.
Proof.
  unfold HasSuffix. rewrite length_app.
  replace (String.length a + String.length b - String.length b)%nat
    with (String.length a) by lia.
  rewrite substring_app_r, String.eqb_refl, andb_true_r.
  apply Nat.leb_le. lia.
Qed.

Lemma TrimSuffix_app (a b : string) : TrimSuffix (a +:+ b) b = a.
Proof.
  unfold TrimSuffix. rewrite HasSuffix_app, length_app.
  replace (String.length a + String.length b - String.length b)%nat
    with (String.length a) by lia.
  apply substring_app_l.
Qed.

Lemma TrimSuffix_empty (s : string) : TrimSuffix s EmptyString = s.
Proof.
  unfold TrimSuffix, HasSuffix. simpl. rewrite Nat.sub_0_r.
  destruct (String.eqb _ _); [apply substring_whole|reflexivity].
Qed.

Lemma lastCut_None (p : ascii -> bool) (s : string) :
  lastCut p s = None <-> hasByte p s = false.
Proof.
  induction s as [|c s IH]; simpl; [tauto|].
  destruct (lastCut p s) as [[[a x] b]|].
  - split; [discriminate|]. intros H. apply orb_false_elim in H as [_ H].
    apply IH in H. discriminate.
  - destruct (p c); simpl; [split; discriminate|]. tauto.
Qed.

Lemma lastCut_app (p : ascii -> bool) (a b : string) (x : ascii) :
  p x = true -> hasByte p b = false ->
  lastCut p (a +:+ String x b) = Some (a, x, b).
Proof.
  intros Hx Hb. apply lastCut_None in Hb.
  induction a as [|c a IH]; simpl.
  - now rewrite Hb, Hx.
  - now rewrite IH.
Qed.

Lemma lastCut_sound (p : ascii -> bool) (s a b : string) (x : ascii) :
  lastCut p s = Some (a, x, b) ->
  s = a +:+ String x b /\ p x = true /\ hasByte p b = false.
Proof.
  revert a. induction s as [|c s IH]; intros a; simpl; [discriminate|].
  destruct (lastCut p s) as [[[a' x'] b']|] eqn:E.
  - intros [= <- <- <-]. destruct (IH a' eq_refl) as (-> & Hx & Hb). auto.
  - destruct (p c) eqn:Hc; [|discriminate].
    intros [= <- <- <-]. apply lastCut_None in E. auto.
Qed.

Lemma hasByte_orb (p q : ascii -> bool) (s : string) :
  hasByte (fun c => p c || q c) s = hasByte p s || hasByte q s.
Proof.
  induction s as [|c s IH]; simpl; [reflexivity|]. rewrite IH.
  destruct (p c), (q c), (hasByte p s), (hasByte q s); reflexivity.
Qed.

(** [filepath.Split] cuts after the last separator. *)
Lemma Split_last (dir seg : string) :
  hasByte IsPathSeparator seg = false ->
  Split ((dir +:+ "/") +:+ seg) = (dir +:+ "/", seg).
Proof.
  intros Hseg. unfold Split.
  replace ((dir +:+ "/") +:+ seg) with (dir +:+ String "/"%char seg).
  - now rewrite (lastCut_app IsPathSeparator dir seg "/"%char eq_refl Hseg).
  - now rewrite app_assoc.
Qed.

Lemma Split_bare (seg : string) :
  hasByte IsPathSeparator seg = false -> Split seg = (EmptyString, seg).
Proof.
  intros Hseg. unfold Split. apply lastCut_None in Hseg. now rewrite Hseg.
Qed.

Lemma Split_sound (path dir file : string) :
  Split path = (dir, file) ->
  path = dir +:+ file /\ hasByte IsPathSeparator file = false.
Proof.
  unfold Split.
  destruct (lastCut IsPathSeparator path) as [[[a x] b]|] eqn:E.
  - intros [= <- <-]. apply lastCut_sound in E as (-> & _ & Hb).
    split; [|exact Hb].
    now rewrite app_assoc.
  - intros [= <- <-]. apply lastCut_None in E. auto.
Qed.

(** [filepath.Ext] of a path element. *)
Lemma Ext_dotless (seg : string) :
  hasByte isDot seg = false -> Ext seg = EmptyString.
Proof.
  intros Hdot. unfold Ext.
  destruct (lastCut _ seg) as [[[a x] b]|] eqn:E; [|reflexivity].
  destruct (isDot x) eqn:Hx; [|reflexivity].
  apply lastCut_sound in E as (-> & _ & _).
  exfalso. clear -Hdot Hx.
  induction a as [|c a IH]; simpl in Hdot.
  - now rewrite Hx in Hdot.
  - apply orb_false_elim in Hdot as [_ Hdot]. auto.
Qed.

Lemma Ext_last_dot (base e : string) :
  hasByte IsPathSeparator e = false -> hasByte isDot e = false ->
  Ext (base +:+ String "."%char e) = String "."%char e.
Proof.
  intros Hsep Hdot. unfold Ext.
  rewrite (lastCut_app _ base e "."%char); [reflexivity|reflexivity|].
  now rewrite hasByte_orb, Hsep, Hdot.
Qed.

End PathFacts.

(** ** Rules of the program logic *)

Section Rules.
Context {A B : Type}.

Lemma triple_ret (P : world -> Prop) (a : A) (Q : ext A -> world -> Prop) :
  (forall w, P w -> Q (Ret a) w) -> triple P (mret a) Q.
Proof. intros H w Hw. exact (H w Hw). Qed.

Lemma triple_panic (P : world -> Prop) (p : panicValue)
  (Q : ext A -> world -> Prop) :
  (forall w, P w -> Q (Raise p) w) -> triple P (panic p) Q.
Proof. intros H w Hw. exact (H w Hw). Qed.

Lemma triple_bind (P : world -> Prop) (m : M A) (f : A -> M B)
  (Q : ext A -> world -> Prop) (R : ext B -> world -> Prop) :
  triple P m Q ->
  (forall a, triple (Q (Ret a)) (f a) R) ->
  (forall p w, Q (Raise p) w -> R (Raise p) w) ->
  triple P (m ≫= f) R.
Proof.
  intros Hm Hf Hp w Hw. specialize (Hm w Hw).
  unfold mbind, M_bind. destruct (m w) as [[a|p] w1]; simpl in *.
  - exact (Hf a w1 Hm).
  - exact (Hp p w1 Hm).
Qed.

Lemma triple_weaken (P P' : world -> Prop) (m : M A)
  (Q Q' : ext A -> world -> Prop) :
  triple P' m Q' ->
  (forall w, P w -> P' w) -> (forall r w, Q' r w -> Q r w) ->
  triple P m Q.
Proof. intros Hm HP HQ w Hw. apply HQ, Hm, HP, Hw. Qed.

Lemma triple_defer (P : world -> Prop) (cleanup : world -> world) (m : M A)
  (Q R : ext A -> world -> Prop) :
  triple P m Q ->
  (forall r w, Q r w -> R r (cleanup w)) ->
  triple P (defer cleanup m) R.
Proof.
  intros Hm Hc w Hw. specialize (Hm w Hw). unfold defer.
  destruct (m w) as [r w1]; simpl in *. exact (Hc r w1 Hm).
Qed.

Lemma inv_bind (I : world -> Prop) (m : M A) (f : A -> M B) :
  inv I m -> (forall a, inv I (f a)) -> inv I (m ≫= f).
Proof.
  intros Hm Hf. apply (triple_bind I m f (fun _ => I)); auto.
Qed.

Lemma inv_ret (I : world -> Prop) (a : A) : inv I (mret a).
Proof. now apply triple_ret. Qed.

Lemma inv_panic (I : world -> Prop) (p : panicValue) : inv I (@panic A p).
Proof. now apply triple_panic. Qed.

Lemma inv_panic_error (I : world -> Prop) (err : error) :
  inv I (@panic_error A err).
Proof. apply inv_panic. Qed.

Lemma inv_defer (I : world -> Prop) (cleanup : world -> world) (m : M A) :
  (forall w, I w -> I (cleanup w)) -> inv I m -> inv I (defer cleanup m).
Proof. intros Hc Hm. apply (triple_defer I cleanup m (fun _ => I)); auto. Qed.

Lemma inv_deferWhen (I : world -> Prop) (b : bool) (cleanup : world -> world)
  (m : M A) :
  (forall w, I w -> I (cleanup w)) -> inv I m -> inv I (deferWhen b cleanup m).
Proof. intros Hc Hm. destruct b; simpl; [now apply inv_defer|exact Hm]. Qed.

Lemma inv_if (I : world -> Prop) (b : bool) (m1 m2 : M A) :
  inv I m1 -> inv I m2 -> inv I (if b then m1 else m2).
Proof. now destruct b. Qed.

Lemma total_ret (a : A) : total (mret a).
Proof. intros w. now exists a. Qed.

Lemma total_bind (m : M A) (f : A -> M B) :
  total m -> (forall a, total (f a)) -> total (m ≫= f).
Proof.
  intros Hm Hf w. destruct (Hm w) as [a Ha].
  unfold mbind, M_bind. destruct (m w) as [[a'|p] w1]; simpl in *;
    [|discriminate].
  apply Hf.
Qed.

Lemma total_if (b : bool) (m1 m2 : M A) :
  total m1 -> total m2 -> total (if b then m1 else m2).
Proof. now destruct b. Qed.

Lemma total_triple (P : world -> Prop) (m : M A)
  (Q : ext A -> world -> Prop) :
  total m -> (forall a w, Q (Ret a) w) -> triple P m Q.
Proof.
  intros Hm HQ w _. destruct (Hm w) as [a Ha]. rewrite Ha. apply HQ.
Qed.
End Rules.

Lemma inv_modify (I : world -> Prop) (f : world -> world) :
  (forall w, I w -> I (f w)) -> inv I (modify f).
Proof. intros H w Hw. exact (H w Hw). Qed.

Lemma total_modify (f : world -> world) : total (modify f).
Proof. intros w. now exists tt. Qed.

Lemma total_defer {A : Type} (cleanup : world -> world) (m : M A) :
  total m -> total (defer cleanup m).
Proof.
  intros Hm w. destruct (Hm w) as [a Ha]. unfold defer.
  destruct (m w) as [r w1]; simpl in *. now exists a.
Qed.

Lemma leads_inv {A : Type} (I : world -> Prop) (m : M A) : inv I m -> leads I m I.
Proof. exact id. Qed.

Lemma leads_weaken {A : Type} (P P' Q Q' : world -> Prop) (m : M A) :
  leads P' m Q' -> (forall w, P w -> P' w) -> (forall w, Q' w -> Q w) ->
  leads P m Q.
Proof. intros Hm HP HQ. apply (triple_weaken _ P' _ _ (fun _ => Q')); auto. Qed.

Lemma leads_bind {A B : Type} (P Q R : world -> Prop) (m : M A) (f : A -> M B) :
  total m -> leads P m Q -> (forall a, leads Q (f a) R) -> leads P (m ≫= f) R.
Proof.
  intros Ht Hm Hf w Hw. specialize (Hm w Hw). destruct (Ht w) as [a Ha].
  unfold mbind, M_bind. destruct (m w) as [[a'|p] w1]; simpl in *;
    [|discriminate].
  exact (Hf a' w1 Hm).
Qed.

Lemma leads_defer {A : Type} (P Q R : world -> Prop) (cleanup : world -> world)
  (m : M A) :
  leads P m Q -> (forall w, Q w -> R (cleanup w)) -> leads P (defer cleanup m) R.
Proof. intros Hm Hc. apply (triple_defer _ _ _ (fun _ => Q)); auto. Qed.

Lemma leads_deferWhen {A : Type} (P Q : world -> Prop) (b : bool)
  (cleanup : world -> world) (m : M A) :
  leads P m Q -> (forall w, Q w -> Q (cleanup w)) ->
  leads P (deferWhen b cleanup m) Q.
Proof.
  intros Hm Hc. destruct b; simpl; [|exact Hm]. now apply (leads_defer P Q Q).
Qed.

Lemma leads_panic {A : Type} (P : world -> Prop) (p : panicValue) :
  leads P (@panic A p) P.
Proof. apply leads_inv, inv_panic. Qed.

Lemma inv_or {A : Type} (I J : world -> Prop) (m : M A) :
  inv I m -> inv J m -> inv (fun w => I w \/ J w) m.
Proof. intros HI HJ w [H|H]; [left; exact (HI w H)|right; exact (HJ w H)]. Qed.

(** ** Automation, and the channel operations of a run *)

Lemma inv_gets {A : Type} (I : world -> Prop) (f : world -> A) : inv I (gets f).
Proof. intros w Hw. exact Hw. Qed.

Lemma total_gets {A : Type} (f : world -> A) : total (gets f).
Proof. intros w. now exists (f w). Qed.

Lemma inv_intro {A : Type} (I : world -> Prop) (m : M A) :
  inv I m -> triple I m (fun _ w => I w).
Proof. exact id. Qed.

Ltac head_of t :=
  lazymatch t with
  | ?f _ => head_of f
  | _ => t
  end.

(** Decompose a goal [inv I m] along the structure of [m]; the goals left
    are the steps [forall w, I w -> I (f w)] of the updates of the world. *)
Ltac inv_go :=
  cbv beta;
  lazymatch goal with
  | |- inv _ (mret _) => apply inv_ret
  | |- inv _ (panic _) => apply inv_panic
  | |- inv _ (panic_error _) => apply inv_panic_error
  | |- inv _ (gets _) => apply inv_gets
  | |- inv _ (modify _) => apply inv_modify
  | |- inv _ (_ ≫= _) => apply inv_bind; [inv_go | intros ?; inv_go]
  | |- inv _ (defer _ _) => apply inv_defer; [ | inv_go]
  | |- inv _ (deferWhen _ _ _) => apply inv_deferWhen; [ | inv_go]
  | |- inv _ (if _ then _ else _) => apply inv_if; inv_go
  | |- inv _ (match ?x with _ => _ end) => destruct x; inv_go
  | |- inv _ ?m =>
      first [ assumption
            | solve [auto]
            | let h := head_of m in unfold h; inv_go ]
  end.

Ltac total_go :=
  cbv beta;
  lazymatch goal with
  | |- total (mret _) => apply total_ret
  | |- total (gets _) => apply total_gets
  | |- total (modify _) => apply total_modify
  | |- total (_ ≫= _) => apply total_bind; [total_go | intros ?; total_go]
  | |- total (defer _ _) => apply total_defer; total_go
  | |- total (if _ then _ else _) => apply total_if; total_go
  | |- total (match ?x with _ => _ end) => destruct x; total_go
  | |- total ?m => let h := head_of m in unfold h; total_go
  end.

Lemma S_frame (w' w : world) : trace w' = trace w -> channelOps w' = channelOps w.
Proof. unfold channelOps, history. now intros ->. Qed.

Lemma S_event (w' w : world) (t : Z) (e : event) :
  trace w' = (t, e) :: trace w ->
  channelOps w' = channelOps w ++ match sync_of e with Some a => [a] | None => [] end.
Proof.
  unfold channelOps, history, syncs. intros ->. simpl.
  rewrite omap_app. simpl. now destruct (sync_of e).
Qed.

Lemma S_quiet (w' w : world) (t : Z) (e : event) :
  trace w' = (t, e) :: trace w -> sync_of e = None -> channelOps w' = channelOps w.
Proof. intros Ht He. rewrite (S_event w' w t e Ht), He. apply app_nil_r. Qed.

Lemma S_set_rw f w : channelOps (set_rw f w) = channelOps w.
Proof. reflexivity. Qed.
Lemma S_set_authHeaderMust v w : channelOps (set_authHeaderMust v w) = channelOps w.
Proof. reflexivity. Qed.
Lemma S_set_buffers p b w : channelOps (set_buffers p b w) = channelOps w.
Proof. reflexivity. Qed.
Lemma S_advance d w : channelOps (advance d w) = channelOps w.
Proof. reflexivity. Qed.
Lemma S_record e w : sync_of e = None -> channelOps (record_event e w) = channelOps w.
Proof. apply (S_quiet _ w (now w) e). reflexivity. Qed.

Lemma S_record_event e w :
  channelOps (record_event e w) =
  channelOps w ++ match sync_of e with Some a => [a] | None => [] end.
Proof. apply (S_event _ w (now w) e). reflexivity. Qed.

Ltac quiet_step :=
  intros ? ?; cbv beta in *;
  unfold pool_Put, set_borrowed, unlock, timeoutCancel, downloadcancel,
    newRelicCancel;
  repeat case_match;
  rewrite ?S_set_rw, ?S_set_authHeaderMust, ?S_set_buffers, ?S_advance;
  repeat (rewrite S_record by reflexivity;
          rewrite ?S_set_rw, ?S_set_authHeaderMust, ?S_set_buffers, ?S_advance);
  try assumption.

Ltac quiet := inv_go; quiet_step.

Section Quiet.
Variable conf : config.
Variable env : package.

Lemma quiet_respondWithImage ctx reqID r data :
  quietly (respondWithImage conf env ctx reqID r data).
Proof. intros k. quiet. Qed.

Lemma quiet_respondWithError reqID err : quietly (respondWithError reqID err).
Proof. intros k. quiet. Qed.

Lemma quiet_process ctx reqID r : quietly (process conf env ctx reqID r).
Proof. intros k. quiet. Qed.

Lemma quiet_validate ctx reqID r :
  quietly (validate conf env ctx reqID r (process conf env ctx reqID r)).
Proof. intros k. quiet. Qed.

Lemma quiet_checkSecret r : quietly (checkSecret conf r).
Proof. intros k. quiet. Qed.

(** [admitted] sends once and receives once, however it ends. *)
Lemma admitted_syncs ctx reqID r k :
  triple (fun w => channelOps w = k) (admitted conf env ctx reqID r)
         (fun _ w => channelOps w = k ++ [Acquire; Release]).
Proof.
  unfold admitted.
  apply (triple_bind _ _ _ (fun res w => res = Ret tt /\ channelOps w = k ++ [Acquire])).
  - intros w Hw. unfold lock, emit, modify. simpl.
    now rewrite S_record_event, Hw.
  - intros u.
    apply (triple_defer _ _ _ (fun _ w => channelOps w = k ++ [Acquire])).
    + apply (triple_weaken _ (fun w => channelOps w = k ++ [Acquire]) _ _
                           (fun _ w => channelOps w = k ++ [Acquire]));
        [|now intros w [_ Hw]|auto].
      apply (inv_intro (fun w => channelOps w = k ++ [Acquire])). quiet.
    + intros _ w Hw. unfold unlock.
      rewrite S_record_event, Hw. simpl.
      now rewrite <- app_assoc.
  - intros p w [Hp _]. discriminate.
Qed.

Lemma observed_syncs reqID r k :
  leads (fun w => channelOps w = k) (observed conf env reqID r)
        (fun w => channelOps w = k ++ [Acquire; Release]).
Proof.
  unfold observed.
  apply (leads_bind _ (fun w => channelOps w = k)); [total_go| |intros ctx].
  { apply leads_inv. quiet. }
  apply leads_deferWhen; [|quiet_step].
  apply (leads_bind _ (fun w => channelOps w = k)); [total_go| |intros u].
  { apply leads_inv. quiet. }
  apply leads_deferWhen; [|quiet_step].
  apply admitted_syncs.
Qed.

Lemma handle_syncs reqID r :
  leads (fun w => channelOps w = []) (handle conf env reqID r)
        (fun w => channelOps w = [] \/ channelOps w = [Acquire; Release]).
Proof.
  unfold handle.
  apply (leads_bind _ (fun w => channelOps w = [])); [total_go| |intros u].
  { apply leads_inv. quiet. }
  apply (leads_bind _ (fun w => channelOps w = [])); [total_go| |intros u'].
  { apply leads_inv. quiet. }
  destruct (String.eqb (Method r) MethodOptions).
  { apply (leads_weaken _ (fun w => channelOps w = []) _ (fun w => channelOps w = [])); auto.
    apply leads_inv. quiet. }
  destruct (negb (String.eqb (Method r) MethodGet)).
  { apply (leads_weaken _ (fun w => channelOps w = []) _ (fun w => channelOps w = [])); auto.
    apply leads_panic. }
  apply (leads_bind _ (fun w => channelOps w = [])); [total_go| |intros ok].
  { apply leads_inv, quiet_checkSecret. }
  destruct (negb ok).
  { apply (leads_weaken _ (fun w => channelOps w = []) _ (fun w => channelOps w = [])); auto.
    apply leads_panic. }
  unfold served.
  destruct (String.eqb (RequestURI (ReqURL r)) healthPath).
  { apply (leads_weaken _ (fun w => channelOps w = []) _ (fun w => channelOps w = [])); auto.
    apply leads_inv. quiet. }
  apply (leads_weaken _ (fun w => channelOps w = []) _
                      (fun w => channelOps w = [] ++ [Acquire; Release])); auto.
  apply observed_syncs.
Qed.

(** The deferred function of [ServeHTTP] keeps what its body and its own
    response keep. *)
Lemma recovered_leads (P Q : world -> Prop) reqID r body :
  leads P body Q ->
  (forall err, inv Q (reportError err r)) ->
  (forall e, inv Q (respondWithError reqID e)) ->
  leads P (recovered env reqID r body) Q.
Proof.
  intros Hbody Hreport Hrespond w Hw. specialize (Hbody w Hw).
  unfold recovered, settle. destruct (body w) as [[u|[err|v]] w1]; simpl in *; auto.
  assert (Hi : inv Q (reportError err r;;
                      match err with
                      | ErrImgproxy ierr => respondWithError reqID ierr
                      | _ => respondWithError reqID (newUnexpectedError env err 4)
                      end)).
  { apply inv_bind; [apply Hreport|]. intros _. destruct err; apply Hrespond. }
  exact (Hi w1 Hbody).
Qed.

(** Every run of [ServeHTTP] sends on the channel at most once, and then
    receives from it once before it ends, by return or by panic. *)
Lemma ServeHTTP_syncs r w :
  trace w = [] ->
  syncs (events_of (ServeHTTP conf env r w)) = [] \/
  syncs (events_of (ServeHTTP conf env r w)) = [Acquire; Release].
Proof.
  intros Ht.
  apply (recovered_leads (fun w => channelOps w = [])
           (fun w => channelOps w = [] \/ channelOps w = [Acquire; Release])
           (Nanoid env) r (handle conf env (Nanoid env) r)).
  - apply handle_syncs.
  - intros err. apply inv_or; quiet.
  - intros e. apply inv_or; apply quiet_respondWithError.
  - unfold channelOps, history. now rewrite Ht.
Qed.
End Quiet.

(** ** Symbolic execution *)

(** Symbolic execution of the handler: unfold the pipeline up to a stage
    and compute. [exec0] stops before [validate], [exec1] before [process],
    [exec2] before [respondWithImage]; [exec] runs everything. *)
Ltac exec0 :=
  cbv [ServeHTTP recovered settle unwind unwound handle served entered passed observed admitted
       respondWithOptions checkSecret prepareAuthHeaderMust writeCORS
       lock unlock startTimer timeoutCancel collaborate
       parsePath downloadImage downloadcancel
       startNewRelicTransaction newRelicCancel sendErrorToNewRelic
       incrementPrometheusErrorsTotal reportStageError
       mbind M_bind mret M_ret panic panic_error modify gets emit time_Now defer deferWhen
       Header_set WriteHeader Write logResponse reportError respondWithError
       set_rw set_authHeaderMust set_buffers advance record_event
       rw authHeaderMust responseBufPool borrowed now trace
       status_of body_of sent_of events_of responds_error fst snd negb andb
       getProcessingOptions getImageURL getImageData withTimer withParsed
       withImageData ctxDeadline ctxTimerSince ctxOptions ctxImageURL ctxImageData
       timedContext parsedContext loadedContext downloadTime context_Background].

Ltac exec0_in H :=
  cbv [ServeHTTP recovered settle unwind unwound handle served entered passed observed admitted
       respondWithOptions checkSecret prepareAuthHeaderMust writeCORS
       lock unlock startTimer timeoutCancel collaborate
       parsePath downloadImage downloadcancel
       startNewRelicTransaction newRelicCancel sendErrorToNewRelic
       incrementPrometheusErrorsTotal reportStageError
       mbind M_bind mret M_ret panic panic_error modify gets emit time_Now defer deferWhen
       Header_set WriteHeader Write logResponse reportError respondWithError
       set_rw set_authHeaderMust set_buffers advance record_event
       rw authHeaderMust responseBufPool borrowed now trace
       status_of body_of sent_of events_of responds_error fst snd negb andb
       getProcessingOptions getImageURL getImageData withTimer withParsed
       withImageData ctxDeadline ctxTimerSince ctxOptions ctxImageURL ctxImageData
       timedContext parsedContext loadedContext downloadTime context_Background] in H.

Ltac exec1 :=
  cbv [ServeHTTP recovered settle unwind unwound handle served entered passed observed admitted
       respondWithOptions checkSecret prepareAuthHeaderMust writeCORS
       lock unlock startTimer timeoutCancel collaborate
       parsePath downloadImage downloadcancel
       startNewRelicTransaction newRelicCancel sendErrorToNewRelic
       incrementPrometheusErrorsTotal reportStageError
       validate checkTimeout calcETag respondWithNotModified
       mbind M_bind mret M_ret panic panic_error modify gets emit time_Now defer deferWhen
       Header_set WriteHeader Write logResponse reportError respondWithError
       set_rw set_authHeaderMust set_buffers advance record_event
       rw authHeaderMust responseBufPool borrowed now trace
       status_of body_of sent_of events_of responds_error fst snd negb andb
       getProcessingOptions getImageURL getImageData withTimer withParsed
       withImageData ctxDeadline ctxTimerSince ctxOptions ctxImageURL ctxImageData
       timedContext parsedContext loadedContext downloadTime context_Background].

Ltac exec1_in H :=
  cbv [ServeHTTP recovered settle unwind unwound handle served entered passed observed admitted
       respondWithOptions checkSecret prepareAuthHeaderMust writeCORS
       lock unlock startTimer timeoutCancel collaborate
       parsePath downloadImage downloadcancel
       startNewRelicTransaction newRelicCancel sendErrorToNewRelic
       incrementPrometheusErrorsTotal reportStageError
       validate checkTimeout calcETag respondWithNotModified
       mbind M_bind mret M_ret panic panic_error modify gets emit time_Now defer deferWhen
       Header_set WriteHeader Write logResponse reportError respondWithError
       set_rw set_authHeaderMust set_buffers advance record_event
       rw authHeaderMust responseBufPool borrowed now trace
       status_of body_of sent_of events_of responds_error fst snd negb andb
       getProcessingOptions getImageURL getImageData withTimer withParsed
       withImageData ctxDeadline ctxTimerSince ctxOptions ctxImageURL ctxImageData
       timedContext parsedContext loadedContext downloadTime context_Background] in H.

Ltac exec2 :=
  cbv [ServeHTTP recovered settle unwind unwound handle served entered passed observed admitted
       respondWithOptions checkSecret prepareAuthHeaderMust writeCORS
       lock unlock startTimer timeoutCancel collaborate
       parsePath downloadImage downloadcancel
       startNewRelicTransaction newRelicCancel sendErrorToNewRelic
       incrementPrometheusErrorsTotal reportStageError
       validate checkTimeout calcETag respondWithNotModified
       process processImage
       mbind M_bind mret M_ret panic panic_error modify gets emit time_Now defer deferWhen
       Header_set WriteHeader Write logResponse reportError respondWithError
       set_rw set_authHeaderMust set_buffers advance record_event
       rw authHeaderMust responseBufPool borrowed now trace
       status_of body_of sent_of events_of responds_error fst snd negb andb
       getProcessingOptions getImageURL getImageData withTimer withParsed
       withImageData ctxDeadline ctxTimerSince ctxOptions ctxImageURL ctxImageData
       timedContext parsedContext loadedContext downloadTime context_Background].

Ltac exec2_in H :=
  cbv [ServeHTTP recovered settle unwind unwound handle served entered passed observed admitted
       respondWithOptions checkSecret prepareAuthHeaderMust writeCORS
       lock unlock startTimer timeoutCancel collaborate
       parsePath downloadImage downloadcancel
       startNewRelicTransaction newRelicCancel sendErrorToNewRelic
       incrementPrometheusErrorsTotal reportStageError
       validate checkTimeout calcETag respondWithNotModified
       process processImage
       mbind M_bind mret M_ret panic panic_error modify gets emit time_Now defer deferWhen
       Header_set WriteHeader Write logResponse reportError respondWithError
       set_rw set_authHeaderMust set_buffers advance record_event
       rw authHeaderMust responseBufPool borrowed now trace
       status_of body_of sent_of events_of responds_error fst snd negb andb
       getProcessingOptions getImageURL getImageData withTimer withParsed
       withImageData ctxDeadline ctxTimerSince ctxOptions ctxImageURL ctxImageData
       timedContext parsedContext loadedContext downloadTime context_Background] in H.

Ltac exec :=
  cbv [ServeHTTP recovered settle unwind unwound handle served entered passed observed admitted
       respondWithOptions checkSecret prepareAuthHeaderMust writeCORS
       lock unlock startTimer timeoutCancel collaborate
       parsePath downloadImage downloadcancel
       startNewRelicTransaction newRelicCancel sendErrorToNewRelic
       incrementPrometheusErrorsTotal reportStageError
       validate checkTimeout calcETag respondWithNotModified
       process processImage
       respondWithImage pool_Get pool_Put buf_Reset buf_Len buf_WriteTo gzipData
       buf_contents set_borrowed
       mbind M_bind mret M_ret panic panic_error modify gets emit time_Now defer deferWhen
       Header_set WriteHeader Write logResponse reportError respondWithError
       set_rw set_authHeaderMust set_buffers advance record_event
       rw authHeaderMust responseBufPool borrowed now trace
       status_of body_of sent_of events_of responds_error fst snd negb andb
       getProcessingOptions getImageURL getImageData withTimer withParsed
       withImageData ctxDeadline ctxTimerSince ctxOptions ctxImageURL ctxImageData
       timedContext parsedContext loadedContext downloadTime context_Background].

Ltac exec_in H :=
  cbv [ServeHTTP recovered settle unwind unwound handle served entered passed observed admitted
       respondWithOptions checkSecret prepareAuthHeaderMust writeCORS
       lock unlock startTimer timeoutCancel collaborate
       parsePath downloadImage downloadcancel
       startNewRelicTransaction newRelicCancel sendErrorToNewRelic
       incrementPrometheusErrorsTotal reportStageError
       validate checkTimeout calcETag respondWithNotModified
       process processImage
       respondWithImage pool_Get pool_Put buf_Reset buf_Len buf_WriteTo gzipData
       buf_contents set_borrowed
       mbind M_bind mret M_ret panic panic_error modify gets emit time_Now defer deferWhen
       Header_set WriteHeader Write logResponse reportError respondWithError
       set_rw set_authHeaderMust set_buffers advance record_event
       rw authHeaderMust responseBufPool borrowed now trace
       status_of body_of sent_of events_of responds_error fst snd negb andb
       getProcessingOptions getImageURL getImageData withTimer withParsed
       withImageData ctxDeadline ctxTimerSince ctxOptions ctxImageURL ctxImageData
       timedContext parsedContext loadedContext downloadTime context_Background] in H.

(** ** The gates before admission *)

Section GateProofs.
#[local] Arguments String.append !_ _ / : simpl nomatch.

Lemma append_empty_r (s : string) : s +:+ EmptyString = s.
Proof. induction s as [|c s IH]; simpl; [reflexivity|now rewrite IH]. Qed.

Lemma Sprintf_bearer (secret : string) :
  Go.Sprintf "Bearer %s" (Some secret) = "Bearer " +:+ secret.
Proof. simpl. now rewrite append_empty_r. Qed.

Lemma len_zero (s : string) : (Go.len s =? 0) = true <-> s = EmptyString.
Proof.
  unfold Go.len. destruct s; simpl; [tauto|]. split; discriminate.
Qed.

Lemma len_bearer (secret : string) : (Go.len ("Bearer " +:+ secret) =? 0) = false.
Proof. apply Z.eqb_neq. unfold Go.len. simpl. lia. Qed.

(** The auth gate: from a world where [authHeaderMust] is empty or built,
    [checkSecret] answers whether the request is authorized, and leaves
    everything but [authHeaderMust] as it was. *)
Lemma checkSecret_decides conf r w :
  authHeaderMust w = EmptyString \/
  authHeaderMust w = "Bearer " +:+ Secret conf ->
  exists b auth',
    checkSecret conf r w =
      (Ret b, set_authHeaderMust auth' w) /\
    (b = true <-> authorized conf r) /\
    (auth' = EmptyString \/ auth' = "Bearer " +:+ Secret conf).
Proof.
  intros Hauth. unfold authorized.
  destruct w as [rw0 auth pool bor t0 tr]; cbn [authHeaderMust] in Hauth.
  destruct (Go.len (Secret conf) =? 0) eqn:Hs.
  - exists true, auth. apply len_zero in Hs.
    split; [exec; apply len_zero in Hs; now rewrite Hs|].
    split; [tauto|exact Hauth].
  - assert (Hne : Secret conf <> EmptyString).
    { intros H. apply len_zero in H. congruence. }
    exists (Go.ConstantTimeCompare (Header_Get (ReqHeader r) "Authorization")
              ("Bearer " +:+ Secret conf) =? 1), ("Bearer " +:+ Secret conf).
    split; [|split; [|now right]].
    + exec. rewrite Hs. exec. rewrite Sprintf_bearer.
      destruct Hauth as [-> | ->].
      * reflexivity.
      * now rewrite len_bearer.
    + rewrite GoFacts.ConstantTimeCompare_bit. tauto.
Qed.

Lemma eqb_false_of_ne (a b : string) : a <> b -> String.eqb a b = false.
Proof. apply String.eqb_neq. Qed.

(** A request that passes the method check and the auth gate goes on to
    [served], in a world where only the request line is logged and the
    CORS headers are written. *)
Lemma handle_authorized conf env reqID r w :
  starts conf w -> Method r = MethodGet -> authorized conf r ->
  exists auth',
    (auth' = EmptyString \/ auth' = "Bearer " +:+ Secret conf) /\
    handle conf env reqID r w =
    served conf env reqID r
      {| rw := corsWriter conf; authHeaderMust := auth';
         responseBufPool := responseBufPool w; borrowed := None;
         now := now w; trace := [(now w, EvLogRequest)] |}.
Proof.
  intros (Hrw & Hb & Ht & Ha) Hget Hauth.
  destruct w as [rw0 auth pool bor t0 tr]; cbn [rw borrowed trace authHeaderMust] in *.
  subst rw0 bor tr.
  destruct (checkSecret_decides conf r
              {| rw := corsWriter conf; authHeaderMust := auth;
                 responseBufPool := pool; borrowed := None; now := t0;
                 trace := [(t0, EvLogRequest)] |} Ha)
    as (b & auth' & Hcheck & Hb & Ha').
  apply Hb in Hauth. subst b.
  exists auth'. split; [exact Ha'|].
  unfold handle. rewrite Hget.
  change (String.eqb MethodGet MethodOptions) with false.
  change (negb (String.eqb MethodGet MethodGet)) with false.
  cbv [mbind M_bind emit modify writeCORS Header_set mret M_ret].
  unfold corsWriter in *.
  destruct (0 <? Go.len (AllowOrigin conf)); cbv [record_event set_rw rw now trace
    authHeaderMust responseBufPool borrowed] in *; rewrite Hcheck; reflexivity.
Qed.

Lemma handle_unauthorized conf env reqID r w :
  starts conf w -> Method r = MethodGet -> ~ authorized conf r ->
  exists auth',
    handle conf env reqID r w =
    (Raise (PanicError (ErrImgproxy errInvalidSecret)),
      {| rw := corsWriter conf; authHeaderMust := auth';
         responseBufPool := responseBufPool w; borrowed := None;
         now := now w; trace := [(now w, EvLogRequest)] |}).
Proof.
  intros (Hrw & Hb & Ht & Ha) Hget Hauth.
  destruct w as [rw0 auth pool bor t0 tr]; cbn [rw borrowed trace authHeaderMust] in *.
  subst rw0 bor tr.
  destruct (checkSecret_decides conf r
              {| rw := corsWriter conf; authHeaderMust := auth;
                 responseBufPool := pool; borrowed := None; now := t0;
                 trace := [(t0, EvLogRequest)] |} Ha)
    as (b & auth' & Hcheck & Hb & Ha').
  destruct b; [elim Hauth; now apply Hb|].
  exists auth'.
  unfold handle. rewrite Hget.
  change (String.eqb MethodGet MethodOptions) with false.
  change (negb (String.eqb MethodGet MethodGet)) with false.
  cbv [mbind M_bind emit modify writeCORS Header_set mret M_ret].
  unfold corsWriter in *.
  destruct (0 <? Go.len (AllowOrigin conf)); cbv [record_event set_rw rw now trace
    authHeaderMust responseBufPool borrowed] in *; rewrite Hcheck; reflexivity.
Qed.

Lemma handle_get conf env reqID r w :
  Method r = MethodGet ->
  handle conf env reqID r w =
  (ok ← checkSecret conf r;
   if negb ok then panic_error (ErrImgproxy errInvalidSecret)
   else served conf env reqID r) (entered conf w).
Proof.
  intros Hget. unfold handle, entered. rewrite Hget.
  change (String.eqb MethodGet MethodOptions) with false.
  change (negb (String.eqb MethodGet MethodGet)) with false.
  cbv [emit modify writeCORS Header_set].
  destruct (0 <? Go.len (AllowOrigin conf)); reflexivity.
Qed.

Lemma entered_authHeaderMust conf w :
  authHeaderMust (entered conf w) = authHeaderMust w.
Proof.
  unfold entered. cbv [emit modify writeCORS Header_set].
  destruct (0 <? Go.len (AllowOrigin conf)); reflexivity.
Qed.

(** Resolve the comparison of a deadline check with the hypotheses on the
    time spent: the deadline has passed, or it has not. *)

End GateProofs.

Ltac late :=
  match goal with
  | |- context [?a <=? ?b] =>
      let H := fresh in
      assert (H : (a <=? b) = true) by (apply Z.leb_le; lia);
      rewrite H; clear H
  end.

Ltac in_time :=
  match goal with
  | |- context [?a <=? ?b] =>
      let H := fresh in
      assert (H : (a <=? b) = false) by (apply Z.leb_gt; lia);
      rewrite H; clear H
  end.

Ltac same_string :=
  match goal with
  | |- context [String.eqb ?a ?a] => rewrite (String.eqb_refl a)
  end.

Ltac admitted_run Hstart Hadm :=
  cbv zeta;
  let auth' := fresh "auth'" in
  let Hhandle := fresh "Hhandle" in
  let Hget := fresh "Hget" in
  let Hauth := fresh "Hauth" in
  let Huri := fresh "Huri" in
  destruct Hadm as (Hget & Hauth & Huri);
  lazymatch goal with
  | |- context [ServeHTTP ?conf ?env ?r ?w] =>
      destruct (handle_authorized conf env (Nanoid env) r w Hstart Hget Hauth)
        as (auth' & _ & Hhandle)
  end;
  unfold ServeHTTP, recovered; rewrite Hhandle; unfold served;
  rewrite (eqb_false_of_ne _ _ Huri); clear Hhandle.

(** ** The response encoder *)

Section EncoderProofs.
#[local] Arguments String.append !_ _ / : simpl nomatch.

Section Respond.
Variable conf : config.
Variable env : package.

(** [respondWithImage] without compression, on a writer that has not
    written yet. *)
Lemma respondWithImage_raw ctx reqID r data w :
  rwStatus (rw w) = None ->
  gzipAccepted conf r = false ->
  respondWithImage conf env ctx reqID r data w =
  (Ret tt,
   {| rw := imageResponse
              (Header_Set (imageHeaders conf env ctx (now w) (rwHeader (rw w)))
                          "Content-Length" (Go.Itoa (Go.len data)))
              (rwBody (rw w) +:+ data);
      authHeaderMust := authHeaderMust w;
      responseBufPool := responseBufPool w;
      borrowed := borrowed w;
      now := now w;
      trace := (now w, EvLogResponse 32 200)
               :: (now w, EvRespondWithImage) :: trace w |}).
Proof.
  intros Hs Hgz. unfold gzipAccepted in Hgz.
  destruct w as [[h st sent body] auth pool bor t0 tr]. simpl in Hs. subst st.
  unfold respondWithImage. rewrite Hgz. reflexivity.
Qed.

(** [respondWithImage] with compression: the buffer taken from the pool
    is emptied, filled with the compressed bytes, written out and put
    back, whatever it held before. *)
Lemma respondWithImage_gzip ctx reqID r data z w :
  rwStatus (rw w) = None ->
  gzipAccepted conf r = true ->
  gzipData_impl env (GZipCompression conf) data = Ret z ->
  respondWithImage conf env ctx reqID r data w =
  (Ret tt,
   {| rw := imageResponse
              (Header_Set
                 (Header_Set (imageHeaders conf env ctx (now w) (rwHeader (rw w)))
                             "Content-Encoding" "gzip")
                 "Content-Length" (Go.Itoa (Go.len z)))
              (rwBody (rw w) +:+ z);
      authHeaderMust := authHeaderMust w;
      responseBufPool := EmptyString :: tail (responseBufPool w);
      borrowed := None;
      now := now w;
      trace := (now w, EvPoolPut) :: (now w, EvLogResponse 32 200)
               :: (now w, EvGzipData) :: (now w, EvPoolGet)
               :: (now w, EvRespondWithImage) :: trace w |}).
Proof.
  intros Hs Hgz Hz. unfold gzipAccepted in Hgz.
  destruct w as [[h st sent body] auth pool bor t0 tr]. simpl in Hs. subst st.
  unfold respondWithImage. rewrite Hgz. unfold gzipData. rewrite Hz.
  destruct pool; reflexivity.
Qed.

(** When the compressor panics, the panic goes on after the buffer is
    put back, and nothing is written. *)
Lemma respondWithImage_gzip_panic ctx reqID r data p w :
  gzipAccepted conf r = true ->
  gzipData_impl env (GZipCompression conf) data = Raise p ->
  respondWithImage conf env ctx reqID r data w =
  (Raise p,
   {| rw := {| rwHeader := imageHeaders conf env ctx (now w) (rwHeader (rw w));
               rwStatus := rwStatus (rw w); rwSent := rwSent (rw w);
               rwBody := rwBody (rw w) |};
      authHeaderMust := authHeaderMust w;
      responseBufPool := EmptyString :: tail (responseBufPool w);
      borrowed := None;
      now := now w;
      trace := (now w, EvPoolPut) :: (now w, EvGzipData) :: (now w, EvPoolGet)
               :: (now w, EvRespondWithImage) :: trace w |}).
Proof.
  intros Hgz Hz. unfold gzipAccepted in Hgz.
  destruct w as [[h st sent body] auth pool bor t0 tr].
  unfold respondWithImage. rewrite Hgz. unfold gzipData. rewrite Hz.
  destruct pool; reflexivity.
Qed.
End Respond.

End EncoderProofs.

(** ** The stages of the pipeline *)

Section Stages.
Variable conf : config.
Variable env : package.

(** A deadline check that finds the deadline passed panics with the
    [Timeout] error and does nothing else. *)
Lemma checkTimeout_late ctx deadline w :
  ctxDeadline ctx = Some deadline -> deadline <= now w ->
  checkTimeout env ctx w =
  (Raise (PanicError (ErrImgproxy (errTimeout env))),
   record_event EvCheckTimeout w).
Proof.
  intros Hd Hlate. destruct w as [rw0 auth pool bor t0 tr]. cbn [now] in Hlate.
  destruct ctx as [d s o u i]; cbn [ctxDeadline] in Hd; subst d.
  exec1. late. reflexivity.
Qed.

Lemma checkTimeout_in_time ctx deadline w :
  ctxDeadline ctx = Some deadline -> now w < deadline ->
  checkTimeout env ctx w = (Ret tt, record_event EvCheckTimeout w).
Proof.
  intros Hd Hlate. destruct w as [rw0 auth pool bor t0 tr]. cbn [now] in Hlate.
  destruct ctx as [d s o u i]; cbn [ctxDeadline] in Hd; subst d.
  exec1. in_time. reflexivity.
Qed.

(** Cache validation with ETag support: the validator is computed and set
    before it is compared. *)
Lemma validate_enabled ctx reqID r rest deadline w :
  ctxDeadline ctx = Some deadline -> now w < deadline ->
  ETagEnabled conf = true ->
  validate conf env ctx reqID r rest w =
  (if String.eqb (eTagOf env ctx) (Header_Get (ReqHeader r) "If-None-Match")
   then respondWithNotModified reqID else rest)
    (validatedWorld conf env ctx w).
Proof.
  intros Hd Htime Hetag.
  unfold validate, validatedWorld, mbind, M_bind.
  rewrite (checkTimeout_in_time ctx deadline w Hd Htime), Hetag.
  reflexivity.
Qed.

(** Cache validation that ends the request: the validator matches. *)
Lemma validate_not_modified ctx reqID r rest deadline w :
  ctxDeadline ctx = Some deadline -> now w < deadline ->
  ETagEnabled conf = true ->
  Header_Get (ReqHeader r) "If-None-Match" = eTagOf env ctx ->
  validate conf env ctx reqID r rest w =
  (Ret tt,
   {| rw := rw_WriteHeader 304 (rw_SetHeader "ETag" (eTagOf env ctx) (rw w));
      authHeaderMust := authHeaderMust w;
      responseBufPool := responseBufPool w; borrowed := borrowed w;
      now := now w + calcETag_took env ctx;
      trace := (now w + calcETag_took env ctx, EvLogResponse 32 200)
               :: (now w, EvCalcETag) :: (now w, EvCheckTimeout)
               :: trace w |}).
Proof.
  intros Hd Htime Hetag Hinm.
  rewrite (validate_enabled ctx reqID r rest deadline w Hd Htime Hetag).
  rewrite Hinm, String.eqb_refl. unfold validatedWorld. rewrite Hetag.
  reflexivity.
Qed.

(** Cache validation that lets the request go on. *)
Lemma validate_passes ctx reqID r rest deadline w :
  ctxDeadline ctx = Some deadline -> now w < deadline ->
  (ETagEnabled conf = true ->
   Header_Get (ReqHeader r) "If-None-Match" <> eTagOf env ctx) ->
  validate conf env ctx reqID r rest w = rest (validatedWorld conf env ctx w).
Proof.
  intros Hd Htime Hinm.
  destruct (ETagEnabled conf) eqn:Hetag.
  - rewrite (validate_enabled ctx reqID r rest deadline w Hd Htime Hetag).
    replace (String.eqb _ _) with false; [reflexivity|].
    symmetry. apply String.eqb_neq. specialize (Hinm eq_refl). congruence.
  - unfold validate, validatedWorld, mbind, M_bind.
    rewrite (checkTimeout_in_time ctx deadline w Hd Htime), Hetag.
    reflexivity.
Qed.

(** Processing that succeeds in time hands its bytes to
    [respondWithImage]. *)
Lemma process_responds ctx reqID r out deadline w :
  ctxDeadline ctx = Some deadline -> now w < deadline ->
  result (processImage_impl env ctx) = Done out ->
  now w + took (processImage_impl env ctx) < deadline ->
  process conf env ctx reqID r w =
  respondWithImage conf env ctx reqID r out (processedWorld env ctx w).
Proof.
  intros Hd Htime Hout Htime'.
  unfold process, mbind, M_bind.
  rewrite (checkTimeout_in_time ctx deadline w Hd Htime).
  unfold processImage, collaborate, mbind, M_bind, emit, modify.
  rewrite Hout. cbn [mret M_ret].
  rewrite (checkTimeout_in_time ctx deadline); [reflexivity|exact Hd|exact Htime'].
Qed.
End Stages.

(** ** Reaching the stages *)

(** An admitted request whose source downloads reaches the first deadline
    check with nothing written but the CORS headers; what [ServeHTTP] does
    from there is [validate], then the deferred calls, then the deferred
    function. *)
Lemma ServeHTTP_validating conf env r w po url data :
  starts conf w ->
  downloaded conf env r w po url data ->
  exists auth',
    ServeHTTP conf env r w =
    settle env (Nanoid env) r
      (unwound env
         (validate conf env (loadedContext conf w po url data) (Nanoid env) r
            (process conf env (loadedContext conf w po url data) (Nanoid env) r)
            {| rw := corsWriter conf; authHeaderMust := auth';
               responseBufPool := responseBufPool w; borrowed := None;
               now := now w + downloadTime conf env r w po url;
               trace := admittedTrace env (now w)
                                      (took (parsePath_impl env r)) |})).
Proof.
  intros Hstart (Hadm & Hparse & Hdl).
  admitted_run Hstart Hadm. exists auth'.
  destruct w as [rw0 auth pool bor t0 tr].
  exec0_in Hdl. unfold admittedTrace, downloadTime, parsedContext, timedContext.
  cbn [now]. rewrite Z.add_assoc. exec0.
  destruct (newRelicEnabled env), (prometheusEnabled env);
    exec0; rewrite Hparse; exec0; rewrite Hdl; exec0; cbn [app];
    match goal with
    | |- context [validate ?a ?b ?c ?d ?e ?f ?W] =>
        destruct (validate a b c d e f W) as [res w1]
    end; reflexivity.
Qed.

Lemma corsWriter_unwritten conf :
  rwStatus (corsWriter conf) = None /\ rwBody (corsWriter conf) = EmptyString.
Proof. unfold corsWriter. destruct (0 <? _); split; reflexivity. Qed.

Lemma validatedWriter_unwritten conf env po data :
  rwStatus (validatedWriter conf env po data) = None /\
  rwBody (validatedWriter conf env po data) = EmptyString.
Proof.
  unfold validatedWriter, corsWriter.
  destruct (ETagEnabled conf), (0 <? _); split; reflexivity.
Qed.

(** The deferred calls leave the response, the pool and the clock alone. *)
Lemma unwind_frame env w :
  rw (unwind env w) = rw w /\
  responseBufPool (unwind env w) = responseBufPool w /\
  borrowed (unwind env w) = borrowed w /\
  now (unwind env w) = now w.
Proof.
  unfold unwind. destruct (prometheusEnabled env), (newRelicEnabled env);
    repeat split; reflexivity.
Qed.

Lemma rw_unwind env w : rw (unwind env w) = rw w.
Proof. apply unwind_frame. Qed.
Lemma pool_unwind env w : responseBufPool (unwind env w) = responseBufPool w.
Proof. apply unwind_frame. Qed.
Lemma borrowed_unwind env w : borrowed (unwind env w) = borrowed w.
Proof. apply unwind_frame. Qed.

(** The deferred function leaves the pool alone. *)
Lemma settle_pool env reqID r x :
  responseBufPool (snd (settle env reqID r x)) = responseBufPool (snd x) /\
  borrowed (snd (settle env reqID r x)) = borrowed (snd x).
Proof.
  destruct x as [[u|[[e|t]|v]] w]; destruct w; split; reflexivity.
Qed.

(** The deferred function on a recovered error, when nothing is written
    yet: the error is reported and answered. *)
Lemma settle_error env reqID r err w :
  rwStatus (rw w) = None ->
  settle env reqID r (Raise (PanicError err), w) =
  (Ret tt,
   {| rw := errorResponse (responded env err) (rw w);
      authHeaderMust := authHeaderMust w;
      responseBufPool := responseBufPool w; borrowed := borrowed w;
      now := now w;
      trace := (now w, EvLogResponse (logColor (StatusCode (responded env err)))
                                     (StatusCode (responded env err)))
               :: (now w, EvReportError err) :: trace w |}).
Proof.
  intros Hst. destruct w as [[h st sent body] a p b t tr].
  cbn [rw rwStatus] in Hst. subst st. destruct err; reflexivity.
Qed.

(** A request that reaches the response stage: what [ServeHTTP] does is
    [respondWithImage] on a writer that has written nothing, then the
    deferred calls, then the deferred function. *)
Lemma ServeHTTP_responding conf env r w po url data out :
  starts conf w ->
  responding conf env r w po url data out ->
  exists W,
    ServeHTTP conf env r w =
    settle env (Nanoid env) r
      (unwound env
         (respondWithImage conf env (loadedContext conf w po url data)
            (Nanoid env) r out W)) /\
    rw W = validatedWriter conf env po data /\
    responseBufPool W = responseBufPool w /\
    borrowed W = None /\
    now W = now w + respondTime conf env r w po url data.
Proof.
  intros Hstart (Hdl & Hinm & Hout & Ht1 & Ht2 & Ht3).
  unfold respondTime, validateTime in Ht2, Ht3.
  unfold respondTime, validateTime.
  destruct (ServeHTTP_validating conf env r w po url data Hstart Hdl)
    as (auth' & ->).
  set (ctx := loadedContext conf w po url data) in *.
  set (d := now w + seconds (WriteTimeout conf)).
  assert (Hd : ctxDeadline ctx = Some d) by reflexivity.
  assert (He : eTagOf env ctx = eTag_impl env data po) by reflexivity.
  clearbody ctx.
  rewrite (validate_passes conf env ctx _ _ _ d);
    [|exact Hd|cbn [now]; unfold d; lia|rewrite He; exact Hinm].
  revert Ht2 Ht3. unfold validatedWriter, processedWorld, validatedWorld.
  destruct (ETagEnabled conf); intros Ht2 Ht3.
  - rewrite (process_responds conf env ctx _ _ out d);
      [|exact Hd|cbn [now]; unfold d; lia|exact Hout|].
    2: { cbn [now]. unfold d. lia. }
    eexists. split; [reflexivity|].
    unfold processedWorld. cbn [rw responseBufPool borrowed now]. rewrite He.
    repeat split; try reflexivity. lia.
  - rewrite (process_responds conf env ctx _ _ out d);
      [|exact Hd|cbn [now record_event]; unfold d; lia|exact Hout
       |cbn [now record_event]; unfold d; lia].
    eexists. split; [reflexivity|].
    unfold processedWorld. cbn [rw responseBufPool borrowed now record_event].
    repeat split; try reflexivity. lia.
Qed.

(** ** The ETag header *)

Section Carries.
Variable key v : string.

Lemma carries_frame (w w' : world) :
  rw w' = rw w -> carries key v w -> carries key v w'.
Proof. unfold carries. now intros ->. Qed.

Lemma carries_SetHeader k x w :
  k <> key -> carries key v w -> carries key v (set_rw (rw_SetHeader k x) w).
Proof.
  intros Hk [Hh Hs]. unfold carries.
  destruct w as [[h st sent body] a p b t tr].
  cbn [rw rwHeader rwStatus rwSent set_rw rw_SetHeader] in *.
  unfold Header_Set. now rewrite lookup_insert_ne.
Qed.

Lemma carries_WriteHeader c w :
  carries key v w -> carries key v (set_rw (rw_WriteHeader c) w).
Proof.
  intros [Hh Hs]. unfold carries, rw_WriteHeader.
  destruct w as [[h st sent body] a p b t tr].
  cbn [rw rwHeader rwStatus rwSent set_rw] in *.
  destruct st; cbn [rw rwHeader rwStatus rwSent]; auto.
Qed.

Lemma carries_Write d w :
  carries key v w -> carries key v (set_rw (rw_Write d) w).
Proof.
  intros [Hh Hs]. unfold carries, rw_Write, rw_WriteHeader.
  destruct w as [[h st sent body] a p b t tr].
  cbn [rw rwHeader rwStatus rwSent set_rw] in *.
  destruct st; cbn [rw rwHeader rwStatus rwSent]; auto.
Qed.
End Carries.

Ltac carries_step :=
  intros ? ?; cbv beta in *;
  unfold pool_Put, set_borrowed, unlock, timeoutCancel, downloadcancel,
    newRelicCancel;
  repeat case_match;
  first
    [ assumption
    | apply carries_WriteHeader; assumption
    | apply carries_Write; assumption
    | apply carries_SetHeader; [discriminate|assumption]
    | eapply carries_frame; [|eassumption]; reflexivity ].

Section Kept.
Variable conf : config.
Variable env : package.
Variable v : string.

Lemma carries_respondWithError reqID e :
  inv (carries "ETag" v) (respondWithError reqID e).
Proof. inv_go; carries_step. Qed.

Lemma carries_process ctx reqID r :
  inv (carries "ETag" v) (process conf env ctx reqID r).
Proof. inv_go; carries_step. Qed.

Lemma carries_respondWithNotModified reqID :
  inv (carries "ETag" v) (respondWithNotModified reqID).
Proof. inv_go; carries_step. Qed.

Lemma carries_unwind w : carries "ETag" v w -> carries "ETag" v (unwind env w).
Proof.
  unfold unwind. intros H.
  destruct (prometheusEnabled env), (newRelicEnabled env);
    (eapply carries_frame; [|exact H]); reflexivity.
Qed.

Lemma carries_settle reqID r x :
  carries "ETag" v (snd x) -> carries "ETag" v (snd (settle env reqID r x)).
Proof.
  destruct x as [[u|[err|p]] w]; simpl; auto.
  intros H.
  assert (Hi : inv (carries "ETag" v)
                 (reportError err r;;
                  match err with
                  | ErrImgproxy ierr => respondWithError reqID ierr
                  | _ => respondWithError reqID (newUnexpectedError env err 4)
                  end)).
  { apply inv_bind; [inv_go; carries_step|].
    intros _. destruct err; apply carries_respondWithError. }
  exact (Hi w H).
Qed.
End Kept.

(** Once the validator is set, every way out of [ServeHTTP] leaves it on
    the response. *)
Lemma etag_kept conf env r w po url data :
  starts conf w ->
  downloaded conf env r w po url data ->
  downloadTime conf env r w po url < seconds (WriteTimeout conf) ->
  ETagEnabled conf = true ->
  carries "ETag" (eTag_impl env data po) (snd (ServeHTTP conf env r w)).
Proof.
  intros Hstart Hdl Htime Hetag.
  destruct (ServeHTTP_validating conf env r w po url data Hstart Hdl)
    as (auth' & ->).
  apply carries_settle. unfold unwound. cbn [snd]. apply carries_unwind.
  rewrite (validate_enabled conf env _ _ _ _ (now w + seconds (WriteTimeout conf)));
    [|reflexivity|cbn [now]; lia|exact Hetag].
  match goal with
  | |- carries _ _ (snd (?m ?W)) =>
      assert (Hi : inv (carries "ETag" (eTag_impl env data po)) m)
        by (apply inv_if; [apply carries_respondWithNotModified
                          |apply carries_process]);
      apply (Hi W)
  end.
  unfold validatedWorld. rewrite Hetag. unfold carries.
  cbn [rw rwHeader rwStatus rwSent rw_SetHeader].
  unfold Header_Set. rewrite lookup_insert_eq.
  split; [reflexivity|left; apply corsWriter_unwritten].
Qed.

(** ** The responses *)

Section ResponseProofs.
#[local] Arguments String.append !_ _ / : simpl nomatch.

(** C10. With ETag support on, for a request that is admitted and whose
    download succeeds before the deadline, whatever happens afterwards: the
    ETag header of the response is set to the validator, and if a status
    line is written, by the 304 response, the 200 response or an error
    response, the header went out with it. *)
Theorem etag_on_every_response (conf : config) (env : package) (r : Request)
  (w : world) (po : processingOptions) (url data : string) :
  starts conf w ->
  downloaded conf env r w po url data ->
  downloadTime conf env r w po url < seconds (WriteTimeout conf) ->
  ETagEnabled conf = true ->
  let x := ServeHTTP conf env r w in
  rwHeader (rw (snd x)) !! "ETag" = Some [eTag_impl env data po] /\
  (forall s, status_of x = Some s ->
             sent_of x "ETag" = Some [eTag_impl env data po]).
Proof.
  intros Hstart Hdl Htime Hetag x.
  destruct (etag_kept conf env r w po url data Hstart Hdl Htime Hetag)
    as [Hh Hs].
  split; [exact Hh|]. intros s Hst. unfold status_of, sent_of in *.
  destruct Hs as [Hs|Hs]; [subst x; congruence|exact Hs].
Qed.

(** C6, in the form the code satisfies. With ETag support on, for a
    request that is admitted and whose download succeeds before the
    deadline, so that the deadline check between the download and the
    cache validation passes: if the If-None-Match header
    equals the validator of the downloaded bytes and the processing
    options, the response is 304 with an empty body and the ETag header,
    and the processing stage does not run; and any two such requests with
    the same bytes and options set the same ETag header. *)
Theorem etag_not_modified (conf : config) (env : package) (r : Request)
  (w : world) (po : processingOptions) (url data : string) :
  starts conf w ->
  downloaded conf env r w po url data ->
  downloadTime conf env r w po url < seconds (WriteTimeout conf) ->
  ETagEnabled conf = true ->
  (Header_Get (ReqHeader r) "If-None-Match" = eTag_impl env data po ->
   let x := ServeHTTP conf env r w in
   fst x = Ret tt /\
   status_of x = Some 304 /\
   body_of x = EmptyString /\
   sent_of x "ETag" = Some [eTag_impl env data po] /\
   ~ In EvProcessImage (events_of x)) /\
  (forall r' w' url',
     starts conf w' ->
     downloaded conf env r' w' po url' data ->
     downloadTime conf env r' w' po url' < seconds (WriteTimeout conf) ->
     rwHeader (rw (snd (ServeHTTP conf env r' w'))) !! "ETag" =
     rwHeader (rw (snd (ServeHTTP conf env r w))) !! "ETag").
Proof.
  intros Hstart Hdl Htime Hetag. split.
  - intros Hinm x. subst x.
    destruct (ServeHTTP_validating conf env r w po url data Hstart Hdl)
      as (auth' & ->).
    rewrite (validate_not_modified conf env _ _ _ _
               (now w + seconds (WriteTimeout conf)));
      [|reflexivity|cbn [now]; lia|exact Hetag|exact Hinm].
    unfold unwound, status_of, body_of, sent_of, events_of.
    cbn [fst snd settle].
    rewrite !rw_unwind. cbn [rw].
    split; [reflexivity|].
    unfold corsWriter.
    repeat split.
    + destruct (0 <? _); reflexivity.
    + destruct (0 <? _); reflexivity.
    + destruct (0 <? _); reflexivity.
    + unfold unwind, admittedTrace, history.
      destruct (prometheusEnabled env), (newRelicEnabled env); simpl;
        intuition discriminate.
  - intros r' w' url' Hstart' Hdl' Htime'.
    destruct (etag_kept conf env r w po url data Hstart Hdl Htime Hetag)
      as [-> _].
    destruct (etag_kept conf env r' w' po url' data Hstart' Hdl' Htime' Hetag)
      as [-> _].
    reflexivity.
Qed.

Lemma imageHeaders_other conf env ctx t h k :
  k <> "Expires" -> k <> "Cache-Control" -> k <> "Content-Type" ->
  k <> "Content-Disposition" ->
  imageHeaders conf env ctx t h !! k = h !! k.
Proof.
  intros H1 H2 H3 H4. unfold imageHeaders, Header_Set.
  now rewrite !lookup_insert_ne by congruence.
Qed.

Lemma imageHeaders_disposition conf env ctx t h :
  imageHeaders conf env ctx t h !! "Content-Disposition" =
  Some [contentDisposition env (getImageURL ctx)
          (Format (getProcessingOptions ctx))].
Proof. unfold imageHeaders, Header_Set. now rewrite lookup_insert_eq. Qed.

Lemma validatedWriter_no_encoding conf env po data :
  rwHeader (validatedWriter conf env po data) !! "Content-Encoding" = None.
Proof.
  unfold validatedWriter, corsWriter.
  destruct (ETagEnabled conf), (0 <? _); reflexivity.
Qed.

Lemma gzipAccepted_spec conf r :
  gzipAccepted conf r = true <->
  0 < GZipCompression conf /\
  exists a b, Header_Get (ReqHeader r) "Accept-Encoding" = a +:+ "gzip" +:+ b.
Proof.
  unfold gzipAccepted.
  rewrite andb_true_iff, Z.ltb_lt, GoFacts.Contains_spec. reflexivity.
Qed.

(** C8. For a request that reaches [respondWithImage] with the processed
    bytes [out]: the body is compressed exactly when compression is enabled
    and the Accept-Encoding header contains gzip. Then, if the compression
    returns [z], the response is 200 with Content-Encoding gzip,
    Content-Length the length of [z] and body [z], whatever the buffer
    taken from the pool held; and whether the compression returns or
    panics, the buffer is back in the pool at the end. Otherwise the
    response is 200 with no Content-Encoding, Content-Length the length of
    [out] and body [out], and the pool is left alone. *)
Theorem image_body_encoding (conf : config) (env : package) (r : Request)
  (w : world) (po : processingOptions) (url data out : string) :
  starts conf w ->
  responding conf env r w po url data out ->
  let x := ServeHTTP conf env r w in
  (gzipAccepted conf r = true <->
   0 < GZipCompression conf /\
   exists a b, Header_Get (ReqHeader r) "Accept-Encoding" = a +:+ "gzip" +:+ b) /\
  (gzipAccepted conf r = true ->
   (forall z, gzipData_impl env (GZipCompression conf) out = Ret z ->
      fst x = Ret tt /\
      status_of x = Some 200 /\
      sent_of x "Content-Encoding" = Some ["gzip"] /\
      sent_of x "Content-Length" = Some [Go.Itoa (Go.len z)] /\
      body_of x = z) /\
   responseBufPool (snd x) = EmptyString :: tail (responseBufPool w) /\
   borrowed (snd x) = None) /\
  (gzipAccepted conf r = false ->
   fst x = Ret tt /\
   status_of x = Some 200 /\
   sent_of x "Content-Encoding" = None /\
   sent_of x "Content-Length" = Some [Go.Itoa (Go.len out)] /\
   body_of x = out /\
   responseBufPool (snd x) = responseBufPool w).
Proof.
  intros Hstart Hresp x. subst x.
  destruct (ServeHTTP_responding conf env r w po url data out Hstart Hresp)
    as (W & -> & Hrw & Hpool & Hbor & _).
  destruct (validatedWriter_unwritten conf env po data) as [Hst Hbody].
  pose proof (validatedWriter_no_encoding conf env po data) as Hce.
  rewrite <- Hrw in Hst, Hbody, Hce.
  split; [apply gzipAccepted_spec|]. split.
  - intros Hgz. split.
    + intros z Hz.
      rewrite (respondWithImage_gzip conf env _ _ _ _ z W Hst Hgz Hz).
      unfold unwound, status_of, body_of, sent_of.
      cbn [fst snd settle]. rewrite !rw_unwind. cbn [rw imageResponse rwStatus rwSent rwBody].
      rewrite Hbody. unfold Header_Set at 1 2 3.
      repeat split.
      * rewrite lookup_insert_ne by discriminate. now rewrite lookup_insert_eq.
      * now rewrite lookup_insert_eq.
    + destruct (gzipData_impl env (GZipCompression conf) out) as [z|p] eqn:Hz.
      * rewrite (respondWithImage_gzip conf env _ _ _ _ z W Hst Hgz Hz).
        unfold unwound. cbn [fst snd settle].
        rewrite pool_unwind, borrowed_unwind. cbn [responseBufPool borrowed].
        rewrite Hpool. split; reflexivity.
      * rewrite (respondWithImage_gzip_panic conf env _ _ _ _ p W Hgz Hz).
        destruct (settle_pool env (Nanoid env) r
                    (unwound env (Raise p,
                       {| rw := {| rwHeader :=
                                     imageHeaders conf env
                                       (loadedContext conf w po url data)
                                       (now W) (rwHeader (rw W));
                                   rwStatus := rwStatus (rw W);
                                   rwSent := rwSent (rw W);
                                   rwBody := rwBody (rw W) |};
                          authHeaderMust := authHeaderMust W;
                          responseBufPool := EmptyString :: tail (responseBufPool W);
                          borrowed := None; now := now W;
                          trace := (now W, EvPoolPut) :: (now W, EvGzipData)
                                   :: (now W, EvPoolGet)
                                   :: (now W, EvRespondWithImage) :: trace W |})))
          as [-> ->].
        unfold unwound. cbn [fst snd].
        rewrite pool_unwind, borrowed_unwind. cbn [responseBufPool borrowed].
        rewrite Hpool. split; reflexivity.
  - intros Hgz.
    rewrite (respondWithImage_raw conf env _ _ _ _ W Hst Hgz).
    unfold unwound, status_of, body_of, sent_of.
    cbn [fst snd settle]. rewrite !rw_unwind, pool_unwind.
    cbn [rw imageResponse rwStatus rwSent rwBody responseBufPool].
    rewrite Hbody. unfold Header_Set at 1 2.
    repeat split.
    + rewrite lookup_insert_ne by discriminate.
      rewrite imageHeaders_other by discriminate. exact Hce.
    + now rewrite lookup_insert_eq.
    + exact Hpool.
Qed.

Lemma Sprintf_table (t : imageType) (ext name : string) :
  extensionOf t = Some ext ->
  Go.Sprintf (contentDispositionsFmt t) (Some name) = disposition name ext.
Proof.
  unfold disposition.
  destruct t; intros [= <-]; cbn; rewrite ?PathFacts.app_assoc; reflexivity.
Qed.

Lemma hasByte_app (p : ascii -> bool) (a b : string) :
  Go.hasByte p (a +:+ b) = Go.hasByte p a || Go.hasByte p b.
Proof.
  induction a as [|c a IH]; simpl; [reflexivity|].
  now rewrite IH, orb_assoc.
Qed.

(** The file name [contentDisposition] puts into the header. *)
Lemma contentDisposition_name env imageURL t ext :
  extensionOf t = Some ext ->
  contentDisposition env imageURL t =
  disposition
    match url_Parse env imageURL with
    | None => contextDispositionFilenameFallback
    | Some u =>
        let file := snd (Go.Split (Path u)) in
        if Go.len file =? 0 then contextDispositionFilenameFallback
        else Go.TrimSuffix file (Go.Ext file)
    end ext.
Proof.
  intros Hext. unfold contentDisposition.
  destruct (url_Parse env imageURL) as [u|]; [|now apply Sprintf_table].
  destruct (Go.Split (Path u)) as [dir file]. cbn [snd].
  destruct (Go.len file =? 0); now apply Sprintf_table.
Qed.

Lemma Split_segment (dir seg : string) :
  lastSegment dir seg -> Go.Split (dir +:+ seg) = (dir, seg).
Proof.
  intros [Hseg [-> | [d ->]]].
  - now apply PathFacts.Split_bare.
  - now apply PathFacts.Split_last.
Qed.

Lemma TrimSuffix_stem (seg name : string) :
  Go.hasByte Go.IsPathSeparator seg = false ->
  stem seg name -> Go.TrimSuffix seg (Go.Ext seg) = name.
Proof.
  intros Hsep [[Hdot ->] | [e [-> Hdot]]].
  - rewrite PathFacts.Ext_dotless by exact Hdot. apply PathFacts.TrimSuffix_empty.
  - change (name +:+ "." +:+ e) with (name +:+ String "."%char e) in *.
    rewrite hasByte_app in Hsep. apply orb_false_elim in Hsep as [_ Hsep].
    cbn [Go.hasByte] in Hsep. apply orb_false_elim in Hsep as [_ Hsep].
    rewrite PathFacts.Ext_last_dot by assumption.
    apply PathFacts.TrimSuffix_app.
  Qed.

(** C9. For a target format of the table, with extension [ext],
    [contentDisposition] returns inline; filename=<name>.<ext>, the file
    name in double quotes, where <name> is the fallback image when the URL
    does not parse or its path has no last segment, and else the last
    segment of the path with its extension stripped; the URL of the
    specification gives photo.png; and every response to a request that
    reaches [respondWithImage] carries this value as
    Content-Disposition. *)
Theorem content_disposition_filename (env : package) (imageURL : string)
  (t : imageType) (ext : string) :
  extensionOf t = Some ext ->
  (url_Parse env imageURL = None ->
   contentDisposition env imageURL t = disposition "image" ext) /\
  (forall u dir seg,
     url_Parse env imageURL = Some u ->
     Path u = dir +:+ seg -> lastSegment dir seg ->
     (seg = EmptyString ->
      contentDisposition env imageURL t = disposition "image" ext) /\
     (seg <> EmptyString ->
      forall name, stem seg name ->
        contentDisposition env imageURL t = disposition name ext)) /\
  (forall u,
     url_Parse env "http://x/y/photo.png?a=b" = Some u ->
     Path u = "/y/photo.png" ->
     contentDisposition env "http://x/y/photo.png?a=b" imageTypePNG =
     "inline; filename=" +:+ Go.dquote +:+ "photo.png" +:+ Go.dquote) /\
  (forall conf r w po url data out,
     starts conf w ->
     responding conf env r w po url data out ->
     forall s, status_of (ServeHTTP conf env r w) = Some s ->
       sent_of (ServeHTTP conf env r w) "Content-Disposition" =
       Some [contentDisposition env url (Format po)]).
Proof.
  intros Hext. repeat split.
  - intros Hp. rewrite (contentDisposition_name env imageURL t ext Hext), Hp.
    reflexivity.
  - intros ->. rewrite (contentDisposition_name env imageURL t ext Hext), H, H0.
    rewrite (Split_segment dir EmptyString H1). reflexivity.
  - intros Hne name Hstem.
    rewrite (contentDisposition_name env imageURL t ext Hext), H, H0.
    rewrite (Split_segment dir seg H1). cbn [snd].
    destruct (Go.len seg =? 0) eqn:Hlen.
    + apply len_zero in Hlen. contradiction.
    + destruct H1 as [Hsep _]. now rewrite (TrimSuffix_stem seg name Hsep Hstem).
  - intros u Hu Hpath.
    rewrite (contentDisposition_name env _ imageTypePNG "png" eq_refl), Hu, Hpath.
    reflexivity.
  - intros conf r w po url data out Hstart Hresp s.
    destruct (ServeHTTP_responding conf env r w po url data out Hstart Hresp)
      as (W & -> & Hrw & Hpool & Hbor & _).
    destruct (validatedWriter_unwritten conf env po data) as [Hst Hbody].
    rewrite <- Hrw in Hst, Hbody.
    unfold status_of, sent_of.
    destruct (gzipAccepted conf r) eqn:Hgz.
    + destruct (gzipData_impl env (GZipCompression conf) out) as [z|p] eqn:Hz.
      * rewrite (respondWithImage_gzip conf env _ _ _ _ z W Hst Hgz Hz).
        unfold unwound. cbn [fst snd settle]. rewrite !rw_unwind.
        cbn [rw imageResponse rwStatus rwSent]. intros _.
        unfold Header_Set at 1 2. rewrite !lookup_insert_ne by discriminate.
        apply imageHeaders_disposition.
      * rewrite (respondWithImage_gzip_panic conf env _ _ _ _ p W Hgz Hz).
        unfold unwound. cbn [fst snd].
        destruct p as [err|v].
        -- rewrite settle_error by (rewrite rw_unwind; exact Hst).
           cbn [snd rw errorResponse rwStatus rwSent]. rewrite rw_unwind.
           cbn [rw rwHeader]. intros _. apply imageHeaders_disposition.
        -- cbn [settle snd]. rewrite rw_unwind. cbn [rw rwStatus].
           rewrite Hst. discriminate.
    + rewrite (respondWithImage_raw conf env _ _ _ _ W Hst Hgz).
      unfold unwound. cbn [fst snd settle]. rewrite !rw_unwind.
      cbn [rw imageResponse rwStatus rwSent]. intros _.
      unfold Header_Set at 1. rewrite !lookup_insert_ne by discriminate.
      apply imageHeaders_disposition.
Qed.

End ResponseProofs.

(** ** The method check and the auth gate *)

(** C5. A request whose method is neither GET nor OPTIONS is answered with
    status 422 and the public message of [errInvalidMethod]; the run logs
    the request, reports the error and logs the response, and never sends
    on the channel. *)
Theorem invalid_method_rejected (conf : config) (env : package) (r : Request)
  (w : world) :
  starts conf w ->
  Method r <> MethodGet -> Method r <> MethodOptions ->
  let x := ServeHTTP conf env r w in
  fst x = Ret tt /\
  status_of x = Some 422 /\
  body_of x = PublicMessage errInvalidMethod /\
  events_of x = [EvLogRequest; EvReportError (ErrImgproxy errInvalidMethod);
                 EvLogResponse 33 422] /\
  ~ In EvLock (events_of x).
Proof.
  intros (Hrw & Hb & Ht & Ha) Hget Hopt.
  apply String.eqb_neq in Hget, Hopt.
  destruct w as [rw0 auth pool bor t0 tr]; simpl in Hrw, Hb, Ht; subst.
  exec. rewrite Hopt, Hget. exec.
  destruct (0 <? Go.len (AllowOrigin conf)); exec;
    (repeat split; [reflexivity..|]); simpl; intuition discriminate.
Qed.

(** C4, in the form the code satisfies. For a GET request, from the start:
    if it is not authorized (a secret is configured and the Authorization
    header is not the word Bearer, a space and the secret), the run ends
    with status 403 and the body Forbidden, and nothing happens but the
    request log line, the report of the error and the response log line; if
    it is authorized (no secret is configured, or the header matches),
    [checkSecret] returns true and the run goes on to what follows the
    gate. OPTIONS requests and requests of other methods are answered
    before the gate. *)
Theorem secret_gate (conf : config) (env : package) (r : Request) (w : world) :
  starts conf w ->
  Method r = MethodGet ->
  (~ authorized conf r ->
     let x := ServeHTTP conf env r w in
     fst x = Ret tt /\
     status_of x = Some 403 /\
     body_of x = "Forbidden" /\
     events_of x = [EvLogRequest; EvReportError (ErrImgproxy errInvalidSecret);
                    EvLogResponse 33 403]) /\
  (authorized conf r ->
     fst (checkSecret conf r (entered conf w)) = Ret true /\
     handle conf env (Nanoid env) r w =
       served conf env (Nanoid env) r (passed conf r w)).
Proof.
  intros Hstart Hget. split; intros Hauth.
  - destruct (handle_unauthorized conf env (Nanoid env) r w Hstart Hget Hauth)
      as (auth' & Hhandle).
    unfold ServeHTTP, recovered. rewrite Hhandle. unfold corsWriter.
    destruct (0 <? Go.len (AllowOrigin conf)); exec; repeat split; reflexivity.
  - destruct Hstart as (Hrw & Hb & Ht & Ha).
    destruct (checkSecret_decides conf r (entered conf w)) as (b & a2 & Hc & Hb2 & Ha2).
    { now rewrite entered_authHeaderMust. }
    apply Hb2 in Hauth. subst b.
    split; [now rewrite Hc|].
    rewrite (handle_get conf env (Nanoid env) r w Hget).
    unfold passed, mbind, M_bind. now rewrite Hc.
Qed.

(** ** The health shortcut *)

(** C7, in the form the code satisfies. A GET request that is authorized
    and whose request URI (the escaped path, with the query string when
    there is one) is exactly [healthPath] is answered 200 with the fixed
    body; nothing happens but the request log line, and the channel is not
    touched. *)
Theorem health_shortcut (conf : config) (env : package) (r : Request) (w : world) :
  starts conf w ->
  Method r = MethodGet ->
  authorized conf r ->
  RequestURI (ReqURL r) = healthPath ->
  let x := ServeHTTP conf env r w in
  fst x = Ret tt /\
  status_of x = Some 200 /\
  body_of x = imgproxyIsRunningMsg /\
  events_of x = [EvLogRequest] /\
  syncs (events_of x) = [].
Proof.
  intros Hstart Hget Hauth Huri.
  destruct (handle_authorized conf env (Nanoid env) r w Hstart Hget Hauth)
    as (auth' & _ & Hhandle).
  unfold ServeHTTP, recovered. rewrite Hhandle. unfold served. rewrite Huri.
  change (String.eqb healthPath healthPath) with true.
  unfold corsWriter.
  destruct (0 <? Go.len (AllowOrigin conf)); exec; repeat split; reflexivity.
Qed.

(** ** Admission *)

Module AdmissionFacts.
Import Admission.

Lemma held_range (t : thread) : 0 <= held t <= 1.
Proof. unfold held. destruct (holds t); lia. Qed.

Lemma holders_nonneg (s : server) : 0 <= holders s.
Proof.
  unfold holders. induction (threads s) as [|t l IH]; simpl; [lia|].
  pose proof (held_range t). lia.
Qed.

Lemma holders_app (h : httpHandler) (l : list thread) (t : thread) :
  holders {| handler := h; threads := l ++ [t] |} =
  holders {| handler := h; threads := l |} + held t.
Proof.
  unfold holders. simpl. induction l as [|x l IH]; simpl; [lia|].
  rewrite IH. lia.
Qed.

Lemma holders_insert (h h' : httpHandler) (l : list thread) (i : nat)
  (t t' : thread) :
  l !! i = Some t ->
  holders {| handler := h'; threads := <[i := t']> l |} =
  holders {| handler := h; threads := l |} - held t + held t'.
Proof.
  unfold holders. simpl. revert i.
  induction l as [|x l IH]; intros [|i] Hi; simpl in *; try discriminate.
  - injection Hi as ->. lia.
  - rewrite (IH i Hi). lia.
Qed.

Lemma phase_send (t : thread) (rest : list sync) :
  phase t -> todo t = Acquire :: rest ->
  held t = 0 /\ held (advance_thread t Acquire rest) = 1 /\
  phase (advance_thread t Acquire rest).
Proof.
  intros Hp Ht. destruct Hp; simpl in Ht; try discriminate.
  injection Ht as <-. repeat split. constructor.
Qed.

Lemma phase_receive (t : thread) (rest : list sync) :
  phase t -> todo t = Release :: rest ->
  held t = 1 /\ held (advance_thread t Release rest) = 0 /\
  phase (advance_thread t Release rest).
Proof.
  intros Hp Ht. destruct Hp; simpl in Ht; try discriminate.
  injection Ht as <-. repeat split. constructor.
Qed.

Lemma boot_invariant (conf : config) (h : httpHandler) :
  newHTTPHandler conf = Some h -> invariant conf (boot h).
Proof.
  unfold newHTTPHandler. destruct (Z.ltb_spec (Concurrency conf) 0) as [|Hc];
    [discriminate|].
  intros [= <-]. split; simpl; auto.
Qed.

Lemma step_invariant (conf : config) (s s' : server) :
  invariant conf s -> step conf s s' -> invariant conf s'.
Proof.
  intros [Hcap Hlen Hroom Hph] Hstep.
  destruct Hstep as [s env r w Htr|s i t rest Hi Htodo Hlt|s i t rest Hi Htodo Hgt].
  - split; simpl; auto.
    + rewrite holders_app, Hlen.
      destruct (ServeHTTP_syncs conf env r w Htr) as [-> | ->];
        destruct s; reflexivity || (unfold held, holds; simpl; lia).
    + apply Forall_app. split; [exact Hph|]. constructor; [|constructor].
      destruct (ServeHTTP_syncs conf env r w Htr) as [-> | ->]; constructor.
  - assert (Hp : phase t) by (eapply Forall_lookup_1; eauto).
    destruct (phase_send t rest Hp Htodo) as (H0 & H1 & Hp').
    split; simpl; auto.
    + rewrite (holders_insert (handler s) _ _ _ t _ Hi), H0, H1.
      destruct s; simpl in *. lia.
    + lia.
    + apply Forall_insert; assumption.
  - assert (Hp : phase t) by (eapply Forall_lookup_1; eauto).
    destruct (phase_receive t rest Hp Htodo) as (H1 & H0 & Hp').
    split; simpl; auto.
    + rewrite (holders_insert (handler s) _ _ _ t _ Hi), H0, H1.
      destruct s; simpl in *. lia.
    + lia.
    + apply Forall_insert; assumption.
Qed.

Lemma reachable_invariant (conf : config) (h : httpHandler) (s : server) :
  newHTTPHandler conf = Some h -> rtc (step conf) (boot h) s ->
  invariant conf s.
Proof.
  intros Hh. revert s. apply rtc_ind_r.
  - now apply boot_invariant.
  - intros y z _ Hstep Hy. exact (step_invariant conf y z Hy Hstep).
Qed.

End AdmissionFacts.

(** C1. In every state the server reaches from its start, the requests that
    hold an admission token are as many as the elements queued on the
    channel and at most [conf.Concurrency], the capacity the channel was
    made with; and every run of [ServeHTTP] sends on the channel at most
    once and, when it has sent, receives once before it ends, whether it
    returns or panics. *)
Theorem admission_bound (conf : config) (h : httpHandler) (s : server) :
  newHTTPHandler conf = Some h ->
  rtc (step conf) (boot h) s ->
  0 <= holders s <= Concurrency conf /\
  holders s = chan_len (sem (handler s)) /\
  chan_cap (sem (handler s)) = Concurrency conf /\
  (forall env r w, trace w = [] ->
     syncs (events_of (ServeHTTP conf env r w)) = [] \/
     syncs (events_of (ServeHTTP conf env r w)) = [Acquire; Release]).
Proof.
  intros Hh Hsteps.
  destruct (AdmissionFacts.reachable_invariant conf h s Hh Hsteps)
    as [Hcap Hlen Hroom _].
  pose proof (AdmissionFacts.holders_nonneg s).
  repeat split; try lia; auto.
  intros env r w. apply ServeHTTP_syncs.
Qed.

(** ** Panics find the response unwritten *)

Section CarefulRules.
Context {A B : Type}.

Lemma careful_total (m : M A) : total m -> careful m.
Proof. intros Ht. apply total_triple; [exact Ht|]. intros a w. exact I. Qed.

Lemma careful_panic (p : panicValue) : careful (@panic A p).
Proof. intros w Hw. exact Hw. Qed.

Lemma careful_bind (m : M A) (f : A -> M B) :
  inv unwritten m -> (forall a, careful (f a)) -> careful (m ≫= f).
Proof.
  intros Hm Hf.
  apply (triple_bind unwritten m f (fun _ => unwritten)); [exact Hm| |auto].
  intros a. apply Hf.
Qed.

Lemma careful_defer (cleanup : world -> world) (m : M A) :
  (forall w, unwritten w -> unwritten (cleanup w)) ->
  careful m -> careful (defer cleanup m).
Proof.
  intros Hc Hm. eapply triple_defer; [exact Hm|].
  intros [a|p] w; simpl; auto.
Qed.

Lemma careful_deferWhen (b : bool) (cleanup : world -> world) (m : M A) :
  (forall w, unwritten w -> unwritten (cleanup w)) ->
  careful m -> careful (deferWhen b cleanup m).
Proof. intros Hc Hm. destruct b; simpl; [now apply careful_defer|exact Hm]. Qed.

Lemma careful_if (b : bool) (m1 m2 : M A) :
  careful m1 -> careful m2 -> careful (if b then m1 else m2).
Proof. now destruct b. Qed.
End CarefulRules.

Ltac unwritten_step :=
  intros ? [? ?]; cbv beta in *;
  unfold pool_Put, set_borrowed, unlock, timeoutCancel, downloadcancel,
    newRelicCancel;
  repeat case_match;
  split; assumption.

Ltac careful_go :=
  cbv beta zeta;
  lazymatch goal with
  | |- careful (panic _) => apply careful_panic
  | |- careful (panic_error _) => apply careful_panic
  | |- careful (_ ≫= _) =>
      first [ solve [apply careful_total; total_go]
            | apply careful_bind;
              [inv_go; solve [unwritten_step] | intros ?; careful_go] ]
  | |- careful (defer _ _) =>
      apply careful_defer; [solve [unwritten_step] | careful_go]
  | |- careful (deferWhen _ _ _) =>
      apply careful_deferWhen; [solve [unwritten_step] | careful_go]
  | |- careful (if _ then _ else _) => apply careful_if; careful_go
  | |- careful (match ?x with _ => _ end) => destruct x; careful_go
  | |- careful ?m =>
      first [ solve [apply careful_total; total_go]
            | let h := head_of m in unfold h; careful_go ]
  end.

(** A panic of [ServeHTTP] before its deferred function runs finds the
    response unwritten: every write of the handler comes after the last
    call that can panic. *)
Lemma handle_careful conf env reqID r : careful (handle conf env reqID r).
Proof. careful_go. Qed.

(** ** The deadline *)

Section Deadline.
Variable deadline : Z.

Lemma ontime_frame (w w' : world) :
  trace w' = trace w -> ontime deadline w -> ontime deadline w'.
Proof. unfold ontime, calm, punctual. now intros ->. Qed.

Lemma calm_event (w w' : world) (t : Z) (e : event) :
  trace w' = (t, e) :: trace w -> guarded e = false ->
  calm deadline w -> calm deadline w'.
Proof.
  unfold calm. intros -> Hg Hc t' e' [Heq|Hin] Hg'.
  - injection Heq as Ht' He'. congruence.
  - destruct (Hc t' e' Hin Hg') as [Hlt Hck]. split; [exact Hlt|now right].
Qed.

Lemma ontime_event (w w' : world) (t : Z) (e : event) :
  trace w' = (t, e) :: trace w ->
  guarded e = false -> e <> EvCheckTimeout ->
  ontime deadline w -> ontime deadline w'.
Proof.
  intros Ht Hg He [Hc Hp]. split; [now apply (calm_event w w' t e)|].
  unfold punctual in *. rewrite Ht.
  intros t' [Heq|Hin]; [injection Heq as Ht' He'; congruence|eauto].
Qed.


End Deadline.

Ltac ontime_step :=
  intros ? ?; cbv beta in *;
  unfold pool_Put, set_borrowed, unlock, timeoutCancel, downloadcancel,
    newRelicCancel;
  repeat case_match;
  match goal with
  | H : ontime ?d ?w |- ontime ?d ?w' =>
      first [ exact H
            | apply (ontime_frame d w w'); [reflexivity|exact H]
            | eapply (ontime_event d w w');
              [reflexivity|reflexivity|discriminate|exact H] ]
  end.

Section Timely.
Variable conf : config.
Variable env : package.
Variable deadline : Z.

Abbreviation P := (awaiting deadline).
Abbreviation Q := (deadlineKept env deadline).
Abbreviation K := (checkedOr env deadline).
Abbreviation J := (pending conf deadline).

Lemma ontime_respondWithError reqID e :
  inv (ontime deadline) (respondWithError reqID e).
Proof. inv_go; ontime_step. Qed.



(** The deferred calls and the reports add events that are neither
    guarded stages nor deadline checks. *)
Lemma Q_event res w e :
  guarded e = false -> e <> EvCheckTimeout ->
  Q res w -> Q res (record_event e w).
Proof.
  intros Hg He [Ho|(Hc & Hu & Hres)]; [left|right].
  - eapply ontime_event; [reflexivity|exact Hg|exact He|exact Ho].
  - split; [|split; [exact Hu|exact Hres]].
    eapply calm_event; [reflexivity|exact Hg|exact Hc].
Qed.

























End Timely.


(** ** The recovery boundary *)

Lemma starts_unwritten conf w : starts conf w -> unwritten w.
Proof. intros (Hrw & _). unfold unwritten. now rewrite Hrw. Qed.

(** What the deferred function answers a recovered error with, when nothing
    is written yet. *)
Lemma settle_responds env reqID r err w :
  unwritten w ->
  let x := settle env reqID r (Raise (PanicError err), w) in
  fst x = Ret tt /\
  status_of x = Some (StatusCode (responded env err)) /\
  body_of x = PublicMessage (responded env err) /\
  In (EvReportError err) (events_of x).
Proof.
  intros [Hst Hbody] x. subst x. rewrite settle_error by exact Hst.
  unfold status_of, body_of, events_of, history, errorResponse.
  cbn [fst snd rw rwStatus rwBody trace map]. rewrite Hbody.
  repeat split. apply in_rev. rewrite rev_involutive. right. now left.
Qed.

(** C3. When the body of [ServeHTTP] panics, from the start of a request:
    a typed error of the package is answered with its own status code and
    its public message; an error of any other type is answered with status
    500 and the fixed public message, by [respondWithError] on
    [newUnexpectedError err 4] after the report of the error; a value that
    is no error is raised again, and no status line and no body is
    written. *)
Theorem recovery_classifies (conf : config) (env : package) (r : Request)
  (w w1 : world) (p : panicValue) :
  starts conf w ->
  handle conf env (Nanoid env) r w = (Raise p, w1) ->
  let x := ServeHTTP conf env r w in
  match p with
  | PanicError (ErrImgproxy e) =>
      fst x = Ret tt /\
      status_of x = Some (StatusCode e) /\
      body_of x = PublicMessage e
  | PanicError (ErrOther text) =>
      fst x = Ret tt /\
      status_of x = Some 500 /\
      body_of x = "Internal error" /\
      x = respondWithError (Nanoid env)
            (newUnexpectedError env (ErrOther text) 4)
            (record_event (EvReportError (ErrOther text)) w1)
  | PanicOther v =>
      x = (Raise (PanicOther v), w1) /\
      status_of x = None /\
      body_of x = EmptyString
  end.
Proof.
  intros Hstart Hh x. subst x. unfold ServeHTTP, recovered. rewrite Hh.
  pose proof (handle_careful conf env (Nanoid env) r w
                (starts_unwritten conf w Hstart)) as Hu.
  rewrite Hh in Hu. cbn [fst snd] in Hu.
  destruct p as [[e|text]|v].
  - destruct (settle_responds env (Nanoid env) r (ErrImgproxy e) w1 Hu)
      as (H1 & H2 & H3 & _). auto.
  - destruct (settle_responds env (Nanoid env) r (ErrOther text) w1 Hu)
      as (H1 & H2 & H3 & _). auto.
  - destruct Hu as [Hst Hbody]. cbn [settle]. unfold status_of, body_of.
    cbn [snd]. auto.
Qed.

(** ** The sample deployment *)

Lemma sample_starts : starts Sample.conf Sample.arrival.
Proof. repeat split; try reflexivity. now left. Qed.

Lemma sample_authorized : authorized Sample.conf Sample.get.
Proof. right. reflexivity. Qed.

Lemma sample_downloaded :
  downloaded Sample.conf Sample.env Sample.get Sample.arrival
             Sample.po Sample.sourceURL "source bytes".
Proof.
  split; [|split; reflexivity].
  split; [reflexivity|]. split; [exact sample_authorized|].
  vm_compute. discriminate.
Qed.

Lemma sample_revalidated :
  downloaded Sample.conf Sample.env Sample.revalidate Sample.arrival
             Sample.po Sample.sourceURL "source bytes".
Proof.
  split; [|split; reflexivity].
  split; [reflexivity|]. split; [right; reflexivity|].
  vm_compute. discriminate.
Qed.

Lemma sample_responding :
  responding Sample.conf Sample.env Sample.get Sample.arrival
             Sample.po Sample.sourceURL "source bytes" "processed bytes".
Proof.
  split; [exact sample_downloaded|].
  split; [intros _; vm_compute; discriminate|].
  repeat split.
Qed.

(** ** The theorems on the sample deployment *)

(** C1 on a server with a capacity of two, after one request was accepted
    and sent on the channel. *)
Lemma admission_bound_sample :
  rtc (step Sample.conf)
      (boot {| sem := {| chan_cap := 2; chan_len := 0 |} |}) Sample.busy /\
  0 <= holders Sample.busy <= Concurrency Sample.conf.
Proof.
  pose (h0 := {| sem := {| chan_cap := 2; chan_len := 0 |} |}).
  pose (waiting := {| handler := h0;
                      threads := [{| done := []; todo := [Acquire; Release] |}] |}).
  assert (Hops : syncs (events_of (ServeHTTP Sample.conf Sample.env Sample.get
                                     Sample.arrival)) = [Acquire; Release])
    by (vm_compute; reflexivity).
  assert (H1 : step Sample.conf (boot h0) waiting).
  { unfold waiting. rewrite <- Hops.
    exact (step_accept Sample.conf (boot h0) Sample.env Sample.get
             Sample.arrival eq_refl). }
  assert (H2 : step Sample.conf waiting Sample.busy).
  { exact (step_send Sample.conf waiting 0%nat
             {| done := []; todo := [Acquire; Release] |} [Release]
             eq_refl eq_refl eq_refl). }
  assert (Hrun : rtc (step Sample.conf) (boot h0) Sample.busy).
  { eapply rtc_l; [exact H1|]. eapply rtc_l; [exact H2|]. apply rtc_refl. }
  split; [exact Hrun|].
  exact (proj1 (admission_bound Sample.conf _ Sample.busy eq_refl Hrun)).
Defined.


(** C3 on a request whose download fails with an error of another type. *)
Lemma recovery_classifies_sample :
  starts Sample.conf Sample.arrival /\
  status_of (ServeHTTP Sample.conf Sample.offline Sample.get Sample.arrival)
  = Some 500 /\
  body_of (ServeHTTP Sample.conf Sample.offline Sample.get Sample.arrival)
  = "Internal error".
Proof.
  split; [exact sample_starts|].
  pose proof (recovery_classifies Sample.conf Sample.offline Sample.get
                Sample.arrival
                (snd (handle Sample.conf Sample.offline (Nanoid Sample.offline)
                        Sample.get Sample.arrival))
                (PanicError (ErrOther "dial tcp: connection refused"))
                sample_starts eq_refl) as H.
  cbv beta iota zeta in H. destruct H as (_ & H1 & H2 & _).
  split; [exact H1|exact H2].
Defined.

(** C4 on a request without the [Authorization] header. *)
Lemma secret_gate_sample :
  starts Sample.conf Sample.arrival /\
  Method Sample.anonymous = MethodGet /\
  status_of (ServeHTTP Sample.conf Sample.env Sample.anonymous Sample.arrival)
  = Some 403.
Proof.
  split; [exact sample_starts|]. split; [reflexivity|].
  destruct (secret_gate Sample.conf Sample.env Sample.anonymous Sample.arrival
              sample_starts eq_refl) as [H _].
  apply H. intros [Hs|Hh]; vm_compute in Hs || vm_compute in Hh; discriminate.
Defined.

(** C5 on a POST request. *)
Lemma invalid_method_rejected_sample :
  starts Sample.conf Sample.arrival /\
  status_of (ServeHTTP Sample.conf Sample.env Sample.post Sample.arrival)
  = Some 422 /\
  ~ In EvLock (events_of (ServeHTTP Sample.conf Sample.env Sample.post
                            Sample.arrival)).
Proof.
  split; [exact sample_starts|].
  destruct (invalid_method_rejected Sample.conf Sample.env Sample.post
              Sample.arrival sample_starts)
    as (_ & H1 & _ & _ & H2); [discriminate|discriminate|].
  split; [exact H1|exact H2].
Defined.

(** C6 on a request that presents the validator of the image. *)
Lemma etag_not_modified_sample :
  starts Sample.conf Sample.arrival /\
  status_of (ServeHTTP Sample.conf Sample.env Sample.revalidate Sample.arrival)
  = Some 304 /\
  body_of (ServeHTTP Sample.conf Sample.env Sample.revalidate Sample.arrival)
  = EmptyString.
Proof.
  split; [exact sample_starts|].
  destruct (etag_not_modified Sample.conf Sample.env Sample.revalidate
              Sample.arrival Sample.po Sample.sourceURL "source bytes"
              sample_starts sample_revalidated eq_refl eq_refl) as [H _].
  destruct (H eq_refl) as (_ & H1 & H2 & _).
  split; [exact H1|exact H2].
Defined.

(** C7 on a health probe that carries the secret. *)
Lemma health_shortcut_sample :
  starts Sample.conf Sample.arrival /\
  RequestURI (ReqURL Sample.health) = healthPath /\
  status_of (ServeHTTP Sample.conf Sample.env Sample.health Sample.arrival)
  = Some 200 /\
  body_of (ServeHTTP Sample.conf Sample.env Sample.health Sample.arrival)
  = imgproxyIsRunningMsg.
Proof.
  split; [exact sample_starts|]. split; [reflexivity|].
  destruct (health_shortcut Sample.conf Sample.env Sample.health Sample.arrival
              sample_starts eq_refl (or_intror eq_refl) eq_refl)
    as (_ & H1 & H2 & _).
  split; [exact H1|exact H2].
Defined.

(** C8 on a request from a client that accepts gzip. *)
Lemma image_body_encoding_sample :
  responding Sample.conf Sample.env Sample.get Sample.arrival
             Sample.po Sample.sourceURL "source bytes" "processed bytes" /\
  sent_of (ServeHTTP Sample.conf Sample.env Sample.get Sample.arrival)
          "Content-Encoding" = Some ["gzip"] /\
  body_of (ServeHTTP Sample.conf Sample.env Sample.get Sample.arrival)
  = "gzip:processed bytes".
Proof.
  split; [exact sample_responding|].
  destruct (image_body_encoding Sample.conf Sample.env Sample.get Sample.arrival
              Sample.po Sample.sourceURL "source bytes" "processed bytes"
              sample_starts sample_responding) as (_ & H & _).
  destruct (H eq_refl) as (Hz & _).
  destruct (Hz "gzip:processed bytes" eq_refl) as (_ & _ & H1 & _ & H2).
  split; [exact H1|exact H2].
Defined.

(** C9 on the URL of the specification. *)
Lemma content_disposition_filename_sample :
  extensionOf imageTypePNG = Some "png" /\
  contentDisposition Sample.env "http://x/y/photo.png?a=b" imageTypePNG =
  "inline; filename=" +:+ Go.dquote +:+ "photo.png" +:+ Go.dquote.
Proof.
  split; [reflexivity|].
  destruct (content_disposition_filename Sample.env "http://x/y/photo.png?a=b"
              imageTypePNG "png" eq_refl) as (_ & _ & H & _).
  exact (H _ eq_refl eq_refl).
Defined.

(** C10 on the same request. *)
Lemma etag_on_every_response_sample :
  downloaded Sample.conf Sample.env Sample.get Sample.arrival
             Sample.po Sample.sourceURL "source bytes" /\
  sent_of (ServeHTTP Sample.conf Sample.env Sample.get Sample.arrival) "ETag"
  = Some ["rs:fit:300:200/source bytes"].
Proof.
  split; [exact sample_downloaded|].
  destruct (etag_on_every_response Sample.conf Sample.env Sample.get
              Sample.arrival Sample.po Sample.sourceURL "source bytes"
              sample_starts sample_downloaded eq_refl eq_refl) as [_ H].
  exact (H 200 eq_refl).
Defined.

(** ** Where the code departs from the wording *)


(** C4 as worded fails: an OPTIONS request is answered before the auth
    gate, with status 200, whatever its [Authorization] header. *)
Lemma options_skip_secret : ~ secretGateAsWorded Sample.conf Sample.env.
Proof.
  intros H.
  destruct (H Sample.options Sample.arrival sample_starts) as (_ & Hst & _).
  - discriminate.
  - vm_compute. discriminate.
  - vm_compute in Hst. discriminate.
Qed.

(** C7 as worded fails: the auth gate stands before the health shortcut, so
    a probe without the secret is answered 403; and the shortcut compares
    the request URI, so a probe with a query string is admitted like an
    image request. *)
Lemma health_behind_secret :
  ~ healthShortcutAsWorded Sample.conf Sample.env /\
  Path (ReqURL Sample.healthQuery) = healthPath /\
  In EvLock (events_of (ServeHTTP Sample.conf Sample.env Sample.healthQuery
                          Sample.arrival)).
Proof.
  split; [|split; [reflexivity|]].
  - intros H.
    destruct (H Sample.probe Sample.arrival sample_starts eq_refl eq_refl)
      as [Hst _].
    vm_compute in Hst. discriminate.
  - vm_compute. do 3 right. left. reflexivity.
Qed.

(** * Further properties of the handler *)

(** ** The CORS header fields *)

Section Lacks.
Variable key : string.

Lemma lacks_frame (w w' : world) : rw w' = rw w -> lacks key w -> lacks key w'.
Proof. unfold lacks. now intros ->. Qed.

Lemma lacks_SetHeader k x w :
  k <> key -> lacks key w -> lacks key (set_rw (rw_SetHeader k x) w).
Proof.
  intros Hk [Hh Hs]. unfold lacks.
  destruct w as [[h st sent body] a p b t tr].
  cbn [rw rwHeader rwStatus rwSent set_rw rw_SetHeader] in *.
  unfold Header_Set. now rewrite lookup_insert_ne.
Qed.

Lemma lacks_WriteHeader c w :
  lacks key w -> lacks key (set_rw (rw_WriteHeader c) w).
Proof.
  intros [Hh Hs]. unfold lacks, rw_WriteHeader.
  destruct w as [[h st sent body] a p b t tr].
  cbn [rw rwHeader rwStatus rwSent set_rw] in *.
  destruct st; cbn [rw rwHeader rwStatus rwSent]; auto.
Qed.

Lemma lacks_Write d w : lacks key w -> lacks key (set_rw (rw_Write d) w).
Proof.
  intros [Hh Hs]. unfold lacks, rw_Write, rw_WriteHeader.
  destruct w as [[h st sent body] a p b t tr].
  cbn [rw rwHeader rwStatus rwSent set_rw] in *.
  destruct st; cbn [rw rwHeader rwStatus rwSent]; auto.
Qed.
End Lacks.

Ltac lacks_step :=
  intros ? ?; cbv beta in *;
  unfold pool_Put, set_borrowed, unlock, timeoutCancel, downloadcancel,
    newRelicCancel;
  repeat case_match;
  first
    [ assumption
    | apply lacks_WriteHeader; assumption
    | apply lacks_Write; assumption
    | apply lacks_SetHeader; [discriminate|assumption]
    | eapply lacks_frame; [|eassumption]; reflexivity ].

Lemma inv_and {A : Type} (I J : world -> Prop) (m : M A) :
  inv I m -> inv J m -> inv (fun w => I w /\ J w) m.
Proof. intros HI HJ w [H1 H2]. split; [exact (HI w H1)|exact (HJ w H2)]. Qed.

Section Cors.
Variable conf : config.
Variable env : package.

Lemma corsKept_writeCORS :
  triple (fun w => rw w = newResponseWriter) (writeCORS conf)
         (fun _ => corsKept conf).
Proof.
  intros [rw0 auth pool bor t0 tr] Hrw. cbn [rw] in Hrw. subst rw0.
  unfold writeCORS, corsKept.
  destruct (0 <? Go.len (AllowOrigin conf)); repeat split; try reflexivity;
    now left.
Qed.

Lemma corsKept_handle reqID r :
  leads (starts conf) (handle conf env reqID r) (corsKept conf).
Proof.
  unfold handle.
  apply (leads_bind _ (fun w => rw w = newResponseWriter)); [total_go| |].
  - intros w (Hrw & _). exact Hrw.
  - intros _. apply (leads_bind _ (corsKept conf)); [total_go| |].
    + exact corsKept_writeCORS.
    + intros _. apply leads_inv. unfold corsKept.
      destruct (0 <? Go.len (AllowOrigin conf)); apply inv_and.
      * inv_go; carries_step.
      * inv_go; carries_step.
      * inv_go; lacks_step.
      * inv_go; lacks_step.
Qed.

Lemma corsKept_settle reqID r x :
  corsKept conf (snd x) -> corsKept conf (snd (settle env reqID r x)).
Proof.
  destruct x as [[u|[err|p]] w]; simpl; auto.
  intros H.
  assert (Hi : inv (corsKept conf)
                 (reportError err r;;
                  match err with
                  | ErrImgproxy ierr => respondWithError reqID ierr
                  | _ => respondWithError reqID (newUnexpectedError env err 4)
                  end)).
  { unfold corsKept.
    destruct (0 <? Go.len (AllowOrigin conf)); apply inv_and;
      first [inv_go; carries_step | inv_go; lacks_step]. }
  exact (Hi w H).
Qed.
End Cors.

(** X1. Whatever the request and however it ends, from the start of a
    request: when an origin is configured, a response that has its status
    line written went out with Access-Control-Allow-Origin set to the
    origin and Access-Control-Allow-Methods set to the fixed list; when
    none is configured, it went out with neither field. *)
Theorem cors_on_every_response (conf : config) (env : package) (r : Request)
  (w : world) (s : Z) :
  starts conf w ->
  status_of (ServeHTTP conf env r w) = Some s ->
  (AllowOrigin conf <> EmptyString ->
   sent_of (ServeHTTP conf env r w) "Access-Control-Allow-Origin"
   = Some [AllowOrigin conf] /\
   sent_of (ServeHTTP conf env r w) "Access-Control-Allow-Methods"
   = Some ["GET, OPTIONs"]) /\
  (AllowOrigin conf = EmptyString ->
   sent_of (ServeHTTP conf env r w) "Access-Control-Allow-Origin" = None /\
   sent_of (ServeHTTP conf env r w) "Access-Control-Allow-Methods" = None).
Proof.
  intros Hstart Hst.
  assert (Hk : corsKept conf (snd (ServeHTTP conf env r w))).
  { unfold ServeHTTP, recovered. apply corsKept_settle.
    exact (corsKept_handle conf env (Nanoid env) r w Hstart). }
  unfold status_of, sent_of in *. unfold corsKept in Hk.
  split; intros Ho.
  - destruct (0 <? Go.len (AllowOrigin conf)) eqn:Hlen.
    + destruct Hk as [[_ [H1|H1]] [_ [H2|H2]]]; try congruence. auto.
    + apply Z.ltb_ge in Hlen. destruct (AllowOrigin conf); [congruence|].
      unfold Go.len in Hlen. cbn [String.length] in Hlen. lia.
  - rewrite Ho in Hk. change (0 <? Go.len EmptyString) with false in Hk.
    destruct Hk as [[_ H1] [_ H2]]. auto.
Qed.

Lemma cors_on_every_response_sample :
  starts Sample.conf Sample.arrival /\
  sent_of (ServeHTTP Sample.conf Sample.env Sample.anonymous Sample.arrival)
          "Access-Control-Allow-Origin" = Some ["*"].
Proof.
  split; [exact sample_starts|].
  destruct (cors_on_every_response Sample.conf Sample.env Sample.anonymous
              Sample.arrival 403 sample_starts eq_refl) as [H _].
  destruct H as [H _]; [discriminate|exact H].
Defined.

(** ** OPTIONS requests *)

(** X2. An OPTIONS request is answered at once, from the start of a
    request: status 200, an empty body, and as header fields those of
    [writeCORS] alone. The auth gate is not consulted, so [authHeaderMust]
    is left as it was, whatever the Authorization header and the secret;
    nothing happens but the two log lines. *)
Theorem options_answered (conf : config) (env : package) (r : Request)
  (w : world) :
  starts conf w ->
  Method r = MethodOptions ->
  let x := ServeHTTP conf env r w in
  fst x = Ret tt /\
  status_of x = Some 200 /\
  body_of x = EmptyString /\
  rwSent (rw (snd x)) = rwHeader (corsWriter conf) /\
  authHeaderMust (snd x) = authHeaderMust w /\
  events_of x = [EvLogRequest; EvLogResponse 32 200].
Proof.
  intros (Hrw & Hb & Ht & Ha) Hopt.
  destruct w as [rw0 auth pool bor t0 tr]; simpl in Hrw, Hb, Ht; subst.
  exec. rewrite Hopt. change (String.eqb MethodOptions MethodOptions) with true.
  unfold corsWriter.
  destruct (0 <? Go.len (AllowOrigin conf)); exec; repeat split; reflexivity.
Qed.

Lemma options_answered_sample :
  starts Sample.conf Sample.arrival /\
  status_of (ServeHTTP Sample.conf Sample.env Sample.options Sample.arrival)
  = Some 200 /\
  authHeaderMust (snd (ServeHTTP Sample.conf Sample.env Sample.options
                         Sample.arrival)) = EmptyString.
Proof.
  split; [exact sample_starts|].
  destruct (options_answered Sample.conf Sample.env Sample.options
              Sample.arrival sample_starts eq_refl)
    as (_ & H1 & _ & _ & H2 & _).
  split; [exact H1|exact H2].
Defined.

(** ** Every return is answered *)

Lemma written_frame (w w' : world) : rw w' = rw w -> written w -> written w'.
Proof. unfold written. now intros ->. Qed.

Lemma written_SetHeader k x w : written w -> written (set_rw (rw_SetHeader k x) w).
Proof. exact id. Qed.

Lemma written_WriteHeader c w : written (set_rw (rw_WriteHeader c) w).
Proof.
  unfold written, rw_WriteHeader. destruct w as [[h st sent body] a p b t tr].
  cbn [rw rwStatus set_rw]. destruct st; discriminate.
Qed.

Lemma written_Write d w : written (set_rw (rw_Write d) w).
Proof.
  unfold written, rw_Write, rw_WriteHeader.
  destruct w as [[h st sent body] a p b t tr].
  cbn [rw rwStatus set_rw]. destruct st; discriminate.
Qed.

Ltac written_step :=
  intros ? ?; cbv beta in *;
  unfold pool_Put, set_borrowed, unlock, timeoutCancel, downloadcancel,
    newRelicCancel;
  repeat case_match;
  first
    [ assumption
    | apply written_WriteHeader
    | apply written_Write
    | eapply written_frame; [|eassumption]; reflexivity ].

Section ResponsiveRules.
Context {A B : Type}.

Lemma lands_bind_total (m : M A) (f : A -> M B) :
  total m -> (forall a, lands (f a)) -> lands (m ≫= f).
Proof.
  intros Hm Hf w. destruct (Hm w) as [a Ha]. unfold mbind, M_bind.
  destruct (m w) as [[a'|p] w1]; simpl in *; [apply Hf|discriminate].
Qed.

Lemma lands_bind_inv (m : M A) (f : A -> M B) :
  lands m -> (forall a, inv written (f a)) -> lands (m ≫= f).
Proof.
  intros Hm Hf w. specialize (Hm w). unfold mbind, M_bind.
  destruct (m w) as [[a|p] w1]; simpl in *; [exact (Hf a w1 Hm)|exact Hm].
Qed.

Lemma responsive_lands (m : M A) : lands m -> responsive m.
Proof. intros Hm w _. specialize (Hm w). now destruct (fst (m w)). Qed.

Lemma responsive_panic (p : panicValue) : responsive (@panic A p).
Proof. intros w _. exact I. Qed.

Lemma responsive_bind (m : M A) (f : A -> M B) :
  inv unwritten m -> (forall a, responsive (f a)) -> responsive (m ≫= f).
Proof.
  intros Hm Hf.
  apply (triple_bind unwritten m f (fun _ => unwritten)); [exact Hm| |auto].
  intros a. apply Hf.
Qed.

Lemma responsive_defer (cleanup : world -> world) (m : M A) :
  (forall w, rw (cleanup w) = rw w) ->
  responsive m -> responsive (defer cleanup m).
Proof.
  intros Hc Hm. eapply triple_defer; [exact Hm|].
  intros [a|p] w; simpl; [|auto]. unfold written. now rewrite Hc.
Qed.

Lemma responsive_deferWhen (b : bool) (cleanup : world -> world) (m : M A) :
  (forall w, rw (cleanup w) = rw w) ->
  responsive m -> responsive (deferWhen b cleanup m).
Proof. intros Hc Hm. destruct b; simpl; [now apply responsive_defer|exact Hm]. Qed.

Lemma responsive_if (b : bool) (m1 m2 : M A) :
  responsive m1 -> responsive m2 -> responsive (if b then m1 else m2).
Proof. now destruct b. Qed.
End ResponsiveRules.

Lemma lands_WriteHeader c : lands (WriteHeader c).
Proof. intros w. apply written_WriteHeader. Qed.

Lemma lands_Write d : lands (Write d).
Proof. intros w. apply written_Write. Qed.

Lemma rw_pool_Put w : rw (pool_Put w) = rw w.
Proof. unfold pool_Put. now destruct (borrowed w). Qed.

(** The ways the handler writes a response: through total steps to a
    [WriteHeader], and steps that keep what is written after it. *)
Ltac lands_go :=
  cbv beta zeta;
  lazymatch goal with
  | |- lands (WriteHeader _) => apply lands_WriteHeader
  | |- lands (Write _) => apply lands_Write
  | |- lands (WriteHeader _ ≫= _) =>
      apply lands_bind_inv; [apply lands_WriteHeader
                            | intros ?; inv_go; solve [written_step] ]
  | |- lands (_ ≫= _) =>
      apply lands_bind_total; [total_go | intros ?; lands_go]
  | |- lands ?m => let h := head_of m in unfold h; lands_go
  end.

Ltac responsive_go :=
  cbv beta zeta;
  lazymatch goal with
  | |- responsive (panic _) => apply responsive_panic
  | |- responsive (panic_error _) => apply responsive_panic
  | |- responsive (_ ≫= _) =>
      first [ solve [apply responsive_lands; lands_go]
            | apply responsive_bind;
              [inv_go; solve [unwritten_step] | intros ?; responsive_go] ]
  | |- responsive (defer _ _) =>
      apply responsive_defer;
      [first [exact rw_pool_Put | reflexivity] | responsive_go]
  | |- responsive (deferWhen _ _ _) =>
      apply responsive_deferWhen; [reflexivity | responsive_go]
  | |- responsive (if _ then _ else _) => apply responsive_if; responsive_go
  | |- responsive (match ?x with _ => _ end) => destruct x; responsive_go
  | |- responsive ?m =>
      first [ solve [apply responsive_lands; lands_go]
            | let h := head_of m in unfold h; responsive_go ]
  end.

Lemma handle_responsive conf env reqID r : responsive (handle conf env reqID r).
Proof. responsive_go. Qed.

(** X3. From the start of a request, [ServeHTTP] ends in one of two ways:
    it returns, and then the status line of a response is written; or it
    panics, and then the value is no error (the one the body of the handler
    panicked with) and nothing of a response is written. *)
Theorem answered_or_raised (conf : config) (env : package) (r : Request)
  (w : world) :
  starts conf w ->
  let x := ServeHTTP conf env r w in
  match fst x with
  | Ret _ => exists s, status_of x = Some s
  | Raise p =>
      (exists v, p = PanicOther v /\
                 fst (handle conf env (Nanoid env) r w) = Raise (PanicOther v)) /\
      status_of x = None /\ body_of x = EmptyString
  end.
Proof.
  intros Hstart x. subst x.
  pose proof (handle_responsive conf env (Nanoid env) r w
                (starts_unwritten conf w Hstart)) as Hr.
  pose proof (handle_careful conf env (Nanoid env) r w
                (starts_unwritten conf w Hstart)) as Hc.
  unfold ServeHTTP, recovered.
  destruct (handle conf env (Nanoid env) r w) as [[u|[err|v]] w1];
    cbn [fst snd] in *.
  - unfold status_of. cbn [settle fst snd]. unfold written in Hr.
    destruct (rwStatus (rw w1)) as [s|]; [now exists s|congruence].
  - destruct Hc as [Hst Hbody]. rewrite settle_error by exact Hst.
    unfold status_of. cbn [fst snd rw errorResponse rwStatus]. eauto.
  - destruct Hc as [Hst Hbody]. cbn [settle fst snd]. unfold status_of, body_of.
    cbn [snd]. split; [exists v; auto|auto].
Qed.

Lemma answered_or_raised_sample :
  starts Sample.conf Sample.arrival /\
  exists s, status_of (ServeHTTP Sample.conf Sample.offline Sample.get
                         Sample.arrival) = Some s.
Proof.
  split; [exact sample_starts|].
  exact (answered_or_raised Sample.conf Sample.offline Sample.get
           Sample.arrival sample_starts).
Defined.

(** ** The globals between requests *)

Section Globals.
Variable conf : config.
Variable env : package.
Variable n : nat.

Lemma settled_frame (w w' : world) :
  borrowed w' = borrowed w -> responseBufPool w' = responseBufPool w ->
  authHeaderMust w' = authHeaderMust w ->
  settled conf n w -> settled conf n w'.
Proof. unfold settled. now intros -> -> ->. Qed.

Lemma lent_frame (w w' : world) :
  responseBufPool w' = responseBufPool w ->
  authHeaderMust w' = authHeaderMust w ->
  (exists buf, borrowed w' = Some buf) ->
  lent conf n w -> lent conf n w'.
Proof. unfold lent. intros -> -> H (_ & Hn & Ha). auto. Qed.

Lemma settled_built (w : world) :
  settled conf n w ->
  settled conf n
    (set_authHeaderMust (Go.Sprintf "Bearer %s" (Some (Secret conf))) w).
Proof.
  intros (Hb & Hn & _). rewrite Sprintf_bearer. repeat split; auto.
Qed.

Lemma settled_pool_Get (w : world) :
  settled conf n w ->
  lent conf n
    match responseBufPool w with
    | buf :: idle => set_buffers idle (Some buf) w
    | [] => set_buffers [] (Some EmptyString) w
    end.
Proof.
  intros (Hb & Hn & Ha). unfold lent.
  destruct (responseBufPool w) as [|buf idle];
    cbn [borrowed responseBufPool authHeaderMust set_buffers List.length] in *;
    (split; [eauto|split; [lia|exact Ha]]).
Qed.

Lemma lent_pool_Put (w : world) : lent conf n w -> settled conf n (pool_Put w).
Proof.
  intros ([buf Hb] & Hn & Ha). unfold pool_Put. rewrite Hb.
  repeat split; cbn; [lia|exact Ha].
Qed.
End Globals.

Ltac settled_step :=
  intros ? ?; cbv beta in *;
  unfold unlock, timeoutCancel, downloadcancel, newRelicCancel;
  repeat case_match;
  first
    [ assumption
    | apply settled_built; assumption
    | eapply settled_frame; [| | |eassumption]; reflexivity ].

Ltac lent_step :=
  intros ? ?; cbv beta in *;
  unfold set_borrowed;
  repeat case_match;
  first
    [ assumption
    | eapply lent_frame; [| | |eassumption];
      [reflexivity|reflexivity|cbn [borrowed set_buffers]; eauto] ].

Section GlobalsKept.
Variable conf : config.
Variable env : package.
Variable n : nat.

(** Every buffer [respondWithImage] takes from the pool it puts back,
    whether it returns or panics. *)
Lemma settled_respondWithImage ctx reqID r data :
  inv (settled conf n) (respondWithImage conf env ctx reqID r data).
Proof.
  unfold respondWithImage. cbv zeta.
  repeat (apply inv_bind; [inv_go; settled_step|intros ?]).
  apply inv_if; [|inv_go; settled_step].
  apply (leads_bind _ (lent conf n)); [unfold pool_Get; total_go| |].
  - unfold pool_Get. intros w Hw. cbn. apply settled_pool_Get.
    eapply settled_frame; [| | |exact Hw]; reflexivity.
  - intros _. apply (leads_defer _ (lent conf n)).
    + apply leads_inv. inv_go; lent_step.
    + intros w. apply lent_pool_Put.
Qed.

Lemma settled_handle reqID r : inv (settled conf n) (handle conf env reqID r).
Proof.
  pose proof settled_respondWithImage as Himg.
  inv_go; settled_step.
Qed.

Lemma settled_settle reqID r x :
  settled conf n (snd x) -> settled conf n (snd (settle env reqID r x)).
Proof.
  destruct x as [[u|[err|p]] w]; simpl; auto.
  intros H.
  assert (Hi : inv (settled conf n)
                 (reportError err r;;
                  match err with
                  | ErrImgproxy ierr => respondWithError reqID ierr
                  | _ => respondWithError reqID (newUnexpectedError env err 4)
                  end)) by (inv_go; settled_step).
  exact (Hi w H).
Qed.
End GlobalsKept.

(** X4. [ServeHTTP] leaves the globals of the process as the next request
    needs them, whatever the request and however it ends: no buffer stays
    out of the pool, the pool holds at least as many buffers as before, and
    [authHeaderMust] is still empty or built from the configured secret. So
    the next request, with a response writer of its own, starts like this
    one. *)
Theorem globals_kept (conf : config) (env : package) (r : Request) (w : world) :
  starts conf w ->
  let w' := snd (ServeHTTP conf env r w) in
  borrowed w' = None /\
  (List.length (responseBufPool w) <= List.length (responseBufPool w'))%nat /\
  starts conf (nextArrival w').
Proof.
  intros (Hrw & Hb & Ht & Ha) w'.
  assert (Hs : settled conf (List.length (responseBufPool w)) w')
    by (apply settled_settle, settled_handle; repeat split; auto).
  destruct Hs as (Hb' & Hn' & Ha').
  repeat split; auto.
Qed.

Lemma globals_kept_sample :
  starts Sample.conf Sample.arrival /\
  starts Sample.conf
    (nextArrival (snd (ServeHTTP Sample.conf Sample.env Sample.get
                         Sample.arrival))).
Proof.
  split; [exact sample_starts|].
  exact (proj2 (proj2 (globals_kept Sample.conf Sample.env Sample.get
                         Sample.arrival sample_starts))).
Defined.

(** ** The failure paths *)

Lemma history_settle_error env reqID r err w :
  rwStatus (rw w) = None ->
  history (snd (settle env reqID r (Raise (PanicError err), w))) =
  history w ++ answer env err.
Proof.
  intros Hst. rewrite settle_error by exact Hst.
  unfold history, answer. cbn [snd trace map rev]. now rewrite <- app_assoc.
Qed.

(** X6. An admitted request whose path does not parse: the error of the
    parser is answered as the deferred function answers errors (with its
    own status and public message when it is a typed error of the
    package). The run takes the token and starts the timer, and after the
    parsing only the timer is cancelled and the token given back: the
    download is not started, no deadline is checked, and the error goes to
    the error reporter but not to the observability sinks. *)
Theorem parse_failure (conf : config) (env : package) (r : Request)
  (w : world) (err : error) :
  starts conf w ->
  admissible conf r ->
  result (parsePath_impl env r) = Failed err ->
  let x := ServeHTTP conf env r w in
  fst x = Ret tt /\
  status_of x = Some (StatusCode (responded env err)) /\
  body_of x = PublicMessage (responded env err) /\
  events_of x =
    [EvLogRequest] ++ attach env ++
    [EvLock; EvStartTimer; EvParsePath; EvTimeoutCancel; EvUnlock] ++
    detach env ++ answer env err.
Proof.
  intros Hstart Hadm Hparse x.
  assert (Hrun : exists w1,
             handle conf env (Nanoid env) r w =
               (Raise (PanicError err), w1) /\
             unwritten w1 /\
             history w1 =
               [EvLogRequest] ++ attach env ++
               [EvLock; EvStartTimer; EvParsePath; EvTimeoutCancel; EvUnlock] ++
               detach env).
  { destruct Hadm as (Hget & Hauth & Huri).
    destruct (handle_authorized conf env (Nanoid env) r w Hstart Hget Hauth)
      as (auth' & _ & ->).
    unfold served. rewrite (eqb_false_of_ne _ _ Huri).
    destruct w as [rw0 auth pool bor t0 tr].
    unfold attach, detach.
    destruct (corsWriter_unwritten conf) as [Hc1 Hc2].
    destruct (newRelicEnabled env) eqn:Hnr, (prometheusEnabled env) eqn:Hpr;
      exec0; rewrite ?Hnr, ?Hpr; exec0; rewrite Hparse; exec0;
      (eexists; split; [reflexivity|]); (split; [split; assumption|reflexivity]). }
  destruct Hrun as (w1 & Hh & [Hst Hbody] & Hhist).
  subst x. unfold ServeHTTP, recovered. rewrite Hh.
  unfold events_of. rewrite history_settle_error by exact Hst.
  rewrite Hhist, settle_error by exact Hst.
  unfold status_of, body_of. cbn [fst snd rw errorResponse rwStatus rwBody].
  rewrite Hbody. repeat split. now rewrite <- !app_assoc.
Qed.

Lemma history_cons (w w' : world) (t : Z) (e : event) :
  trace w' = (t, e) :: trace w -> history w' = history w ++ [e].
Proof. unfold history. now intros ->. Qed.

Lemma history_unwind env w : history (unwind env w) = history w ++ released env.
Proof.
  unfold unwind, released, detach, history.
  destruct (prometheusEnabled env), (newRelicEnabled env);
    cbn [trace map rev snd unlock timeoutCancel downloadcancel newRelicCancel
         record_event app];
    now rewrite <- ?app_assoc.
Qed.

Lemma history_admittedTrace env t0 tp :
  rev (map snd (admittedTrace env t0 tp)) = fetched env.
Proof.
  unfold admittedTrace, fetched, attach.
  destruct (prometheusEnabled env), (newRelicEnabled env); reflexivity.
Qed.

Lemma history_validatedWorld conf env ctx w :
  history (validatedWorld conf env ctx w) = history w ++ validated conf.
Proof.
  unfold validatedWorld, validated, history.
  destruct (ETagEnabled conf); cbn [trace map rev snd record_event app];
    now rewrite <- ?app_assoc.
Qed.

Lemma validatedWorld_unwritten conf env ctx w :
  unwritten w -> unwritten (validatedWorld conf env ctx w).
Proof.
  unfold validatedWorld, unwritten. destruct (ETagEnabled conf); auto.
Qed.

(** X7. An admitted request whose download fails, however long the parsing
    and the download took: the error is reported to each enabled sink, with
    the tag download for the counter, then [downloadcancel] is called (it
    is deferred before the error is looked at), the timer is cancelled and
    the token given back, and the error is answered. No deadline is checked
    and nothing is processed. *)
Theorem download_failure (conf : config) (env : package) (r : Request)
  (w : world) (po : processingOptions) (url : string) (err : error) :
  starts conf w ->
  admissible conf r ->
  result (parsePath_impl env r) = Done (po, url) ->
  result (downloadImage_impl env (parsedContext conf w po url)) = Failed err ->
  let x := ServeHTTP conf env r w in
  fst x = Ret tt /\
  status_of x = Some (StatusCode (responded env err)) /\
  body_of x = PublicMessage (responded env err) /\
  events_of x =
    fetched env ++ stageReport env "download" err ++ released env ++
    answer env err.
Proof.
  intros Hstart Hadm Hparse Hdl x.
  assert (Hrun : exists w1,
             handle conf env (Nanoid env) r w =
               (Raise (PanicError err), w1) /\
             unwritten w1 /\
             history w1 =
               fetched env ++ stageReport env "download" err ++ released env).
  { destruct Hadm as (Hget & Hauth & Huri).
    destruct (handle_authorized conf env (Nanoid env) r w Hstart Hget Hauth)
      as (auth' & _ & ->).
    unfold served. rewrite (eqb_false_of_ne _ _ Huri).
    destruct w as [rw0 auth pool bor t0 tr].
    exec0_in Hdl.
    unfold fetched, attach, stageReport, released, detach.
    destruct (corsWriter_unwritten conf) as [Hc1 Hc2].
    destruct (newRelicEnabled env) eqn:Hnr, (prometheusEnabled env) eqn:Hpr;
      exec0; rewrite ?Hnr, ?Hpr; exec0; rewrite Hparse; exec0; rewrite Hdl;
      exec0; rewrite ?Hnr, ?Hpr; exec0;
      (eexists; split; [reflexivity|]); (split; [split; assumption|reflexivity]). }
  destruct Hrun as (w1 & Hh & [Hst Hbody] & Hhist).
  subst x. unfold ServeHTTP, recovered. rewrite Hh.
  unfold events_of. rewrite history_settle_error by exact Hst.
  rewrite Hhist, settle_error by exact Hst.
  unfold status_of, body_of. cbn [fst snd rw errorResponse rwStatus rwBody].
  rewrite Hbody. repeat split. now rewrite <- !app_assoc.
Qed.

Lemma process_fails conf env ctx reqID r err deadline w :
  ctxDeadline ctx = Some deadline -> now w < deadline ->
  result (processImage_impl env ctx) = Failed err ->
  exists w1,
    process conf env ctx reqID r w = (Raise (PanicError err), w1) /\
    rw w1 = rw w /\
    history w1 =
      history w ++ [EvCheckTimeout; EvProcessImage] ++
      stageReport env "processing" err.
Proof.
  intros Hd Htime Hfail.
  unfold process, mbind, M_bind.
  rewrite (checkTimeout_in_time env ctx deadline w Hd Htime).
  unfold processImage, collaborate, mbind, M_bind, emit, modify.
  rewrite Hfail. cbn [mret M_ret].
  unfold reportStageError, sendErrorToNewRelic, incrementPrometheusErrorsTotal,
    stageReport, panic_error, panic, mbind, M_bind, emit, modify, history.
  destruct (newRelicEnabled env), (prometheusEnabled env);
    cbn [mret M_ret]; (eexists; split; [reflexivity|]);
    (split; [reflexivity|]);
    cbn [trace map rev snd record_event advance app];
    now rewrite <- ?app_assoc.
Qed.

(** X8. A request that reaches the processing stage in time and whose
    processing fails: the error is reported to each enabled sink, with the
    tag processing for the counter, the deferred calls run, and the error
    is answered; the third deadline check and the response encoder do not
    occur. *)
Theorem processing_failure (conf : config) (env : package) (r : Request)
  (w : world) (po : processingOptions) (url data : string) (err : error) :
  starts conf w ->
  downloaded conf env r w po url data ->
  (ETagEnabled conf = true ->
   Header_Get (ReqHeader r) "If-None-Match" <> eTag_impl env data po) ->
  downloadTime conf env r w po url < seconds (WriteTimeout conf) ->
  validateTime conf env r w po url data < seconds (WriteTimeout conf) ->
  result (processImage_impl env (loadedContext conf w po url data)) = Failed err ->
  let x := ServeHTTP conf env r w in
  fst x = Ret tt /\
  status_of x = Some (StatusCode (responded env err)) /\
  body_of x = PublicMessage (responded env err) /\
  events_of x =
    fetched env ++ validated conf ++ [EvCheckTimeout; EvProcessImage] ++
    stageReport env "processing" err ++ released env ++ answer env err.
Proof.
  intros Hstart Hdl Hinm Ht1 Ht2 Hfail x. subst x.
  destruct (ServeHTTP_validating conf env r w po url data Hstart Hdl)
    as (auth' & ->).
  unfold validateTime in Ht2.
  set (ctx := loadedContext conf w po url data) in *.
  set (d := now w + seconds (WriteTimeout conf)).
  assert (Hd : ctxDeadline ctx = Some d) by reflexivity.
  assert (He : eTagOf env ctx = eTag_impl env data po) by reflexivity.
  clearbody ctx.
  rewrite (validate_passes conf env ctx _ _ _ d);
    [|exact Hd|cbn [now]; unfold d; lia|rewrite He; exact Hinm].
  match goal with
  | |- context [process conf env ctx ?i r ?W] =>
      destruct (process_fails conf env ctx i r err d W Hd) as (w1 & -> & Hrw & Hh);
      [|exact Hfail|]
  end.
  { unfold validatedWorld. destruct (ETagEnabled conf); cbn [now record_event];
      unfold d; lia. }
  assert (Hu : unwritten (unwind env w1)).
  { unfold unwritten. rewrite rw_unwind, Hrw.
    apply validatedWorld_unwritten. apply corsWriter_unwritten. }
  destruct Hu as [Hst Hbody].
  unfold unwound, events_of. cbn [fst snd].
  rewrite history_settle_error by exact Hst.
  rewrite settle_error by exact Hst.
  rewrite history_unwind, Hh, history_validatedWorld.
  unfold history at 1. cbn [trace]. rewrite history_admittedTrace.
  unfold status_of, body_of. cbn [fst snd rw errorResponse rwStatus rwBody].
  rewrite Hbody. repeat split. now rewrite <- !app_assoc.
Qed.

(** ** The paths that end without an error *)

Lemma history_processedWorld env ctx w :
  history (processedWorld env ctx w) =
  history w ++ [EvCheckTimeout; EvProcessImage; EvCheckTimeout].
Proof.
  unfold processedWorld, history. cbn [trace map rev snd].
  now rewrite <- !app_assoc.
Qed.

Lemma ServeHTTP_responding_history conf env r w po url data out :
  starts conf w ->
  responding conf env r w po url data out ->
  exists W,
    ServeHTTP conf env r w =
    settle env (Nanoid env) r
      (unwound env
         (respondWithImage conf env (loadedContext conf w po url data)
            (Nanoid env) r out W)) /\
    rwStatus (rw W) = None /\
    history W =
      fetched env ++ validated conf ++
      [EvCheckTimeout; EvProcessImage; EvCheckTimeout].
Proof.
  intros Hstart (Hdl & Hinm & Hout & Ht1 & Ht2 & Ht3).
  unfold respondTime, validateTime in Ht2, Ht3.
  destruct (ServeHTTP_validating conf env r w po url data Hstart Hdl)
    as (auth' & ->).
  set (ctx := loadedContext conf w po url data) in *.
  set (d := now w + seconds (WriteTimeout conf)).
  assert (Hd : ctxDeadline ctx = Some d) by reflexivity.
  assert (He : eTagOf env ctx = eTag_impl env data po) by reflexivity.
  clearbody ctx.
  rewrite (validate_passes conf env ctx _ _ _ d);
    [|exact Hd|cbn [now]; unfold d; lia|rewrite He; exact Hinm].
  rewrite (process_responds conf env ctx _ _ out d); [|exact Hd| |exact Hout|].
  2, 3: unfold validatedWorld; destruct (ETagEnabled conf);
        cbn [now record_event]; unfold d; lia.
  eexists. split; [reflexivity|]. split.
  - unfold processedWorld. cbn [rw].
    apply validatedWorld_unwritten. apply corsWriter_unwritten.
  - rewrite history_processedWorld, history_validatedWorld.
    unfold history at 1. cbn [trace]. rewrite history_admittedTrace.
    now rewrite <- !app_assoc.
Qed.

(** X9. The order of events of a request that is answered with an image:
    a deadline check stands right before the validation, the processing and
    the encoding; without compression the encoder only logs the response;
    with compression it takes a buffer, compresses, logs, and puts the
    buffer back; then the deferred calls run in the reverse order of their
    registration: [downloadcancel], [timeoutCancel], [h.unlock], the
    duration observer, the end of the transaction. *)
Theorem response_history (conf : config) (env : package) (r : Request)
  (w : world) (po : processingOptions) (url data out : string) :
  starts conf w ->
  responding conf env r w po url data out ->
  let x := ServeHTTP conf env r w in
  (gzipAccepted conf r = false ->
   events_of x =
     fetched env ++ validated conf ++
     [EvCheckTimeout; EvProcessImage; EvCheckTimeout; EvRespondWithImage;
      EvLogResponse 32 200] ++ released env) /\
  (gzipAccepted conf r = true ->
   forall z, gzipData_impl env (GZipCompression conf) out = Ret z ->
     events_of x =
       fetched env ++ validated conf ++
       [EvCheckTimeout; EvProcessImage; EvCheckTimeout; EvRespondWithImage;
        EvPoolGet; EvGzipData; EvLogResponse 32 200; EvPoolPut] ++
       released env).
Proof.
  intros Hstart Hresp x. subst x.
  destruct (ServeHTTP_responding_history conf env r w po url data out
              Hstart Hresp) as (W & -> & Hst & Hh).
  unfold events_of, unwound. split.
  - intros Hgz. rewrite (respondWithImage_raw conf env _ _ _ _ W Hst Hgz).
    cbn [fst snd settle]. rewrite history_unwind.
    unfold history at 1. cbn [trace map rev snd]. fold (history W).
    rewrite Hh. now rewrite <- !app_assoc.
  - intros Hgz z Hz.
    rewrite (respondWithImage_gzip conf env _ _ _ _ z W Hst Hgz Hz).
    cbn [fst snd settle]. rewrite history_unwind.
    unfold history at 1. cbn [trace map rev snd]. fold (history W).
    rewrite Hh. now rewrite <- !app_assoc.
Qed.

(** X5. A request that is answered 304: the status line says 304, but the
    response log line says 200, in the colour of success. The run is the
    log line of the request, the attach to the sinks, the token, the timer,
    the parsing and the download, one deadline check, the computation of
    the validator, the response log line and the deferred calls, in this
    order; the processing stage does not occur. *)
Theorem not_modified_history (conf : config) (env : package) (r : Request)
  (w : world) (po : processingOptions) (url data : string) :
  starts conf w ->
  downloaded conf env r w po url data ->
  downloadTime conf env r w po url < seconds (WriteTimeout conf) ->
  ETagEnabled conf = true ->
  Header_Get (ReqHeader r) "If-None-Match" = eTag_impl env data po ->
  let x := ServeHTTP conf env r w in
  status_of x = Some 304 /\
  events_of x =
    fetched env ++ [EvCheckTimeout; EvCalcETag; EvLogResponse 32 200] ++
    released env.
Proof.
  intros Hstart Hdl Htime Hetag Hinm x. subst x.
  destruct (ServeHTTP_validating conf env r w po url data Hstart Hdl)
    as (auth' & ->).
  rewrite (validate_not_modified conf env _ _ _ _
             (now w + seconds (WriteTimeout conf)));
    [|reflexivity|cbn [now]; lia|exact Hetag|exact Hinm].
  unfold unwound, status_of, events_of. cbn [fst snd settle].
  rewrite rw_unwind, history_unwind. cbn [rw]. split.
  - unfold corsWriter. destruct (0 <? _); reflexivity.
  - unfold history. cbn [trace map rev snd]. rewrite history_admittedTrace.
    now rewrite <- !app_assoc.
Qed.

(** ** The paths on the sample deployment *)

Lemma sample_admissible : admissible Sample.conf Sample.get.
Proof.
  split; [reflexivity|]. split; [exact sample_authorized|].
  vm_compute. discriminate.
Qed.

Lemma parse_failure_sample :
  admissible Sample.conf Sample.get /\
  status_of (ServeHTTP Sample.conf Variant.badPath Sample.get Sample.arrival)
  = Some 404 /\
  body_of (ServeHTTP Sample.conf Variant.badPath Sample.get Sample.arrival)
  = "Invalid URL".
Proof.
  split; [exact sample_admissible|].
  destruct (parse_failure Sample.conf Variant.badPath Sample.get Sample.arrival
              (ErrImgproxy Variant.invalidPath)
              sample_starts sample_admissible eq_refl) as (_ & H1 & H2 & _).
  split; [exact H1|exact H2].
Defined.

Lemma download_failure_sample :
  admissible Sample.conf Sample.get /\
  events_of (ServeHTTP Sample.conf Sample.offline Sample.get Sample.arrival) =
    fetched Sample.offline ++
    stageReport Sample.offline "download"
                (ErrOther "dial tcp: connection refused") ++
    released Sample.offline ++
    answer Sample.offline (ErrOther "dial tcp: connection refused").
Proof.
  split; [exact sample_admissible|].
  destruct (download_failure Sample.conf Sample.offline Sample.get
              Sample.arrival Sample.po Sample.sourceURL
              (ErrOther "dial tcp: connection refused")
              sample_starts sample_admissible eq_refl eq_refl)
    as (_ & _ & _ & H).
  exact H.
Defined.

Lemma sample_downloaded_badImage :
  downloaded Sample.conf Variant.badImage Sample.get Sample.arrival
             Sample.po Sample.sourceURL "source bytes".
Proof. split; [exact sample_admissible|split; reflexivity]. Qed.

Lemma processing_failure_sample :
  downloaded Sample.conf Variant.badImage Sample.get Sample.arrival
             Sample.po Sample.sourceURL "source bytes" /\
  status_of (ServeHTTP Sample.conf Variant.badImage Sample.get Sample.arrival)
  = Some 500 /\
  In (EvPrometheusError "processing")
     (events_of (ServeHTTP Sample.conf Variant.badImage Sample.get
                   Sample.arrival)).
Proof.
  split; [exact sample_downloaded_badImage|].
  destruct (processing_failure Sample.conf Variant.badImage Sample.get
              Sample.arrival Sample.po Sample.sourceURL "source bytes"
              (ErrOther "unsupported image format")
              sample_starts sample_downloaded_badImage)
    as (_ & H1 & _ & H2);
    [intros _; vm_compute; discriminate|reflexivity|reflexivity|reflexivity|].
  split; [exact H1|]. rewrite H2. vm_compute. do 11 right. left. reflexivity.
Defined.

Lemma response_history_sample :
  responding Sample.conf Sample.env Sample.get Sample.arrival
             Sample.po Sample.sourceURL "source bytes" "processed bytes" /\
  events_of (ServeHTTP Sample.conf Sample.env Sample.get Sample.arrival) =
    fetched Sample.env ++ validated Sample.conf ++
    [EvCheckTimeout; EvProcessImage; EvCheckTimeout; EvRespondWithImage;
     EvPoolGet; EvGzipData; EvLogResponse 32 200; EvPoolPut] ++
    released Sample.env.
Proof.
  split; [exact sample_responding|].
  destruct (response_history Sample.conf Sample.env Sample.get Sample.arrival
              Sample.po Sample.sourceURL "source bytes" "processed bytes"
              sample_starts sample_responding) as [_ H].
  exact (H eq_refl "gzip:processed bytes" eq_refl).
Defined.

Lemma not_modified_history_sample :
  downloaded Sample.conf Sample.env Sample.revalidate Sample.arrival
             Sample.po Sample.sourceURL "source bytes" /\
  status_of (ServeHTTP Sample.conf Sample.env Sample.revalidate Sample.arrival)
  = Some 304 /\
  In (EvLogResponse 32 200)
     (events_of (ServeHTTP Sample.conf Sample.env Sample.revalidate
                   Sample.arrival)).
Proof.
  split; [exact sample_revalidated|].
  destruct (not_modified_history Sample.conf Sample.env Sample.revalidate
              Sample.arrival Sample.po Sample.sourceURL "source bytes"
              sample_starts sample_revalidated eq_refl eq_refl eq_refl)
    as [H1 H2].
  split; [exact H1|]. rewrite H2. vm_compute. do 9 right. left. reflexivity.
Defined.

(** ** The admission window *)

Lemma idle_frame (w w' : world) : trace w' = trace w -> idle w -> idle w'.
Proof. unfold idle. now intros ->. Qed.

Lemma idle_event (w w' : world) (t : Z) (e : event) :
  trace w' = (t, e) :: trace w -> offPipeline e -> idle w -> idle w'.
Proof. unfold idle. intros -> He Hw. now constructor. Qed.

Lemma holding_frame t1 pre (w w' : world) :
  trace w' = trace w -> holding t1 pre w -> holding t1 pre w'.
Proof. unfold holding. now intros ->. Qed.

Lemma holding_event t1 pre (w w' : world) (t : Z) (e : event) :
  trace w' = (t, e) :: trace w -> sync_of e = None ->
  holding t1 pre w -> holding t1 pre w'.
Proof.
  unfold holding. intros -> He (mid & -> & Hmid).
  exists ((t, e) :: mid). split; [reflexivity|now constructor].
Qed.

Lemma windowed_frame (w w' : world) :
  trace w' = trace w -> windowed w -> windowed w'.
Proof. unfold windowed. now intros ->. Qed.

Lemma windowed_event (w w' : world) (t : Z) (e : event) :
  trace w' = (t, e) :: trace w -> offPipeline e -> windowed w -> windowed w'.
Proof.
  unfold windowed. intros -> He (post & t2 & mid & t1 & pre & -> & H1 & H2 & H3).
  exists ((t, e) :: post), t2, mid, t1, pre.
  split; [reflexivity|]. split; [now constructor|auto].
Qed.

Lemma framed_frame (w w' : world) : trace w' = trace w -> framed w -> framed w'.
Proof.
  intros Ht [H|H]; [left; now apply (idle_frame w)|right; now apply (windowed_frame w)].
Qed.

Lemma framed_event (w w' : world) (t : Z) (e : event) :
  trace w' = (t, e) :: trace w -> offPipeline e -> framed w -> framed w'.
Proof.
  intros Ht He [H|H];
    [left; now apply (idle_event w w' t e)
    |right; now apply (windowed_event w w' t e)].
Qed.

Ltac idle_step :=
  intros ? ?; cbv beta in *;
  unfold newRelicCancel;
  repeat case_match;
  first
    [ assumption
    | eapply idle_frame; [|eassumption]; reflexivity
    | eapply idle_event; [reflexivity|split; reflexivity|eassumption] ].

Ltac framed_step :=
  intros ? ?; cbv beta in *;
  unfold newRelicCancel;
  repeat case_match;
  first
    [ assumption
    | eapply framed_frame; [|eassumption]; reflexivity
    | eapply framed_event; [reflexivity|split; reflexivity|eassumption] ].

Ltac holding_step :=
  intros ? ?; cbv beta in *;
  unfold pool_Put, set_borrowed, unlock, timeoutCancel, downloadcancel;
  repeat case_match;
  first
    [ assumption
    | eapply holding_frame; [|eassumption]; reflexivity
    | eapply holding_event; [reflexivity|reflexivity|eassumption] ].

Section Window.
Variable conf : config.
Variable env : package.

(** [admitted] takes the token, keeps it through the pipeline, and
    gives it back on the way out. *)
Lemma admitted_window ctx reqID r :
  leads idle (admitted conf env ctx reqID r) windowed.
Proof.
  unfold admitted.
  apply (leads_bind _ (fun w => exists t1 pre,
                           Forall (fun te => offPipeline (snd te)) pre /\
                           holding t1 pre w)); [unfold lock; total_go| |].
  - intros w Hw. exists (now w), (trace w). split; [exact Hw|].
    exists []. split; [reflexivity|constructor].
  - intros _. eapply leads_defer.
    + apply leads_inv. intros w (t1 & pre & Hpre & Hh).
      exists t1, pre. split; [exact Hpre|].
      revert w Hh.
      match goal with
      | |- forall w, holding t1 pre w -> holding t1 pre (snd (?m w)) =>
          change (inv (holding t1 pre) m)
      end.
      inv_go; holding_step.
    + intros w (t1 & pre & Hpre & mid & Ht & Hmid).
      exists [], (now w), mid, t1, pre. unfold unlock. cbn [trace record_event app].
      rewrite Ht. split; [reflexivity|]. split; [constructor|auto].
Qed.

Lemma observed_framed reqID r :
  leads idle (observed conf env reqID r) framed.
Proof.
  unfold observed. cbv zeta.
  apply (leads_bind _ idle).
  - destruct (newRelicEnabled env); [unfold startNewRelicTransaction|]; total_go.
  - apply leads_inv. inv_go; idle_step.
  - intros ctx. apply leads_deferWhen; [|framed_step].
    apply (leads_bind _ idle).
    + destruct (prometheusEnabled env); total_go.
    + apply leads_inv. inv_go; idle_step.
    + intros _. apply leads_deferWhen; [|framed_step].
      eapply leads_weaken; [apply admitted_window|auto|now right].
Qed.

Lemma handle_framed reqID r : leads idle (handle conf env reqID r) framed.
Proof.
  assert (Hidle : forall m : M unit, inv idle m -> leads idle m framed).
  { intros m Hm. eapply leads_weaken; [exact Hm|auto|now left]. }
  unfold handle.
  apply (leads_bind _ idle); [total_go|apply leads_inv; inv_go; idle_step|].
  intros _.
  apply (leads_bind _ idle); [total_go|apply leads_inv; inv_go; idle_step|].
  intros _. destruct (String.eqb (Method r) MethodOptions).
  { apply Hidle. inv_go; idle_step. }
  destruct (negb _).
  { apply Hidle. apply inv_panic_error. }
  apply (leads_bind _ idle); [total_go|apply leads_inv; inv_go; idle_step|].
  intros ok. destruct (negb ok).
  { apply Hidle. apply inv_panic_error. }
  unfold served. destruct (String.eqb _ _).
  - apply Hidle. inv_go; idle_step.
  - apply observed_framed.
Qed.

Lemma framed_settle reqID r x :
  framed (snd x) -> framed (snd (settle env reqID r x)).
Proof.
  destruct x as [[u|[err|p]] w]; simpl; auto.
  intros H.
  assert (Hi : inv framed
                 (reportError err r;;
                  match err with
                  | ErrImgproxy ierr => respondWithError reqID ierr
                  | _ => respondWithError reqID (newUnexpectedError env err 4)
                  end)) by (inv_go; framed_step).
  exact (Hi w H).
Qed.
End Window.

Lemma Forall_history (P : event -> Prop) (l : list (Z * event)) :
  Forall (fun te => P (snd te)) l -> Forall P (rev (map snd l)).
Proof.
  intros H. apply Forall_rev. now apply Forall_map.
Qed.

(** X12. In every run of [ServeHTTP] from the start of a request, either
    nothing of the pipeline happens and the channel is not touched, or the
    run sends once and receives once and every event of the pipeline (the
    timer, the parsing, the download, the deadline checks, the validator,
    the processing, the encoder and its buffer) lies between the send and
    the receive: what comes before and after is off the pipeline. *)
Theorem pipeline_inside_admission (conf : config) (env : package)
  (r : Request) (w : world) :
  starts conf w ->
  let h := events_of (ServeHTTP conf env r w) in
  Forall offPipeline h \/
  exists pre mid post,
    h = pre ++ [EvLock] ++ mid ++ [EvUnlock] ++ post /\
    Forall offPipeline pre /\
    Forall (fun e => sync_of e = None) mid /\
    Forall offPipeline post.
Proof.
  intros (_ & _ & Ht & _) h.
  assert (Hf : framed (snd (ServeHTTP conf env r w))).
  { unfold ServeHTTP, recovered. apply framed_settle.
    apply (handle_framed conf env (Nanoid env) r w).
    unfold idle. rewrite Ht. constructor. }
  subst h. unfold events_of, history.
  destruct Hf as [Hi|(post & t2 & mid & t1 & pre & -> & H1 & H2 & H3)].
  - left. now apply Forall_history.
  - right.
    exists (rev (map snd pre)), (rev (map snd mid)), (rev (map snd post)).
    split; [|auto using Forall_history].
    rewrite map_app. cbn [map]. rewrite map_app. cbn [map snd].
    rewrite rev_app_distr. cbn [rev]. rewrite rev_app_distr. cbn [rev].
    now rewrite <- !app_assoc.
Qed.

Lemma pipeline_inside_admission_sample :
  starts Sample.conf Sample.arrival /\
  (Forall offPipeline
     (events_of (ServeHTTP Sample.conf Sample.offline Sample.get
                   Sample.arrival)) \/
   exists pre mid post,
     events_of (ServeHTTP Sample.conf Sample.offline Sample.get Sample.arrival)
     = pre ++ [EvLock] ++ mid ++ [EvUnlock] ++ post /\
     Forall offPipeline pre /\
     Forall (fun e => sync_of e = None) mid /\
     Forall offPipeline post).
Proof.
  split; [exact sample_starts|].
  exact (pipeline_inside_admission Sample.conf Sample.offline Sample.get
           Sample.arrival sample_starts).
Defined.

(** ** The cache header fields of an image response *)






(** X11. A target format that is in neither table: both map lookups give
    the empty string, so the Content-Type is empty, and [fmt.Sprintf] with
    the empty format reports the file name as an extra operand; the
    Content-Disposition is not of the inline form. *)
Theorem format_outside_table (env : package) (imageURL : string) :
  mimes imageTypeUnknown = EmptyString /\
  (url_Parse env imageURL = None ->
   contentDisposition env imageURL imageTypeUnknown =
   "%!(EXTRA string=image)") /\
  exists name,
    contentDisposition env imageURL imageTypeUnknown =
    "%!(EXTRA string=" +:+ name +:+ ")".
Proof.
  split; [reflexivity|]. unfold contentDisposition.
  destruct (url_Parse env imageURL) as [u|].
  - split; [discriminate|].
    destruct (Go.Split (Path u)) as [dir filename].
    destruct (Go.len filename =? 0); eexists; reflexivity.
  - split; [reflexivity|]. eexists; reflexivity.
Qed.


(** ** Without ETag support *)

Lemma never_frame e (w w' : world) : trace w' = trace w -> never e w -> never e w'.
Proof. unfold never. now intros ->. Qed.

Lemma never_event e (w w' : world) (t : Z) (e' : event) :
  trace w' = (t, e') :: trace w -> e' <> e -> never e w -> never e w'.
Proof.
  unfold never. intros -> He Hw t' [Heq|Hin]; [congruence|exact (Hw t' Hin)].
Qed.

Ltac never_step :=
  intros ? ?; cbv beta in *;
  unfold pool_Put, set_borrowed, unlock, timeoutCancel, downloadcancel,
    newRelicCancel;
  repeat case_match;
  first
    [ assumption
    | eapply never_frame; [|eassumption]; reflexivity
    | eapply never_event; [reflexivity|discriminate|eassumption] ].

Section Unvalidated.
Variable conf : config.
Variable env : package.
Hypothesis Hoff : ETagEnabled conf = false.

Lemma unvalidated_handle reqID r : inv unvalidated (handle conf env reqID r).
Proof.
  apply inv_and.
  - assert (Hl : forall ctx i q,
               inv (lacks "ETag")
                   (validate conf env ctx i q (process conf env ctx i q))).
    { intros ctx i q. unfold validate. rewrite Hoff. inv_go; lacks_step. }
    inv_go; lacks_step.
  - assert (Hn : forall ctx i q,
               inv (never EvCalcETag)
                   (validate conf env ctx i q (process conf env ctx i q))).
    { intros ctx i q. unfold validate. rewrite Hoff. inv_go; never_step. }
    inv_go; never_step.
Qed.

Lemma unvalidated_settle reqID r x :
  unvalidated (snd x) -> unvalidated (snd (settle env reqID r x)).
Proof.
  destruct x as [[u|[err|p]] w]; simpl; auto.
  intros H.
  assert (Hi : inv unvalidated
                 (reportError err r;;
                  match err with
                  | ErrImgproxy ierr => respondWithError reqID ierr
                  | _ => respondWithError reqID (newUnexpectedError env err 4)
                  end))
    by (apply inv_and; [inv_go; lacks_step|inv_go; never_step]).
  exact (Hi w H).
Qed.
End Unvalidated.

Lemma plain_starts : starts Variant.plain Sample.arrival.
Proof. repeat split; try reflexivity. now left. Qed.

(** X13. With ETag support off, no run of [ServeHTTP] computes a validator
    or sets the ETag header field, whatever the If-None-Match header of the
    request: a response that has its status line written went out without
    the field, and the field is not set on one that has not. *)
Theorem etag_support_off (conf : config) (env : package) (r : Request)
  (w : world) :
  starts conf w ->
  ETagEnabled conf = false ->
  let x := ServeHTTP conf env r w in
  ~ In EvCalcETag (events_of x) /\
  sent_of x "ETag" = None /\
  rwHeader (rw (snd x)) !! "ETag" = None.
Proof.
  intros (Hrw & _ & Ht & _) Hoff x.
  assert (Hu : unvalidated (snd x)).
  { subst x. unfold ServeHTTP, recovered.
    apply (unvalidated_settle env).
    apply (unvalidated_handle conf env Hoff (Nanoid env) r w).
    split.
    - unfold lacks. rewrite Hrw. split; reflexivity.
    - unfold never. rewrite Ht. intros t []. }
  destruct Hu as [[Hh Hs] Hn]. split; [|split; [exact Hs|exact Hh]].
  unfold events_of, history. rewrite <- in_rev, in_map_iff.
  intros ([t e] & He & Hin). cbn [snd] in He. subst e. exact (Hn t Hin).
Qed.

Lemma etag_support_off_sample :
  starts Variant.plain Sample.arrival /\
  ETagEnabled Variant.plain = false /\
  sent_of (ServeHTTP Variant.plain Sample.env Sample.revalidate Sample.arrival)
          "ETag" = None.
Proof.
  split; [exact plain_starts|]. split; [reflexivity|].
  exact (proj1 (proj2 (etag_support_off Variant.plain Sample.env
                         Sample.revalidate Sample.arrival
                         plain_starts eq_refl))).
Defined.

(** ** The response log line *)

Lemma unanswered_frame (w w' : world) :
  trace w' = trace w -> rwStatus (rw w') = rwStatus (rw w) ->
  rwBody (rw w') = rwBody (rw w) -> unanswered w -> unanswered w'.
Proof.
  unfold unanswered, unwritten, never. intros -> -> ->. auto.
Qed.

Lemma unanswered_event (w w' : world) (t : Z) (e : event) :
  trace w' = (t, e) :: trace w -> rw w' = rw w ->
  (forall c s, e <> EvLogResponse c s) ->
  unanswered w -> unanswered w'.
Proof.
  unfold unanswered, unwritten, never. intros -> -> He [Hu Hn].
  split; [exact Hu|]. intros c s t' [Heq|Hin]; [|exact (Hn c s t' Hin)].
  injection Heq as _ Heq. exact (He c s Heq).
Qed.

Lemma loggedAs_frame (w w' : world) :
  trace w' = trace w -> rwStatus (rw w') = rwStatus (rw w) ->
  loggedAs w -> loggedAs w'.
Proof. unfold loggedAs. intros -> ->. auto. Qed.

Lemma loggedAs_event (w w' : world) (t : Z) (e : event) :
  trace w' = (t, e) :: trace w -> rw w' = rw w ->
  (forall c s, e <> EvLogResponse c s) ->
  loggedAs w -> loggedAs w'.
Proof.
  unfold loggedAs. intros -> -> He Hl t' c s [Heq|Hin]; [|exact (Hl t' c s Hin)].
  injection Heq as _ Heq. elim (He c s Heq).
Qed.

Ltac unanswered_step :=
  intros ? ?; cbv beta in *;
  unfold pool_Put, set_borrowed, unlock, timeoutCancel, downloadcancel,
    newRelicCancel;
  repeat case_match;
  first
    [ assumption
    | eapply unanswered_frame; [| | |eassumption]; reflexivity
    | eapply unanswered_event; [| | |eassumption];
      [reflexivity|reflexivity|discriminate] ].

Section ReportedRules.
Context {A B : Type}.

Lemma reported_answers (m : M A) : answers m -> reported m.
Proof.
  intros Hm w Hw. destruct (Hm w Hw) as [[a Ha] Hl]. now rewrite Ha.
Qed.

Lemma reported_panic (p : panicValue) : reported (@panic A p).
Proof. intros w Hw. exact Hw. Qed.

Lemma reported_bind (m : M A) (f : A -> M B) :
  inv unanswered m -> (forall a, reported (f a)) -> reported (m ≫= f).
Proof.
  intros Hm Hf.
  apply (triple_bind unanswered m f (fun _ => unanswered)); [exact Hm| |auto].
  intros a. apply Hf.
Qed.

Lemma reported_defer (e : event) (cleanup : world -> world) (m : M A) :
  (forall c s, e <> EvLogResponse c s) ->
  (forall w, trace (cleanup w) = (now w, e) :: trace w /\
             rw (cleanup w) = rw w) ->
  reported m -> reported (defer cleanup m).
Proof.
  intros He Hc Hm. eapply triple_defer; [exact Hm|].
  intros [a|p] w; simpl; intros H; destruct (Hc w) as [Ht Hrw].
  - now apply (loggedAs_event w _ (now w) e).
  - now apply (unanswered_event w _ (now w) e).
Qed.

Lemma reported_deferWhen (b : bool) (e : event) (cleanup : world -> world)
  (m : M A) :
  (forall c s, e <> EvLogResponse c s) ->
  (forall w, trace (cleanup w) = (now w, e) :: trace w /\
             rw (cleanup w) = rw w) ->
  reported m -> reported (deferWhen b cleanup m).
Proof.
  intros He Hc Hm. destruct b; simpl; [now apply (reported_defer e)|exact Hm].
Qed.

Lemma reported_if (b : bool) (m1 m2 : M A) :
  reported m1 -> reported m2 -> reported (if b then m1 else m2).
Proof. now destruct b. Qed.
End ReportedRules.

Lemma pool_Put_event w :
  trace (pool_Put w) = (now w, EvPoolPut) :: trace w /\ rw (pool_Put w) = rw w.
Proof. unfold pool_Put. now destruct (borrowed w). Qed.

(** The ends of the handler: a run of writes and at most one response log
    line, from a response that is not begun. *)
Ltac answers_go :=
  intros [[? ? ? ?] ? ? ? ? ?] [[Hst Hbody] Hn];
  cbn [rw rwStatus rwBody] in Hst, Hbody; subst;
  cbv [respondWithOptions respondWithNotModified respondWithError
       logResponse WriteHeader Write Header_set buf_Len buf_WriteTo
       buf_contents set_borrowed set_buffers
       mbind M_bind mret M_ret modify emit gets
       set_rw rw_WriteHeader rw_Write rw_SetHeader record_event
       rw rwHeader rwStatus rwSent rwBody authHeaderMust responseBufPool
       borrowed now trace fst snd];
  (split; [eexists; reflexivity|]);
  let t := fresh "t" in
  let c := fresh "c" in
  let s := fresh "s" in
  let Hin := fresh "Hin" in
  intros t c s Hin; cbv [loggedAs rw rwStatus trace] in *;
  first
    [ elim (Hn c s t Hin)
    | destruct Hin as [Hin|Hin];
      [injection Hin as ? ? ?; subst; split; [reflexivity|auto]
      |elim (Hn c s t Hin)] ].

Lemma answers_respondWithError reqID e : answers (respondWithError reqID e).
Proof. answers_go. Qed.

Lemma answers_respondWithOptions reqID : answers (respondWithOptions reqID).
Proof. answers_go. Qed.

Lemma answers_respondWithNotModified reqID : answers (respondWithNotModified reqID).
Proof. answers_go. Qed.

Lemma answers_health : answers (WriteHeader 200;; Write imgproxyIsRunningMsg).
Proof. answers_go. Qed.

Ltac reported_go :=
  cbv beta zeta;
  lazymatch goal with
  | |- reported (panic _) => apply reported_panic
  | |- reported (panic_error _) => apply reported_panic
  | |- reported (_ ≫= _) =>
      first [ solve [apply reported_answers; answers_go]
            | apply reported_bind;
              [inv_go; solve [unanswered_step] | intros ?; reported_go] ]
  | |- reported (defer pool_Put _) =>
      apply (reported_defer EvPoolPut);
      [discriminate | exact pool_Put_event | reported_go]
  | |- reported (defer _ _) =>
      eapply reported_defer;
      [> | intros ?; split; reflexivity | reported_go]; discriminate
  | |- reported (deferWhen _ _ _) =>
      eapply reported_deferWhen;
      [> | intros ?; split; reflexivity | reported_go]; discriminate
  | |- reported (if _ then _ else _) => apply reported_if; reported_go
  | |- reported (match ?x with _ => _ end) => destruct x; reported_go
  | |- reported ?m =>
      first [ solve [apply reported_answers; answers_go]
            | let h := head_of m in unfold h; reported_go ]
  end.

Lemma handle_reported conf env reqID r : reported (handle conf env reqID r).
Proof. reported_go. Qed.

Lemma loggedAs_unanswered w : unanswered w -> loggedAs w.
Proof. intros [_ Hn] t c s Hin. elim (Hn c s t Hin). Qed.

Lemma settle_loggedAs env reqID r res w :
  match res with Ret _ => loggedAs w | Raise _ => unanswered w end ->
  loggedAs (snd (settle env reqID r (res, w))).
Proof.
  destruct res as [u|[err|v]]; cbn [settle snd]; intros H.
  - exact H.
  - assert (Ha : answers
                   (reportError err r;;
                    match err with
                    | ErrImgproxy ierr => respondWithError reqID ierr
                    | ErrOther _ =>
                        respondWithError reqID (newUnexpectedError env err 4)
                    end)).
    { apply (triple_bind _ _ _ (fun res w => (exists a, res = Ret a) /\ unanswered w)).
      - intros w0 Hw0. split; [now exists tt|].
        eapply unanswered_event; [| | |exact Hw0];
          [reflexivity|reflexivity|discriminate].
      - intros _ w0 [_ Hw0]. revert w0 Hw0.
        destruct err; apply answers_respondWithError.
      - intros p w0 [[a Ha] _]. discriminate. }
    exact (proj2 (Ha w H)).
  - now apply loggedAs_unanswered.
Qed.

(** X14. Every response log line of a run of [ServeHTTP], from the start of
    a request, has the colour of the band of its status (31 from 500 on, 33
    from 400 on, 32 below) and reports the status of the response that is
    written, with one exception: the response 304 is logged as 200. *)
Theorem response_log_lines (conf : config) (env : package) (r : Request)
  (w : world) (c s : Z) :
  starts conf w ->
  let x := ServeHTTP conf env r w in
  In (EvLogResponse c s) (events_of x) ->
  (status_of x = Some s \/ (s = 200 /\ status_of x = Some 304)) /\
  (500 <= s -> c = 31) /\
  (400 <= s < 500 -> c = 33) /\
  (s < 400 -> c = 32).
Proof.
  intros (Hrw & _ & Ht & _) x Hin.
  assert (Hl : loggedAs (snd x)).
  { subst x. unfold ServeHTTP, recovered.
    assert (Hu : unanswered w).
    { split; [unfold unwritten; now rewrite Hrw|].
      intros c' s' t'. rewrite Ht. intros []. }
    pose proof (handle_reported conf env (Nanoid env) r w Hu) as Hr.
    destruct (handle conf env (Nanoid env) r w) as [res w1].
    apply settle_loggedAs. exact Hr. }
  unfold events_of, history in Hin. rewrite <- in_rev, in_map_iff in Hin.
  destruct Hin as ([t e] & He & Hin). cbn [snd] in He. subst e.
  destruct (Hl t c s Hin) as [-> Hs]. split; [exact Hs|].
  unfold logColor.
  destruct (Z.leb_spec 500 s), (Z.leb_spec 400 s); repeat split; intros; lia.
Qed.

Lemma response_log_lines_sample :
  starts Sample.conf Sample.arrival /\
  In (EvLogResponse 31 503)
     (events_of (ServeHTTP Sample.conf Sample.slow Sample.get Sample.arrival)) /\
  status_of (ServeHTTP Sample.conf Sample.slow Sample.get Sample.arrival)
  = Some 503.
Proof.
  split; [exact sample_starts|].
  assert (Hin : In (EvLogResponse 31 503)
                  (events_of (ServeHTTP Sample.conf Sample.slow Sample.get
                                Sample.arrival)))
    by (vm_compute; do 13 right; left; reflexivity).
  split; [exact Hin|].
  destruct (response_log_lines Sample.conf Sample.slow Sample.get
              Sample.arrival 31 503 sample_starts Hin) as [[H|[H _]] _];
    [exact H|discriminate H].
Defined.

(** ** A download that returns after the deadline *)

(** The deadline check that stands between the download and the cache
    validation: when the download returns with the deadline passed, the
    request is answered with the [Timeout] error, whatever its
    If-None-Match header; no validator is computed and none is sent. *)
Lemma late_download_times_out conf env r w po url data :
  starts conf w ->
  downloaded conf env r w po url data ->
  seconds (WriteTimeout conf) <= downloadTime conf env r w po url ->
  let x := ServeHTTP conf env r w in
  responds_error (errTimeout env) x /\
  events_of x =
    fetched env ++ [EvCheckTimeout] ++ released env ++
    answer env (ErrImgproxy (errTimeout env)) /\
  sent_of x "ETag" = None.
Proof.
  intros Hstart Hdl Hlate x. subst x.
  destruct (ServeHTTP_validating conf env r w po url data Hstart Hdl)
    as (auth' & ->).
  unfold validate, mbind, M_bind.
  rewrite (checkTimeout_late env _ (now w + seconds (WriteTimeout conf)));
    [|reflexivity|cbn [now]; lia].
  destruct (corsWriter_unwritten conf) as [Hst Hbody].
  unfold unwound, responds_error, events_of, status_of, body_of, sent_of.
  cbn [fst snd].
  rewrite history_settle_error by (rewrite rw_unwind; exact Hst).
  rewrite settle_error by (rewrite rw_unwind; exact Hst).
  rewrite history_unwind, rw_unwind.
  cbn [fst snd rw errorResponse rwStatus rwBody rwSent record_event responded].
  rewrite Hbody. repeat split.
  - unfold history. cbn [trace map rev snd record_event].
    rewrite history_admittedTrace.
    now rewrite <- !app_assoc.
  - unfold corsWriter. destruct (0 <? _); reflexivity.
Qed.

Lemma sample_revalidated_late :
  downloaded Sample.conf Variant.lateDownload Sample.revalidate Sample.arrival
             Sample.po Sample.sourceURL "source bytes".
Proof.
  split; [|split; reflexivity].
  split; [reflexivity|]. split; [right; reflexivity|].
  vm_compute. discriminate.
Qed.

(** C6 as worded fails: a deadline check stands between the download and
    the cache validation. With a write timeout of ten seconds and a
    download that succeeds after eleven, the request that presents the
    validator of the image is answered 503 with the body of the [Timeout]
    error, not 304; the validator is not computed and not sent. *)
Lemma late_download_not_revalidated :
  ~ notModifiedAsWorded Sample.conf Variant.lateDownload /\
  status_of (ServeHTTP Sample.conf Variant.lateDownload Sample.revalidate
               Sample.arrival) = Some 503 /\
  body_of (ServeHTTP Sample.conf Variant.lateDownload Sample.revalidate
             Sample.arrival) = "Timeout" /\
  ~ In EvCalcETag
       (events_of (ServeHTTP Sample.conf Variant.lateDownload
                     Sample.revalidate Sample.arrival)) /\
  sent_of (ServeHTTP Sample.conf Variant.lateDownload Sample.revalidate
             Sample.arrival) "ETag" = None.
Proof.
  destruct (late_download_times_out Sample.conf Variant.lateDownload
              Sample.revalidate Sample.arrival Sample.po Sample.sourceURL
              "source bytes" sample_starts sample_revalidated_late)
    as ((_ & Hst & Hbody) & Hev & Hsent).
  { vm_compute. discriminate. }
  split; [|split; [exact Hst|split; [exact Hbody|split; [|exact Hsent]]]].
  - intros H.
    specialize (H Sample.revalidate Sample.arrival Sample.po Sample.sourceURL
                  "source bytes" sample_starts sample_revalidated_late
                  eq_refl eq_refl).
    rewrite Hst in H. discriminate H.
  - rewrite Hev. vm_compute. intuition discriminate.
Qed.
